(** * A double-DQN agent: [ShipNet] and [Ship] (Agents.py)

    A shallow embedding of the agent of Agents.py and the properties of its
    specification.

    Conventions of the embedding.
    - Python integers are [Z].  Python floats (the rates, [gamma], [lr])
      and the outputs of the network are held as their exact values, the
      rationals [Qc]; the estimate, its mean and the loss are computed on
      them exactly.  The TD target is computed as the code computes it, in
      IEEE 754 binary32 with its rounding, infinities and NaN ([f32]), and
      a reward is stored with the dtype [torch.tensor] gives it.
    - A Python call either returns or raises: [result].  A method that
      mutates the agent is a function from the agent and the world to a
      result and the agent and the world after the call; what was mutated
      before an exception stays mutated.
    - The numeric library (the layers of the network, automatic
      differentiation, the Adam rule, fresh weights) is the interface
      [Torch]: the agent is verified for every implementation of it.
    - The three random generators (numpy, random, torch) are tapes of raw
      draws, consumed from the head; the files [torch.save] writes are a
      finite map from paths to checkpoints.
    - The placement of tensors on a device ([use_cuda]) and the message
      [save] prints are left out: they change no value. *)

From Stdlib Require Import QArith Qcanon SpecFloat.
From stdpp Require Import base option list numbers strings gmap pretty.

Open Scope Z_scope.

(** ** Python exceptions and results *)

Inductive value_error : Type :=
  | ExpectingInputHeight (h : Z)      (* "Expecting input height: 84, got: h" *)
  | ExpectingInputWidth (w : Z)       (* "Expecting input width: 84, got: w" *)
  | SampleLargerThanPopulation        (* random.sample: "Sample larger than population or is negative" *)
  | NotEnoughValuesToUnpack (expected got : nat)
  | HighNotPositive                   (* numpy randint: "high <= 0" *)
  | InvalidLearningRate (lr : Qc).    (* Adam: "Invalid learning rate: lr" *)

Inductive exn : Type :=
  | ValueError (v : value_error)
  | ZeroDivisionError
  | IndexError
  | TypeError
  | RuntimeError
  | FileNotFoundError.

Inductive result (A : Type) : Type :=
  | Ok (a : A)
  | Raise (e : exn).
Arguments Ok {A} a.
Arguments Raise {A} e.

#[export] Instance result_ret : MRet result := @Ok.
#[export] Instance result_bind : MBind result := λ A B f r,
  match r with Ok a => f a | Raise e => Raise e end.
#[export] Instance result_fmap : FMap result := λ A B f r,
  match r with Ok a => Ok (f a) | Raise e => Raise e end.

Definition is_Ok {A} (r : result A) : Prop := ∃ a, r = Ok a.

(** [for x in xs: f x], stopping at the first exception. *)
Fixpoint mapR {A B} (f : A → result B) (xs : list A) : result (list B) :=
  match xs with
  | [] => Ok []
  | x :: xs' => y ← f x; ys ← mapR f xs'; Ok (y :: ys)
  end.

(** ** Python arithmetic *)

(** [a % b] on integers. *)
Definition py_mod (a b : Z) : result Z :=
  if decide (b = 0) then Raise ZeroDivisionError else Ok (a `mod` b).

(** [max(a, b)]: the first argument unless the second is greater. *)
Definition py_max (a b : Qc) : Qc :=
  if decide (a < b)%Qc then b else a.

(** [seq[i]] with Python's negative indices. *)
Definition py_index {A} (l : list A) (i : Z) : result A :=
  let n := Z.of_nat (length l) in
  let j := if decide (i < 0) then i + n else i in
  if decide (0 ≤ j < n)
  then match l !! Z.to_nat j with Some x => Ok x | None => Raise IndexError end
  else Raise IndexError.

(** ** Random generators *)

Definition tape := list N.

(** The next raw draw; a tape that has run out goes on with zeros. *)
Definition draw (t : tape) : N * tape := (hd 0%N t, tl t).

(** [np.random.rand()]: a multiple of 2^-53 in [0, 1). *)
Definition np_random_rand (t : tape) : Qc * tape :=
  let '(r, t') := draw t in
  (Q2Qc (Qmake (Z.of_N r `mod` 2 ^ 53) (2 ^ 53)), t').

(** [np.random.randint(high)]: an integer in [0, high). *)
Definition np_random_randint (high : Z) (t : tape) : result Z * tape :=
  if decide (high ≤ 0) then (Raise (ValueError HighNotPositive), t)
  else let '(r, t') := draw t in (Ok (Z.of_N r `mod` high), t').

(** [random.sample(population, k)], by the pool algorithm of the library:
    [k] rounds, round [i] draws [j] below [n - i], takes [pool[j]] and moves
    [pool[n - i - 1]] into its place.  (On a large population the library
    tracks the chosen positions in a set instead and draws again on a
    repeat; the result is again [k] items at pairwise different
    positions.) *)
Fixpoint sample_pool {A} (pool : list A) (live k : nat) (t : tape)
  : list A * tape :=
  match k with
  | O => ([], t)
  | S k' =>
      let '(r, t') := draw t in
      let j := N.to_nat (r `mod` N.of_nat live) in
      match pool !! j, pool !! (live - 1)%nat with
      | Some x, Some y =>
          let '(rest, t'') := sample_pool (<[j := y]> pool) (live - 1) k' t' in
          (x :: rest, t'')
      | _, _ => ([], t')
      end
  end.

Definition random_sample {A} (population : list A) (k : Z) (t : tape)
  : result (list A) * tape :=
  let n := length population in
  if decide (0 ≤ k ≤ Z.of_nat n)
  then let '(picked, t') := sample_pool population n (Z.to_nat k) t in
       (Ok picked, t')
  else (Raise (ValueError SampleLargerThanPopulation), t).

(** ** [collections.deque] with a maximal length *)

Record deque (A : Type) : Type := Deque { maxlen : nat; items : list A }.
Arguments Deque {A} maxlen items.
Arguments maxlen {A} d.
Arguments items {A} d.

(** [deque.append]: a full deque drops its oldest item first. *)
Definition deque_append {A} (d : deque A) (x : A) : deque A :=
  if decide (maxlen d = 0)%nat then d
  else if decide (length (items d) < maxlen d)%nat
       then Deque (maxlen d) (items d ++ [x])
       else Deque (maxlen d) (drop 1 (items d) ++ [x]).

(** ** One-dimensional tensors *)

(** An elementwise binary operation with broadcasting: equal lengths, or
    one side of length one. *)
Definition broadcast2 {A B C} (f : A → B → result C) (e : exn)
    (xs : list A) (ys : list B) : result (list C) :=
  if decide (length xs = length ys)
  then mapR (λ p, f p.1 p.2) (zip xs ys)
  else match xs, ys with
       | [x], _ => mapR (f x) ys
       | _, [y] => mapR (λ x, f x y) xs
       | _, _ => Raise e
       end.

(** [torch.argmax] of one row: the index of the first maximal value. *)
Fixpoint argmax_from (best : Qc) (besti i : nat) (row : list Qc) : nat :=
  match row with
  | [] => besti
  | q :: row' =>
      if decide (best < q)%Qc then argmax_from q i (S i) row'
      else argmax_from best besti (S i) row'
  end.

Definition argmax (row : list Qc) : result nat :=
  match row with
  | [] => Raise IndexError
  | q :: row' => Ok (argmax_from q 0%nat 1%nat row')
  end.

(** [values[rows, cols]]: the entry of row [rows[i]] at column [cols[i]]. *)
Definition gather (values : list (list Qc)) (rows cols : list Z)
  : result (list Qc) :=
  broadcast2 (λ r c, row ← py_index values r; py_index row c) IndexError
    rows cols.

(** [np.arange(0, n)]. *)
Definition arange (n : Z) : list Z := Z.of_nat <$> seq 0 (Z.to_nat n).

Definition sumQc (l : list Qc) : Qc := foldr Qcplus 0%Qc l.

(** [tensor.mean()]. *)
Definition mean (l : list Qc) : Qc :=
  (sumQc l / Q2Qc (inject_Z (Z.of_nat (length l))))%Qc.

Definition Qcabs (x : Qc) : Qc := if decide (x < 0)%Qc then (- x)%Qc else x.

(** [torch.nn.SmoothL1Loss()] with its default [beta = 1] and mean
    reduction. *)
Definition smooth_l1 (x y : Qc) : Qc :=
  let d := Qcabs (x - y) in
  if decide (d < 1)%Qc then (Q2Qc (1 # 2) * d * d)%Qc
  else (d - Q2Qc (1 # 2))%Qc.

(** ** Floats

    [f32] and [f64] are the numbers of IEEE 754 binary32 (torch's float32)
    and binary64 (float64 and the Python float), with the operations of
    the standard, rounding to nearest, ties to even. *)
Definition f32 : Type := spec_float.
Definition f64 : Type := spec_float.

Definition f32_add : f32 → f32 → f32 := SFadd 24 128.
Definition f32_sub : f32 → f32 → f32 := SFsub 24 128.
Definition f32_mul : f32 → f32 → f32 := SFmul 24 128.
Definition f64_add : f64 → f64 → f64 := SFadd 53 1024.

(** The conversion of an int64 to float32 and to float64. *)
Definition f32_of_Z (z : Z) : f32 := binary_normalize 24 128 z 0 false.
Definition f64_of_Z (z : Z) : f64 := binary_normalize 53 1024 z 0 false.

Definition f32_one : f32 := f32_of_Z 1.

(** [tensor.float()] of a bool tensor. *)
Definition f32_of_bool (b : bool) : f32 :=
  if b then f32_of_Z 1 else f32_of_Z 0.

(** float32 to float64, which is exact, and [tensor.float()] of a float64
    tensor, which rounds. *)
Definition f64_of_f32 (x : f32) : f64 :=
  match x with
  | S754_finite s m e => binary_round 53 1024 s m e
  | _ => x
  end.

Definition f32_of_f64 (x : f64) : f32 :=
  match x with
  | S754_finite s m e => binary_round 24 128 s m e
  | _ => x
  end.

(** The float32 of a number held by its exact value: the number itself
    when it is a float32, else the nearest one; a value beyond the range
    of float32 reads as an infinity.  This is how a Python float enters a
    float32 operation, and how an output of the network is read back. *)
Definition f32_of_Qc (q : Qc) : f32 :=
  match Qnum q with
  | Z0 => S754_zero false
  | Zpos n =>
      SFdiv 24 128 (S754_finite false n 0) (S754_finite false (Qden q) 0)
  | Zneg n =>
      SFdiv 24 128 (S754_finite true n 0) (S754_finite false (Qden q) 0)
  end.

Definition is_finite (x : spec_float) : bool :=
  match x with
  | S754_zero _ | S754_finite _ _ _ => true
  | _ => false
  end.

(** What a float is worth: its exact value, an infinity, or NaN. *)
Inductive float_value : Type :=
  | Exactly (q : Qc)
  | Infinity (negative : bool)
  | NotANumber.

#[export] Instance float_value_eq_dec : EqDecision float_value.
Proof. solve_decision. Defined.

Definition value_of (x : spec_float) : float_value :=
  match x with
  | S754_zero _ => Exactly 0
  | S754_finite s m e =>
      let n := if s then Zneg m else Zpos m in
      Exactly (match e with
               | Z0 => Q2Qc (n # 1)
               | Zpos k => Q2Qc (n * 2 ^ Zpos k # 1)
               | Zneg k => Q2Qc (n # 2 ^ k)
               end)
  | S754_infinity s => Infinity s
  | S754_nan => NotANumber
  end.

Definition value_add (a b : float_value) : float_value :=
  match a, b with
  | NotANumber, _ | _, NotANumber => NotANumber
  | Infinity s, Infinity s' => if Bool.eqb s s' then a else NotANumber
  | Infinity _, _ => a
  | _, Infinity _ => b
  | Exactly x, Exactly y => Exactly (x + y)
  end.

(** [tensor.mean()] of values of which some may not be finite; the mean of
    no value at all is NaN. *)
Definition mean_value (l : list float_value) : float_value :=
  match l with
  | [] => NotANumber
  | _ =>
      match foldr value_add (Exactly 0) l with
      | Exactly q => Exactly (q / Q2Qc (inject_Z (Z.of_nat (length l))))
      | v => v
      end
  end.

(** The elementwise loss of an estimate against a float32 target. *)
Definition smooth_l1_float (x : Qc) (y : f32) : float_value :=
  match value_of y with
  | Exactly q => Exactly (smooth_l1 x q)
  | Infinity _ => Infinity false
  | NotANumber => NotANumber
  end.

Definition loss_fn (input : list Qc) (target : list f32)
  : result float_value :=
  l ← broadcast2 (λ x y, Ok (smooth_l1_float x y)) RuntimeError input target;
  Ok (mean_value l).

(** A value that is not negative: NaN is not a number at all. *)
Definition value_nonneg (v : float_value) : Prop :=
  match v with
  | Exactly q => (0 ≤ q)%Qc
  | Infinity negative => negative = false
  | NotANumber => True
  end.

(** ** Rewards

    The reward of an experience as [cache] stores it,
    [torch.tensor([reward])]: an int64 for a Python int, a float32 for a
    Python float, a float64 for a numpy float64. *)
Inductive reward_value : Type :=
  | RInt64 (z : Z)
  | RFloat32 (x : f32)
  | RFloat64 (x : f64).

Definition is_float64 (r : reward_value) : bool :=
  match r with RFloat64 _ => true | _ => false end.

(** A reward as a float32 and as a float64. *)
Definition reward_f32 (r : reward_value) : f32 :=
  match r with
  | RInt64 z => f32_of_Z z
  | RFloat32 x => x
  | RFloat64 x => f32_of_f64 x
  end.

Definition reward_f64 (r : reward_value) : f64 :=
  match r with
  | RInt64 z => f64_of_Z z
  | RFloat32 x => f64_of_f32 x
  | RFloat64 x => x
  end.

(** The stacked rewards of a batch have the widest dtype among them, and
    they promote the sum of line 178 to float64 when that is float64 and
    the batch has more than one experience: the rewards of a batch of one
    are, after [squeeze], a tensor of no dimension, which does not take
    part in the promotion. *)
Definition stacked_float64 (reward : list reward_value) : bool :=
  existsb is_float64 reward && negb (Nat.eqb (length reward) 1).

(** [(reward + bootstrap).float()] for a float32 [bootstrap].  When the
    rewards promote the sum ([wide]) it is taken in float64 and then
    rounded; else the reward is converted to float32 and the sum taken in
    float32. *)
Definition add_reward (wide : bool) (r : reward_value) (bootstrap : f32)
  : f32 :=
  if wide then f32_of_f64 (f64_add (reward_f64 r) (f64_of_f32 bootstrap))
  else f32_add (reward_f32 r) bootstrap.

(** The reward rounded to float32, through float64 when the rewards
    promote the sum: what [add_reward] gives for a bootstrap of zero. *)
Definition reward_as_f32 (wide : bool) (r : reward_value) : f32 :=
  if wide then f32_of_f64 (reward_f64 r) else reward_f32 r.

(** ** The numeric library *)

(** What the agent uses of torch, as an interface.  A [tensor] is the value
    of one network parameter and a [frame] one observation (the stacked
    frames, channels x 84 x 84). *)
Class Torch : Type := {
  tensor : Type;
  frame : Type;
  (** [nn.Sequential(...)(x)] for one input, from the values of the
      parameters: one estimated value per action. *)
  sequential : list tensor → frame → list Qc;
  (** The initial values of the parameters of the [nn.Sequential] of
      [ShipNet] for [c] input channels and [output_dim] outputs, from one
      draw of torch's generator. *)
  fresh_weights : Z → Z → N → list tensor;
  (** Automatic differentiation: the gradient, with respect to parameter
      number [i], of the smooth-L1 loss between the online values of the
      taken actions on a batch of states and a constant target. *)
  loss_gradient : list tensor → nat → list frame → list Z → list f32 → tensor;
  tensor_add : tensor → tensor → tensor;
  (** The state Adam keeps for one parameter, and its update rule: learning
      rate, state, value and gradient give the new value and state. *)
  moments : Type;
  adam_rule : Qc → option moments → tensor → tensor → tensor * moments;
}.

Section Agent.
Context `{Torch}.

(** ** [nn.Parameter] *)

Record parameter : Type := mkParameter {
  data : tensor;
  requires_grad : bool;
  grad : option tensor;
}.

Definition set_data (d : tensor) (p : parameter) : parameter :=
  mkParameter d (requires_grad p) (grad p).
Definition set_requires_grad (b : bool) (p : parameter) : parameter :=
  mkParameter (data p) b (grad p).
Definition set_grad (g : option tensor) (p : parameter) : parameter :=
  mkParameter (data p) (requires_grad p) g.

(** [module.state_dict()]: the values of the parameters, in order. *)
Definition state_dict (ps : list parameter) : list tensor := data <$> ps.

(** [module.load_state_dict(sd)]: copies the values into the existing
    parameters key by key (here: position by position), then raises if a
    key was missing or unexpected; what was copied stays copied. *)
Definition load_state_dict (ps : list parameter) (sd : list tensor)
  : result () * list parameter :=
  let ps' := zip_with (λ p d, set_data d p) ps sd ++ drop (length sd) ps in
  (if decide (length ps = length sd) then Ok () else Raise RuntimeError, ps').

(** ** [class ShipNet] *)

Record ShipNet : Type := mkShipNet {
  online : list parameter;
  target : list parameter;
}.

Definition ShipNet_init (input_dim : Z * Z * Z) (output_dim : Z) (t : tape)
  : result ShipNet * tape :=
  let '(c, h, w) := input_dim in
  if decide (h ≠ 84) then (Raise (ValueError (ExpectingInputHeight h)), t)
  else if decide (w ≠ 84) then (Raise (ValueError (ExpectingInputWidth w)), t)
  (* nn.Conv2d(in_channels=c, ...): no tensor has a negative dimension *)
  else if decide (c < 0) then (Raise RuntimeError, t)
  else
    let '(seed, t') := draw t in
    (* nn.Linear(512, output_dim), the last layer to be built: the layers
       before it have drawn their weights *)
    if decide (output_dim < 0) then (Raise RuntimeError, t')
    else
    let online :=
      (λ d, mkParameter d true None) <$> fresh_weights c output_dim seed in
    (* copy.deepcopy(self.online), then frozen *)
    let target := online in
    let target := set_requires_grad false <$> target in
    (Ok (mkShipNet online target), t').

(** [ShipNet.forward], on a batch of inputs; Python's implicit [None] for
    any other [model]. *)
Definition forward (net : ShipNet) (input : list frame) (model : string)
  : option (list (list Qc)) :=
  if decide (model = "online")
  then Some (sequential (state_dict (online net)) <$> input)
  else if decide (model = "target")
  then Some (sequential (state_dict (target net)) <$> input)
  else None.

(** [net(input, model=...)] where a tensor is expected next. *)
Definition net_call (net : ShipNet) (input : list frame) (model : string)
  : result (list (list Qc)) :=
  match forward net input model with
  | Some v => Ok v
  | None => Raise TypeError
  end.

(** [net.parameters()]: the online parameters, then the target ones. *)
Definition parameters (net : ShipNet) : list parameter :=
  online net ++ target net.

(** ** [torch.optim.Adam] *)

(** The optimizer is constructed on [net.parameters()] and holds these
    parameter objects, which every later write updates in place: here it
    refers to the parameters of the network by position in [parameters].
    Its state is created on a parameter's first update. *)
Record Adam : Type := mkAdam {
  adam_lr : Qc;
  adam_state : gmap nat moments;
}.

Definition Adam_init (lr : Qc) : result Adam :=
  if decide (lr < 0)%Qc then Raise (ValueError (InvalidLearningRate lr))
  else Ok (mkAdam lr ∅).

(** [optimizer.zero_grad()]: the gradient of every parameter is reset
    (to [None]). *)
Definition zero_grad (net : ShipNet) : ShipNet :=
  mkShipNet (set_grad None <$> online net) (set_grad None <$> target net).

(** [optimizer.step()] over the parameters from position [i] on: a
    parameter without gradient is skipped. *)
Fixpoint adam_step_from (lr : Qc) (i : nat) (ps : list parameter)
    (st : gmap nat moments) : list parameter * gmap nat moments :=
  match ps with
  | [] => ([], st)
  | p :: ps' =>
      match grad p with
      | None =>
          let '(qs, st') := adam_step_from lr (S i) ps' st in (p :: qs, st')
      | Some g =>
          let '(d, m) := adam_rule lr (st !! i) (data p) g in
          let '(qs, st') := adam_step_from lr (S i) ps' (<[i := m]> st) in
          (set_data d p :: qs, st')
      end
  end.

Definition optimizer_step (opt : Adam) (net : ShipNet) : ShipNet * Adam :=
  let '(ps, st) :=
    adam_step_from (adam_lr opt) 0 (parameters net) (adam_state opt) in
  let n := length (online net) in
  (mkShipNet (take n ps) (drop n ps), mkAdam (adam_lr opt) st).

(** A tensor computed by the online network, with what automatic
    differentiation recorded of its computation. *)
Record tracked : Type := Tracked {
  values : list Qc;
  graph_state : list frame;
  graph_action : list Z;
}.

(** [loss.backward()]: the gradient is accumulated into every parameter
    the loss was computed from that requires one, here the online ones. *)
Definition accumulate (old : option tensor) (g : tensor) : option tensor :=
  match old with
  | None => Some g
  | Some o => Some (tensor_add o g)
  end.

Definition backward (net : ShipNet) (td_estimate : tracked)
    (td_target : list f32) : ShipNet :=
  let w := state_dict (online net) in
  mkShipNet
    (imap (λ i p,
       if requires_grad p
       then set_grad (accumulate (grad p)
              (loss_gradient w i (graph_state td_estimate)
                 (graph_action td_estimate) td_target)) p
       else p) (online net))
    (target net).

(** ** Stored experience *)

(** One experience as [cache] stores it; the one-element tensors of the
    action, the reward and the flag are their element. *)
Record transition : Type := mkTransition {
  t_state : frame;
  t_next_state : frame;
  t_action : Z;
  t_reward : reward_value;
  t_done : bool;
}.

(** ** [class Ship] *)

Record Ship : Type := mkShip {
  state_dim : Z * Z * Z;
  action_dim : Z;
  save_dir : string;
  lr : Qc;
  net : ShipNet;
  exploration_rate : Qc;
  exploration_rate_decay : Qc;
  exploration_rate_min : Qc;
  curr_step : Z;
  save_every : Z;
  memory : deque transition;
  batch_size : Z;
  Q : option Qc;
  gamma : Qc;
  loss : float_value;
  optimizer : Adam;
  burn_in : Z;
  learn_every : Z;
  sync_every : Z;
}.

(** Attribute assignment, [self.x = v]. *)
Definition set_net (v : ShipNet) (s : Ship) : Ship :=
  mkShip (state_dim s) (action_dim s) (save_dir s) (lr s) v
    (exploration_rate s) (exploration_rate_decay s) (exploration_rate_min s)
    (curr_step s) (save_every s) (memory s) (batch_size s) (Q s) (gamma s)
    (loss s) (optimizer s) (burn_in s) (learn_every s) (sync_every s).
Definition set_exploration_rate (v : Qc) (s : Ship) : Ship :=
  mkShip (state_dim s) (action_dim s) (save_dir s) (lr s) (net s) v
    (exploration_rate_decay s) (exploration_rate_min s) (curr_step s)
    (save_every s) (memory s) (batch_size s) (Q s) (gamma s) (loss s)
    (optimizer s) (burn_in s) (learn_every s) (sync_every s).
Definition set_exploration_rate_decay (v : Qc) (s : Ship) : Ship :=
  mkShip (state_dim s) (action_dim s) (save_dir s) (lr s) (net s)
    (exploration_rate s) v (exploration_rate_min s) (curr_step s) (save_every
    s) (memory s) (batch_size s) (Q s) (gamma s) (loss s) (optimizer s)
    (burn_in s) (learn_every s) (sync_every s).
Definition set_exploration_rate_min (v : Qc) (s : Ship) : Ship :=
  mkShip (state_dim s) (action_dim s) (save_dir s) (lr s) (net s)
    (exploration_rate s) (exploration_rate_decay s) v (curr_step s)
    (save_every s) (memory s) (batch_size s) (Q s) (gamma s) (loss s)
    (optimizer s) (burn_in s) (learn_every s) (sync_every s).
Definition set_curr_step (v : Z) (s : Ship) : Ship :=
  mkShip (state_dim s) (action_dim s) (save_dir s) (lr s) (net s)
    (exploration_rate s) (exploration_rate_decay s) (exploration_rate_min s) v
    (save_every s) (memory s) (batch_size s) (Q s) (gamma s) (loss s)
    (optimizer s) (burn_in s) (learn_every s) (sync_every s).
Definition set_save_every (v : Z) (s : Ship) : Ship :=
  mkShip (state_dim s) (action_dim s) (save_dir s) (lr s) (net s)
    (exploration_rate s) (exploration_rate_decay s) (exploration_rate_min s)
    (curr_step s) v (memory s) (batch_size s) (Q s) (gamma s) (loss s)
    (optimizer s) (burn_in s) (learn_every s) (sync_every s).
Definition set_memory (v : deque transition) (s : Ship) : Ship :=
  mkShip (state_dim s) (action_dim s) (save_dir s) (lr s) (net s)
    (exploration_rate s) (exploration_rate_decay s) (exploration_rate_min s)
    (curr_step s) (save_every s) v (batch_size s) (Q s) (gamma s) (loss s)
    (optimizer s) (burn_in s) (learn_every s) (sync_every s).
Definition set_batch_size (v : Z) (s : Ship) : Ship :=
  mkShip (state_dim s) (action_dim s) (save_dir s) (lr s) (net s)
    (exploration_rate s) (exploration_rate_decay s) (exploration_rate_min s)
    (curr_step s) (save_every s) (memory s) v (Q s) (gamma s) (loss s)
    (optimizer s) (burn_in s) (learn_every s) (sync_every s).
Definition set_Q (v : option Qc) (s : Ship) : Ship :=
  mkShip (state_dim s) (action_dim s) (save_dir s) (lr s) (net s)
    (exploration_rate s) (exploration_rate_decay s) (exploration_rate_min s)
    (curr_step s) (save_every s) (memory s) (batch_size s) v (gamma s) (loss
    s) (optimizer s) (burn_in s) (learn_every s) (sync_every s).
Definition set_gamma (v : Qc) (s : Ship) : Ship :=
  mkShip (state_dim s) (action_dim s) (save_dir s) (lr s) (net s)
    (exploration_rate s) (exploration_rate_decay s) (exploration_rate_min s)
    (curr_step s) (save_every s) (memory s) (batch_size s) (Q s) v (loss s)
    (optimizer s) (burn_in s) (learn_every s) (sync_every s).
Definition set_loss (v : float_value) (s : Ship) : Ship :=
  mkShip (state_dim s) (action_dim s) (save_dir s) (lr s) (net s)
    (exploration_rate s) (exploration_rate_decay s) (exploration_rate_min s)
    (curr_step s) (save_every s) (memory s) (batch_size s) (Q s) (gamma s) v
    (optimizer s) (burn_in s) (learn_every s) (sync_every s).
Definition set_optimizer (v : Adam) (s : Ship) : Ship :=
  mkShip (state_dim s) (action_dim s) (save_dir s) (lr s) (net s)
    (exploration_rate s) (exploration_rate_decay s) (exploration_rate_min s)
    (curr_step s) (save_every s) (memory s) (batch_size s) (Q s) (gamma s)
    (loss s) v (burn_in s) (learn_every s) (sync_every s).
Definition set_burn_in (v : Z) (s : Ship) : Ship :=
  mkShip (state_dim s) (action_dim s) (save_dir s) (lr s) (net s)
    (exploration_rate s) (exploration_rate_decay s) (exploration_rate_min s)
    (curr_step s) (save_every s) (memory s) (batch_size s) (Q s) (gamma s)
    (loss s) (optimizer s) v (learn_every s) (sync_every s).
Definition set_learn_every (v : Z) (s : Ship) : Ship :=
  mkShip (state_dim s) (action_dim s) (save_dir s) (lr s) (net s)
    (exploration_rate s) (exploration_rate_decay s) (exploration_rate_min s)
    (curr_step s) (save_every s) (memory s) (batch_size s) (Q s) (gamma s)
    (loss s) (optimizer s) (burn_in s) v (sync_every s).
Definition set_sync_every (v : Z) (s : Ship) : Ship :=
  mkShip (state_dim s) (action_dim s) (save_dir s) (lr s) (net s)
    (exploration_rate s) (exploration_rate_decay s) (exploration_rate_min s)
    (curr_step s) (save_every s) (memory s) (batch_size s) (Q s) (gamma s)
    (loss s) (optimizer s) (burn_in s) (learn_every s) v.

(** The dictionary [save] writes with [torch.save]. *)
Record checkpoint : Type := mkCheckpoint {
  ck_net : list tensor * list tensor;  (* online.*, target.* *)
  ck_exploration_rate : Qc;
  ck_exploration_rate_decay : Qc;
  ck_exploration_rate_min : Qc;
  ck_save_every : Z;
  ck_batch_size : Z;
  ck_gamma : Qc;
  ck_lr : Qc;
  ck_burn_in : Z;
  ck_learn_every : Z;
  ck_sync_every : Z;
  ck_curr_step : Z;
  ck_memory : deque transition;
}.

(** ** The world around the agent *)

Record world : Type := mkWorld {
  np_random : tape;      (* numpy's generator *)
  py_random : tape;      (* the generator of [random] *)
  torch_random : tape;   (* torch's generator *)
  disk : gmap string checkpoint;
}.

Definition set_np_random (t : tape) (w : world) : world :=
  mkWorld t (py_random w) (torch_random w) (disk w).
Definition set_py_random (t : tape) (w : world) : world :=
  mkWorld (np_random w) t (torch_random w) (disk w).
Definition set_torch_random (t : tape) (w : world) : world :=
  mkWorld (np_random w) (py_random w) t (disk w).
Definition set_disk (d : gmap string checkpoint) (w : world) : world :=
  mkWorld (np_random w) (py_random w) (torch_random w) d.

(** ** Methods as state transformers *)

(** A method call: from the agent and the world to what it returns or
    raises, and the agent and the world after it. *)
Definition M (A : Type) : Type := Ship → world → result A * Ship * world.

#[export] Instance M_ret : MRet M := λ A a s w, (Ok a, s, w).
#[export] Instance M_bind : MBind M := λ A B f m s w,
  match m s w with
  | (Ok a, s', w') => f a s' w'
  | (Raise e, s', w') => (Raise e, s', w')
  end.

Definition get : M Ship := λ s w, (Ok s, s, w).
Definition modify (f : Ship → Ship) : M unit := λ s w, (Ok (), f s, w).
Definition lift {A} (r : result A) : M A := λ s w, (r, s, w).
Definition with_np_random {A} (f : tape → A * tape) : M A := λ s w,
  let '(a, t) := f (np_random w) in (Ok a, s, set_np_random t w).
Definition with_py_random {A} (f : tape → A * tape) : M A := λ s w,
  let '(a, t) := f (py_random w) in (Ok a, s, set_py_random t w).

(** [Ship.__init__]. *)
Definition Ship_init (state_dim : Z * Z * Z) (action_dim : Z)
    (save_dir : string) (exploration_rate exploration_rate_decay
    exploration_rate_min : Qc) (save_every batch_size : Z) (gamma lr : Qc)
    (burn_in learn_every sync_every : Z) (w : world) : result Ship * world :=
  let '(r, t) := ShipNet_init state_dim action_dim (torch_random w) in
  let w := set_torch_random t w in
  (net ← r;
   optimizer ← Adam_init lr;
   Ok (mkShip state_dim action_dim save_dir lr net
         exploration_rate exploration_rate_decay exploration_rate_min
         0 save_every (Deque 1000 []) batch_size None gamma (Exactly 0)
         optimizer burn_in learn_every sync_every), w).

(** The defaults of the keyword arguments of [Ship.__init__]. *)
Definition Ship_init_default (state_dim : Z * Z * Z) (action_dim : Z)
    (save_dir : string) : world → result Ship * world :=
  Ship_init state_dim action_dim save_dir
    1%Qc (Q2Qc (99999975 # 100000000)) (Q2Qc (1 # 10)) 500000 32
    (Q2Qc (9 # 10)) (Q2Qc (25 # 100000)) 10000 3 10000.

(** [tensor.item()] of the result of [argmax] on a batch. *)
Definition item {A} (l : list A) : result A :=
  match l with
  | [x] => Ok x
  | _ => Raise RuntimeError
  end.

Definition act (state : frame) : M (Z * list (list Qc)) :=
  let action_values := [[1; 1; 1; 1; 1; 1]]%Qc in
  self ← get;
  u ← with_np_random np_random_rand;
  '(action_to_take, action_values) ←
    (if decide (u < exploration_rate self)%Qc then
       (* EXPLORE *)
       r ← with_np_random (np_random_randint (action_dim self));
       action_to_take ← lift r;
       mret (action_to_take, action_values)
     else
       (* EXPLOIT *)
       let state := [state] in
       action_values ← lift (net_call (net self) state "online");
       best ← lift (mapR argmax action_values);
       action_to_take ← lift (item best);
       mret (Z.of_nat action_to_take, action_values));
  modify (λ s, set_exploration_rate
                 (exploration_rate s * exploration_rate_decay s)%Qc s);;
  modify (λ s, set_exploration_rate
                 (py_max (exploration_rate_min s) (exploration_rate s)) s);;
  modify (λ s, set_curr_step (curr_step s + 1) s);;
  mret (action_to_take, action_values).

Definition cache (state next_state : frame) (action : Z)
    (reward : reward_value) (done : bool) : M () :=
  modify (λ s, set_memory
    (deque_append (memory s)
       (mkTransition state next_state action reward done)) s).

(** The five stacked fields of a batch: states, next states, actions,
    rewards, flags. *)
Definition batch : Type :=
  list frame * list frame * list Z * list reward_value * list bool.

Definition recall : M batch :=
  self ← get;
  r ← with_py_random (random_sample (items (memory self)) (batch_size self));
  picked ← lift r;
  (* the zip of an empty batch has nothing to unpack into five names *)
  match picked with
  | [] => lift (Raise (ValueError (NotEnoughValuesToUnpack 5 0)))
  | _ => mret (t_state <$> picked, t_next_state <$> picked,
               t_action <$> picked, t_reward <$> picked, t_done <$> picked)
  end.

Definition td_estimate (self : Ship) (state : list frame) (action : list Z)
  : result tracked :=
  out ← net_call (net self) state "online";
  current_Q ← gather out (arange (batch_size self)) action;
  Ok (Tracked current_Q state action).

(** The arithmetic of the last line is float32: [done.float()] and the
    values of the network are float32 tensors, and the Python float [gamma]
    enters the product as a float32.  The rewards are added as
    [add_reward] says, and the result is a float32 tensor. *)
Definition td_target (self : Ship) (reward : list reward_value)
    (next_state : list frame) (done : list bool) : result (list f32) :=
  next_state_Q ← net_call (net self) next_state "online";
  best_action ← mapR argmax next_state_Q;
  out ← net_call (net self) next_state "target";
  next_Q ← gather out (arange (batch_size self)) (Z.of_nat <$> best_action);
  let next_Q := f32_of_Qc <$> next_Q in
  let not_done := (λ d : bool, f32_sub f32_one (f32_of_bool d)) <$> done in
  let discount := (λ x, f32_mul x (f32_of_Qc (gamma self))) <$> not_done in
  bootstrap ← broadcast2 (λ x y, Ok (f32_mul x y)) RuntimeError
                 discount next_Q;
  let wide := stacked_float64 reward in
  broadcast2 (λ r y, Ok (add_reward wide r y)) RuntimeError reward bootstrap.

Definition update_Q_online (td_estimate : tracked) (td_target : list f32)
  : M float_value :=
  l ← lift (loss_fn (values td_estimate) td_target);
  modify (λ s, set_net (zero_grad (net s)) s);;
  modify (λ s, set_net (backward (net s) td_estimate td_target) s);;
  modify (λ s, let '(net', opt') := optimizer_step (optimizer s) (net s) in
               set_optimizer opt' (set_net net' s));;
  mret l.

Definition sync_Q_target : M () := λ s w,
  let '(r, tg) := load_state_dict (target (net s))
                    (state_dict (online (net s))) in
  (r, set_net (mkShipNet (online (net s)) tg) s, w).

Definition learn : M (option Qc * option float_value) :=
  self ← get;
  r ← lift (py_mod (curr_step self) (sync_every self));
  (if decide (r = 0) then sync_Q_target else mret ());;
  if decide (curr_step self < burn_in self) then mret (None, None) else
  r ← lift (py_mod (curr_step self) (learn_every self));
  if decide (r ≠ 0) then mret (None, None) else
  '(state, next_state, action, reward, done) ← recall;
  self ← get;
  td_est ← lift (td_estimate self state action);
  td_tgt ← lift (td_target self reward next_state done);
  l ← update_Q_online td_est td_tgt;
  modify (set_loss l);;
  modify (set_Q (Some (mean (values td_est))));;
  self ← get;
  mret (Q self, Some (loss self)).

(** [ShipNet.state_dict()] and [ShipNet.load_state_dict]. *)
Definition net_state_dict (net : ShipNet) : list tensor * list tensor :=
  (state_dict (online net), state_dict (target net)).

Definition net_load_state_dict (sd : list tensor * list tensor) : M () :=
  λ s w,
  let '(r1, on) := load_state_dict (online (net s)) sd.1 in
  let '(r2, tg) := load_state_dict (target (net s)) sd.2 in
  (r1;; r2, set_net (mkShipNet on tg) s, w).

(** [torch.save] and [torch.load] on the disk of the world. *)
Definition torch_save (c : checkpoint) (path : string) : M () := λ s w,
  (Ok (), s, set_disk (<[path := c]> (disk w)) w).

Definition torch_load (path : string) : M checkpoint := λ s w,
  (match disk w !! path with
   | Some c => Ok c
   | None => Raise FileNotFoundError
   end, s, w).

Definition save : M string :=
  self ← get;
  let save_path :=
    save_dir self +:+ "/space-invaders_net_" +:+ pretty (curr_step self)
      +:+ ".chkpt" in
  let checkpoint :=
    mkCheckpoint (net_state_dict (net self)) (exploration_rate self)
      (exploration_rate_decay self) (exploration_rate_min self)
      (save_every self) (batch_size self) (gamma self) (lr self)
      (burn_in self) (learn_every self) (sync_every self) (curr_step self)
      (memory self) in
  torch_save checkpoint save_path;;
  mret save_path.

Definition load (load_path : string) : M () :=
  checkpoint ← torch_load load_path;
  net_load_state_dict (ck_net checkpoint);;
  modify (set_exploration_rate (ck_exploration_rate checkpoint));;
  modify (set_exploration_rate_decay (ck_exploration_rate_decay checkpoint));;
  modify (set_exploration_rate_min (ck_exploration_rate_min checkpoint));;
  modify (set_save_every (ck_save_every checkpoint));;
  modify (set_batch_size (ck_batch_size checkpoint));;
  modify (set_gamma (ck_gamma checkpoint));;
  optimizer ← lift (Adam_init (ck_lr checkpoint));
  modify (set_optimizer optimizer);;
  modify (set_burn_in (ck_burn_in checkpoint));;
  modify (set_learn_every (ck_learn_every checkpoint));;
  modify (set_sync_every (ck_sync_every checkpoint));;
  modify (set_curr_step (ck_curr_step checkpoint));;
  modify (set_memory (ck_memory checkpoint)).

(** The agent after a call of [act] that returned. *)
Definition decayed (s : Ship) : Ship :=
  set_curr_step (curr_step s + 1)
    (set_exploration_rate
       (py_max (exploration_rate_min s)
          (exploration_rate s * exploration_rate_decay s)%Qc) s).

(** [cache] called once for each experience of a list, in order. *)
Fixpoint cache_all (ts : list transition) : M () :=
  match ts with
  | [] => mret ()
  | t :: ts' =>
      cache (t_state t) (t_next_state t) (t_action t) (t_reward t) (t_done t);;
      cache_all ts'
  end.

(** [act] called once for each observation of a list, in order; the
    actions and action values it returned. *)
Fixpoint act_all (states : list frame) : M (list (Z * list (list Qc))) :=
  match states with
  | [] => mret []
  | state :: states' =>
      r ← act state;
      rs ← act_all states';
      mret (r :: rs)
  end.

(** The file [save] writes, and what it writes into it. *)
Definition checkpoint_path (s : Ship) : string :=
  save_dir s +:+ "/space-invaders_net_" +:+ pretty (curr_step s) +:+ ".chkpt".

Definition checkpoint_of (s : Ship) : checkpoint :=
  mkCheckpoint (net_state_dict (net s)) (exploration_rate s)
    (exploration_rate_decay s) (exploration_rate_min s) (save_every s)
    (batch_size s) (gamma s) (lr s) (burn_in s) (learn_every s)
    (sync_every s) (curr_step s) (memory s).

(** ** Reasoning about methods *)

(** A property of the agent and the world that a method keeps, whether it
    returns or raises. *)
Definition preserves {A} (P : Ship → world → Prop) (m : M A) : Prop :=
  ∀ s w, P s w → P (m s w).1.2 (m s w).2.

(** What [learn] does after its synchronisation step, [self] being the
    agent [learn] was called on. *)
Definition learn_after_sync (self : Ship)
  : M (option Qc * option float_value) :=
  if decide (curr_step self < burn_in self) then mret (None, None) else
  r ← lift (py_mod (curr_step self) (learn_every self));
  if decide (r ≠ 0) then mret (None, None) else
  '(state, next_state, action, reward, done) ← recall;
  self ← get;
  td_est ← lift (td_estimate self state action);
  td_tgt ← lift (td_target self reward next_state done);
  l ← update_Q_online td_est td_tgt;
  modify (set_loss l);;
  modify (set_Q (Some (mean (values td_est))));;
  self ← get;
  mret (Q self, Some (loss self)).

(** The target parameters are exactly [t]. *)
Definition target_is (t : list parameter) : Ship → world → Prop :=
  λ s _, target (net s) = t.

(** ** The states a program can reach

    An agent is constructed in a world whose disk holds no checkpoint yet,
    or in the world an earlier agent left; then its methods are called, in
    any order and with any arguments.  Other code may draw from the random
    generators or reseed them between two calls. *)
Inductive reachable : Ship → world → Prop :=
  | reach_init sd ad dir er erd erm se bs g l bi le sy w s w' :
      disk w = ∅ →
      Ship_init sd ad dir er erd erm se bs g l bi le sy w = (Ok s, w') →
      reachable s w'
  | reach_again sd ad dir er erd erm se bs g l bi le sy s0 w s w' :
      reachable s0 w →
      Ship_init sd ad dir er erd erm se bs g l bi le sy w = (Ok s, w') →
      reachable s w'
  | reach_act state s w :
      reachable s w → reachable (act state s w).1.2 (act state s w).2
  | reach_cache state next_state action reward done s w :
      reachable s w →
      reachable (cache state next_state action reward done s w).1.2
                (cache state next_state action reward done s w).2
  | reach_learn s w :
      reachable s w → reachable (learn s w).1.2 (learn s w).2
  | reach_save s w :
      reachable s w → reachable (save s w).1.2 (save s w).2
  | reach_load path s w :
      reachable s w → reachable (load path s w).1.2 (load path s w).2
  | reach_random np py th s w :
      reachable s w → reachable s (mkWorld np py th (disk w)).

(** What every reachable state satisfies. *)
Definition frozen (p : parameter) : Prop :=
  requires_grad p = false ∧ grad p = None.

Definition checkpoint_ok (c : checkpoint) : Prop :=
  maxlen (ck_memory c) = 1000%nat
  ∧ (length (items (ck_memory c)) ≤ 1000)%nat
  ∧ (0 ≤ ck_lr c)%Qc.

Record inv (s : Ship) (w : world) : Prop := mkInv {
  inv_maxlen : maxlen (memory s) = 1000%nat;
  inv_size : (length (items (memory s)) ≤ 1000)%nat;
  inv_keys : length (target (net s)) = length (online (net s));
  inv_frozen : Forall frozen (target (net s));
  inv_lr : (0 ≤ lr s)%Qc;
  inv_disk : map_Forall (λ _ c, checkpoint_ok c) (disk w);
}.

(** What else every reachable state satisfies: the step counter, here and
    in every checkpoint on the disk, is not negative, and every online
    parameter takes part in training. *)
Definition trainable (p : parameter) : Prop := requires_grad p = true.

Record inv_train (s : Ship) (w : world) : Prop := mkInvTrain {
  inv_step : 0 ≤ curr_step s;
  inv_trainable : Forall trainable (online (net s));
  inv_disk_step : map_Forall (λ _ c, 0 ≤ ck_curr_step c) (disk w);
}.

End Agent.

(** ** A small implementation of the interface

    Tensors and frames are numbers; the network multiplies its input by
    each weight, one weight per action; the optimizer is plain gradient
    descent.  It serves to run the agent on concrete inputs. *)
Definition toy : Torch := {|
  tensor := Qc;
  frame := Qc;
  sequential := λ ws x, (λ w, w * x)%Qc <$> ws;
  fresh_weights := λ c output_dim seed,
    (λ j, Q2Qc (inject_Z (Z.of_N seed + Z.of_nat j))) <$> seq 0 (Z.to_nat output_dim);
  loss_gradient := λ ws i states actions tgt, 1%Qc;
  tensor_add := Qcplus;
  moments := Qc;
  adam_rule := λ lr st p g, ((p - lr * g)%Qc, g);
|}.

Section Examples.
#[local] Existing Instance toy.

(** A world for the examples: some draws on each tape, an empty disk. *)
Definition toy_world : world :=
  mkWorld [3; 2 ^ 52; 7]%N [5; 1; 2; 9]%N [2]%N ∅.

(** A toy agent on frames of four channels with six actions, constructed
    in the world [w]; the other arguments are the defaults. *)
Definition toy_ship (w : world) (exploration_rate : Qc) (batch_size : Z)
    (lr : Qc) (burn_in learn_every sync_every : Z) : result Ship * world :=
  Ship_init (4, 84, 84) 6 "checkpoints"
    exploration_rate (Q2Qc (99999975 # 100000000)) (Q2Qc (1 # 10)) 500000
    batch_size (Q2Qc (9 # 10)) lr burn_in learn_every sync_every w.

(** The agent and the world a successful construction leaves. *)
Definition no_ship : Ship :=
  mkShip (0, 0, 0) 0 "" 0%Qc (mkShipNet [] []) 0%Qc 0%Qc 0%Qc 0 0
    (Deque 0 []) 0 None 0%Qc (Exactly 0) (mkAdam 0%Qc ∅) 0 0 0.

Definition built (r : result Ship * world) : Ship * world :=
  match r with
  | (Ok s, w) => (s, w)
  | (Raise _, w) => (no_ship, w)
  end.

(** Three experiences for the examples. *)
Definition toy_experiences : list transition :=
  [ mkTransition (Qc_of_Z 1) (Qc_of_Z 2) 0 (RFloat32 (f32_of_Z 1)) false;
    mkTransition (Qc_of_Z 2) (Qc_of_Z 3) 1 (RFloat32 (f32_of_Z 5)) true;
    mkTransition (Qc_of_Z 3) (Qc_of_Z 4) 2 (RFloat32 (f32_of_Z 0)) false ].

Definition default_lr : Qc := Q2Qc (25 # 100000).

(** The agent of the default arguments. *)
Definition toy_default : Ship * world :=
  built (Ship_init_default (4, 84, 84) 6 "checkpoints" toy_world).

(** An agent constructed with an exploration rate of 0.05, below the
    default floor of 0.1. *)
Definition toy_low_epsilon : Ship * world :=
  built (toy_ship toy_world (Q2Qc (1 # 20)) 32 default_lr 10000 3 10000).

(** An agent constructed with [sync_every = 0]. *)
Definition toy_sync_zero : Ship * world :=
  built (toy_ship toy_world 1%Qc 32 default_lr 10000 3 0).

(** An agent that learns at every step from batches of two: after three
    experiences were cached, and after one action was chosen then. *)
Definition toy_learner_cached : result () * Ship * world :=
  let start := built (toy_ship toy_world 1%Qc 2 default_lr 0 1 10000) in
  cache_all toy_experiences start.1 start.2.

Definition toy_learner_acted : result (Z * list (list Qc)) * Ship * world :=
  act (Qc_of_Z 4) toy_learner_cached.1.2 toy_learner_cached.2.

(** An agent constructed with [batch_size = 0], after three experiences
    were cached. *)
Definition toy_batch_zero_cached : result () * Ship * world :=
  let start := built (toy_ship toy_world 1%Qc 0 default_lr 0 1 10000) in
  cache_all toy_experiences start.1 start.2.

(** An agent constructed with a learning rate of 0.001 that saves itself,
    and an agent constructed afterwards with the default learning rate
    that loads the file. *)
Definition toy_saver : Ship * world :=
  built (toy_ship toy_world 1%Qc 32 (Q2Qc (1 # 1000)) 10000 3 10000).

Definition toy_saved : result string * Ship * world :=
  save toy_saver.1 toy_saver.2.

Definition toy_loader : Ship * world :=
  built (toy_ship toy_saved.2 1%Qc 32 default_lr 10000 3 10000).

Definition toy_loaded : result () * Ship * world :=
  load (checkpoint_path toy_saver.1) toy_loader.1 toy_loader.2.

(** An agent constructed with an exploration rate of 0: it never
    explores. *)
Definition toy_greedy : Ship * world :=
  built (toy_ship toy_world 0%Qc 32 default_lr 10000 3 10000).

(** The learner before any experience was cached. *)
Definition toy_learner_empty : Ship * world :=
  built (toy_ship toy_world 1%Qc 2 default_lr 0 1 10000).

(** An agent that learns from batches of one, with one experience in its
    buffer: the last of an episode, with the integer 16777217 as reward. *)
Definition toy_big_reward_cached : result () * Ship * world :=
  let start := built (toy_ship toy_world 1%Qc 1 default_lr 0 1 10000) in
  cache (Qc_of_Z 1) (Qc_of_Z 2) 0 (RInt64 16777217) true start.1 start.2.

(** The same with a reward of 1.0 and a network whose weights, and so its
    outputs, are beyond the range of float32. *)
Definition toy_huge_world : world :=
  mkWorld [3; 2 ^ 52; 7]%N [5; 1; 2; 9]%N [2 ^ 130]%N ∅.

Definition toy_huge_cached : result () * Ship * world :=
  let start := built (toy_ship toy_huge_world 1%Qc 1 default_lr 0 1 10000) in
  cache (Qc_of_Z 1) (Qc_of_Z 2) 0 (RFloat32 (f32_of_Z 1)) true
    start.1 start.2.

(** An agent that learns at every step from batches of two and
    synchronises at every second step: after three experiences were
    cached, after its first action, after it learned at step 1, and after
    its second action. *)
Definition toy_syncer_cached : result () * Ship * world :=
  let start := built (toy_ship toy_world 1%Qc 2 default_lr 0 1 2) in
  cache_all toy_experiences start.1 start.2.

Definition toy_syncer_acted : result (Z * list (list Qc)) * Ship * world :=
  act (Qc_of_Z 4) toy_syncer_cached.1.2 toy_syncer_cached.2.

Definition toy_syncer_learned
  : result (option Qc * option float_value) * Ship * world :=
  learn toy_syncer_acted.1.2 toy_syncer_acted.2.

Definition toy_syncer_acted_again
  : result (Z * list (list Qc)) * Ship * world :=
  act (Qc_of_Z 5) toy_syncer_learned.1.2 toy_syncer_learned.2.

End Examples.

(** * Properties *)

(** Runs the monad of the methods one step. *)
Ltac run :=
  unfold mbind, M_bind, mret, M_ret, get, modify, lift,
    with_np_random, with_py_random;
  cbn.

(** ** Python arithmetic *)

Lemma py_max_ge_l a b : (a ≤ py_max a b)%Qc.
Proof.
  unfold py_max. destruct (decide (a < b)%Qc).
  - by apply Qclt_le_weak.
  - apply Qcle_refl.
Qed.

Lemma py_max_ge_r a b : (b ≤ py_max a b)%Qc.
Proof.
  unfold py_max. destruct (decide (a < b)%Qc).
  - apply Qcle_refl.
  - by apply Qcnot_lt_le.
Qed.

Lemma py_max_cases a b : py_max a b = a ∨ py_max a b = b.
Proof. unfold py_max. destruct (decide (a < b)%Qc); auto. Qed.

Lemma py_max_lub a b c : (a ≤ c)%Qc → (b ≤ c)%Qc → (py_max a b ≤ c)%Qc.
Proof. intros. by destruct (py_max_cases a b) as [-> | ->]. Qed.

Lemma py_mod_Ok a b r : py_mod a b = Ok r ↔ b ≠ 0 ∧ r = a `mod` b.
Proof.
  unfold py_mod. destruct (decide (b = 0)); split.
  - discriminate.
  - intros [? _]. done.
  - intros [= <-]. done.
  - intros [_ ->]. done.
Qed.

(** Python's [%] takes the sign of the divisor; a zero divisor raises. *)
Example py_mod_negative : py_mod (-1) 3 = Ok 2.
Proof. reflexivity. Qed.

Example py_mod_by_zero : py_mod 5 0 = Raise ZeroDivisionError.
Proof. reflexivity. Qed.

Example py_index_from_the_end : py_index [10; 20; 30] (-1) = Ok 30.
Proof. reflexivity. Qed.

Example py_index_out_of_range : py_index [10; 20; 30] 3 = Raise IndexError.
Proof. reflexivity. Qed.

Lemma np_random_rand_tape t : (np_random_rand t).2 = tail t.
Proof. reflexivity. Qed.

Lemma np_random_randint_range high t a t' :
  np_random_randint high t = (Ok a, t') →
  0 ≤ a < high ∧ a = Z.of_N (hd 0%N t) `mod` high ∧ t' = tail t.
Proof.
  unfold np_random_randint. destruct (decide (high ≤ 0)); [discriminate|].
  cbn. intros [= <- <-]. split; [|done]. apply Z.mod_pos_bound. lia.
Qed.

Lemma np_random_randint_raise high t e t' :
  np_random_randint high t = (Raise e, t') →
  high ≤ 0 ∧ e = ValueError HighNotPositive ∧ t' = t.
Proof.
  unfold np_random_randint. destruct (decide (high ≤ 0)); [|discriminate].
  by intros [= <- <-].
Qed.

(** ** Loops that may raise *)

Lemma mapR_Forall2 {A B} (f : A → result B) xs ys :
  mapR f xs = Ok ys ↔ Forall2 (λ x y, f x = Ok y) xs ys.
Proof.
  revert ys. induction xs as [|x xs IH]; intros ys; cbn.
  - split.
    + intros [= <-]. constructor.
    + intros Hnil. by inversion Hnil.
  - destruct (f x) as [y|e] eqn:Hfx; cbn.
    + destruct (mapR f xs) as [ys'|e] eqn:Hxs; cbn.
      * split.
        -- intros [= <-]. constructor; [done|]. by apply IH.
        -- intros Hc. inversion Hc as [|? y' ? ys'' Hy Hys]; subst.
           apply IH in Hys. congruence.
      * split; [discriminate|].
        intros Hc. inversion Hc as [|? y' ? ys'' Hy Hys]; subst.
        apply IH in Hys. discriminate.
    + split; [discriminate|].
      intros Hc. inversion Hc; subst. congruence.
Qed.

Lemma mapR_length {A B} (f : A → result B) xs ys :
  mapR f xs = Ok ys → length ys = length xs.
Proof.
  intros Hm. apply mapR_Forall2 in Hm. symmetry.
  by eapply Forall2_length.
Qed.

Lemma mapR_lookup {A B} (f : A → result B) xs ys i x :
  mapR f xs = Ok ys → xs !! i = Some x → ∃ y, ys !! i = Some y ∧ f x = Ok y.
Proof.
  intros Hm Hx. apply mapR_Forall2 in Hm.
  destruct (Forall2_lookup_l _ _ _ _ _ Hm Hx) as (y & ? & ?). eauto.
Qed.

Lemma mapR_is_Ok {A B} (f : A → result B) xs :
  (∀ x, x ∈ xs → is_Ok (f x)) → is_Ok (mapR f xs).
Proof.
  induction xs as [|x xs IH]; intros Hf; cbn.
  - by eexists.
  - destruct (Hf x) as [y ->]; [left|]. cbn.
    destruct IH as [ys ->].
    + intros x' Hx'. apply Hf. by right.
    + cbn. by eexists.
Qed.

Lemma mapR_pure {A B} (g : A → B) xs : mapR (λ x, Ok (g x)) xs = Ok (g <$> xs).
Proof. induction xs as [|x xs IH]; cbn; [done|]. by rewrite IH. Qed.

Lemma broadcast2_same_length {A B C} (f : A → B → result C) e xs ys :
  length xs = length ys →
  broadcast2 f e xs ys = mapR (λ p, f p.1 p.2) (zip xs ys).
Proof. intros Hlen. unfold broadcast2. by destruct (decide _). Qed.

(** ** Indexing and [argmax] *)

Lemma py_index_nat {A} (l : list A) (i : nat) x :
  l !! i = Some x → py_index l (Z.of_nat i) = Ok x.
Proof.
  intros Hx. unfold py_index. pose proof (lookup_lt_Some _ _ _ Hx).
  destruct (decide (Z.of_nat i < 0)); [lia|].
  destruct (decide _); [|lia]. by rewrite Nat2Z.id, Hx.
Qed.

Lemma argmax_from_spec row best besti i :
  (besti < i)%nat →
  let b := argmax_from best besti i row in
  (b = besti ∨ (i ≤ b < i + length row)%nat)
  ∧ ∃ q, (b = besti ∧ q = best ∨ row !! (b - i)%nat = Some q ∧ (i ≤ b)%nat)
      ∧ (best ≤ q)%Qc
      ∧ (∀ j v, row !! j = Some v → (v ≤ q)%Qc)
      ∧ (∀ j v, row !! j = Some v → (i + j < b)%nat → (v < q)%Qc)
      ∧ ((i ≤ b)%nat → (best < q)%Qc).
Proof.
  revert best besti i. induction row as [|v row IH]; intros best besti i Hlt; cbn.
  - split; [by left|]. exists best.
    split_and!; [by left|apply Qcle_refl|done|done|lia].
  - destruct (decide (best < v)%Qc) as [Hbv|Hbv].
    + destruct (IH v i (S i) ltac:(lia)) as (Hrange & q & Hq & Hvq & Hmax & Hfirst & Hstrict).
      split; [right; lia|]. exists q. split_and!.
      * right. destruct Hq as [[-> ->]|[Hq ?]].
        -- by rewrite Nat.sub_diag.
        -- split; [|lia]. replace (argmax_from v i (S i) row - i)%nat
             with (S (argmax_from v i (S i) row - S i)) by lia. done.
      * eapply Qcle_trans; [by apply Qclt_le_weak|done].
      * intros [|j] v' Hv'; cbn in Hv'; [by injection Hv' as <-|by eapply Hmax].
      * intros [|j] v' Hv' Hj; cbn in Hv'.
        -- injection Hv' as <-. destruct Hq as [[Hb _]|[_ ?]]; [lia|].
           apply Hstrict. lia.
        -- eapply Hfirst; [done|lia].
      * intros _. by eapply Qclt_le_trans.
    + destruct (IH best besti (S i) ltac:(lia)) as (Hrange & q & Hq & Hbq & Hmax & Hfirst & Hstrict).
      split; [destruct Hrange; [by left|right; lia]|]. exists q. split_and!.
      * destruct Hq as [[-> ->]|[Hq ?]]; [by left|right].
        split; [|lia]. replace (argmax_from best besti (S i) row - i)%nat
             with (S (argmax_from best besti (S i) row - S i)) by lia. done.
      * done.
      * intros [|j] v' Hv'; cbn in Hv'; [|by eapply Hmax].
        injection Hv' as <-. eapply Qcle_trans; [by apply Qcnot_lt_le|done].
      * intros [|j] v' Hv' Hj; cbn in Hv'.
        -- injection Hv' as <-. eapply Qcle_lt_trans; [by apply Qcnot_lt_le|].
           apply Hstrict. destruct Hrange; lia.
        -- eapply Hfirst; [done|lia].
      * intros Hi. apply Hstrict. destruct Hrange; lia.
Qed.

(** [argmax] returns the first index of a maximal entry. *)
Lemma argmax_spec row b :
  argmax row = Ok b →
  ∃ q, row !! b = Some q
    ∧ (∀ j v, row !! j = Some v → (v ≤ q)%Qc)
    ∧ (∀ j v, row !! j = Some v → (j < b)%nat → (v < q)%Qc).
Proof.
  unfold argmax. destruct row as [|q0 row]; [discriminate|]. intros [= <-].
  destruct (argmax_from_spec row q0 0%nat 1%nat ltac:(lia))
    as (Hrange & q & Hq & Hq0 & Hmax & Hfirst & Hstrict).
  exists q. split_and!.
  - destruct Hq as [[-> ->]|[Hq ?]]; [done|].
    replace (argmax_from q0 0 1 row) with (S (argmax_from q0 0 1 row - 1)) by lia.
    done.
  - intros [|j] v Hv; cbn in Hv; [by injection Hv as <-|by eapply Hmax].
  - intros [|j] v Hv Hj; cbn in Hv.
    + injection Hv as <-. apply Hstrict. lia.
    + eapply Hfirst; [done|lia].
Qed.

Lemma argmax_is_Ok row : row ≠ [] → is_Ok (argmax row).
Proof. destruct row; [done|]. intros _. by eexists. Qed.

Example argmax_first_of_ties :
  argmax [Qc_of_Z 1; Qc_of_Z 3; Qc_of_Z 3] = Ok 1%nat.
Proof. reflexivity. Qed.

Example argmax_of_nothing : argmax [] = Raise IndexError.
Proof. reflexivity. Qed.

(** ** The bounded deque *)

Lemma deque_append_maxlen {A} (d : deque A) x :
  maxlen (deque_append d x) = maxlen d.
Proof. unfold deque_append. by repeat case_decide. Qed.

Lemma deque_append_items {A} (d : deque A) x :
  maxlen d ≠ 0%nat → (length (items d) ≤ maxlen d)%nat →
  items (deque_append d x)
  = drop (length (items d) + 1 - maxlen d) (items d ++ [x]).
Proof.
  intros Hmax Hlen. unfold deque_append.
  destruct (decide (maxlen d = 0%nat)); [done|].
  destruct (decide (length (items d) < maxlen d)%nat); cbn.
  - by replace (length (items d) + 1 - maxlen d)%nat with 0%nat by lia.
  - replace (length (items d) + 1 - maxlen d)%nat with 1%nat by lia.
    destruct (items d); [cbn in *; lia|done].
Qed.

Lemma deque_append_size {A} (d : deque A) x :
  (length (items d) ≤ maxlen d)%nat →
  (length (items (deque_append d x)) ≤ maxlen d)%nat.
Proof.
  intros Hlen. unfold deque_append. repeat case_decide; cbn; [done|..].
  - rewrite length_app. cbn. lia.
  - rewrite length_app, length_drop. cbn. lia.
Qed.

(** Appending a list of items keeps the most recent [maxlen] of them. *)
Lemma deque_extend_items {A} (d : deque A) xs :
  maxlen d ≠ 0%nat → (length (items d) ≤ maxlen d)%nat →
  items (foldl deque_append d xs)
  = drop (length (items d ++ xs) - maxlen d) (items d ++ xs)
  ∧ maxlen (foldl deque_append d xs) = maxlen d.
Proof.
  revert d. induction xs as [|x xs IH]; intros d Hmax Hlen; cbn.
  - rewrite app_nil_r.
    by replace (length (items d) - maxlen d)%nat with 0%nat by lia.
  - pose proof (deque_append_maxlen d x) as Hm.
    pose proof (deque_append_size d x Hlen) as Hs.
    destruct (IH (deque_append d x)) as [-> ->]; [congruence|lia|].
    split; [|done]. rewrite Hm, (deque_append_items d x) by done.
    set (k := (length (items d) + 1 - maxlen d)%nat).
    assert (drop k (items d ++ [x]) ++ xs = drop k (items d ++ x :: xs)) as ->.
    { replace (items d ++ x :: xs) with ((items d ++ [x]) ++ xs)
        by (by rewrite <- app_assoc).
      symmetry. apply drop_app_le. rewrite length_app. cbn. lia. }
    rewrite drop_drop. f_equal.
    rewrite length_drop, !length_app. cbn. lia.
Qed.

Example deque_drops_oldest :
  foldl deque_append (Deque 2 []) [1; 2; 3] = Deque 2 [2; 3].
Proof. reflexivity. Qed.

(** ** Sampling without replacement *)

Lemma sample_pool_length {A} (pool : list A) live k t :
  (k ≤ live ≤ length pool)%nat →
  length (sample_pool pool live k t).1 = k.
Proof.
  revert pool live t. induction k as [|k IH]; intros pool live t Hk; [done|].
  cbn. set (j := N.to_nat (hd 0%N t `mod` N.of_nat live)).
  assert (j < live)%nat as Hj.
  { unfold j. pose proof (N.mod_upper_bound (hd 0%N t) (N.of_nat live)). lia. }
  destruct (lookup_lt_is_Some_2 pool j) as [x ->]; [lia|].
  destruct (lookup_lt_is_Some_2 pool (live - 1)) as [y ->]; [lia|].
  specialize (IH (<[j:=y]> pool) (live - 1)%nat (tail t)).
  destruct (sample_pool _ _ _ _) as [rest t'']. cbn in *.
  rewrite IH; [done|]. rewrite length_insert. lia.
Qed.

Lemma sample_pool_tape {A B} (pool : list A) (pool' : list B) live k t :
  length pool = length pool' → (k ≤ live ≤ length pool)%nat →
  (sample_pool pool live k t).2 = (sample_pool pool' live k t).2.
Proof.
  revert pool pool' live t.
  induction k as [|k IH]; intros pool pool' live t Hlen Hk; [done|].
  cbn. set (j := N.to_nat (hd 0%N t `mod` N.of_nat live)).
  assert (j < live)%nat as Hj.
  { unfold j. pose proof (N.mod_upper_bound (hd 0%N t) (N.of_nat live)). lia. }
  destruct (lookup_lt_is_Some_2 pool j) as [x ->]; [lia|].
  destruct (lookup_lt_is_Some_2 pool (live - 1)) as [y ->]; [lia|].
  destruct (lookup_lt_is_Some_2 pool' j) as [x' ->]; [lia|].
  destruct (lookup_lt_is_Some_2 pool' (live - 1)) as [y' ->]; [lia|].
  specialize (IH (<[j:=y]> pool) (<[j:=y']> pool') (live - 1)%nat (tail t)).
  destruct (sample_pool (<[j:=y]> pool) _ _ _) as [rest t1].
  destruct (sample_pool (<[j:=y']> pool') _ _ _) as [rest' t1']. cbn in *.
  apply IH; rewrite !length_insert; lia.
Qed.

(** Sampling commutes with a function applied to the population. *)
Lemma sample_pool_fmap {A B} (f : A → B) (pool : list A) live k t :
  (sample_pool (f <$> pool) live k t).1 = f <$> (sample_pool pool live k t).1.
Proof.
  revert pool live t. induction k as [|k IH]; intros pool live t; [done|].
  cbn. rewrite !list_lookup_fmap.
  destruct (pool !! _) as [x|]; cbn; [|done].
  destruct (pool !! _) as [y|]; cbn; [|done].
  specialize (IH (<[N.to_nat (hd 0%N t `mod` N.of_nat live):=y]> pool)
                (live - 1)%nat (tail t)).
  rewrite list_fmap_insert in IH.
  destruct (sample_pool (<[_:=f y]> (f <$> pool)) _ _ _) as [rest t1].
  destruct (sample_pool (<[_:=y]> pool) _ _ _) as [rest' t1']. cbn in *.
  by rewrite IH.
Qed.

(** From a pool whose live entries are pairwise different, the picks are
    pairwise different live entries. *)
Lemma sample_pool_NoDup {A} (pool : list A) live k t :
  (k ≤ live ≤ length pool)%nat →
  (∀ i1 i2 x, (i1 < live)%nat → (i2 < live)%nat →
     pool !! i1 = Some x → pool !! i2 = Some x → i1 = i2) →
  NoDup (sample_pool pool live k t).1
  ∧ ∀ x, x ∈ (sample_pool pool live k t).1 →
      ∃ i, (i < live)%nat ∧ pool !! i = Some x.
Proof.
  revert pool live t.
  induction k as [|k IH]; intros pool live t Hk Hinj; cbn.
  { split; [constructor|]. intros x Hx. by apply elem_of_nil in Hx. }
  set (j := N.to_nat (hd 0%N t `mod` N.of_nat live)).
  assert (j < live)%nat as Hj.
  { unfold j. pose proof (N.mod_upper_bound (hd 0%N t) (N.of_nat live)). lia. }
  destruct (lookup_lt_is_Some_2 pool j) as [x Hx]; [lia|].
  destruct (lookup_lt_is_Some_2 pool (live - 1)) as [y Hy]; [lia|].
  rewrite Hx, Hy.
  assert (∀ i, (i < live - 1)%nat →
            <[j:=y]> pool !! i = if decide (i = j) then Some y else pool !! i)
    as Hpool'.
  { intros i Hi. destruct (decide (i = j)) as [->|Hne].
    - apply list_lookup_insert_eq. lia.
    - by apply list_lookup_insert_ne. }
  destruct (IH (<[j:=y]> pool) (live - 1)%nat (tail t)) as [Hnodup Hmem].
  { rewrite length_insert. lia. }
  { intros i1 i2 z Hi1 Hi2. rewrite !Hpool' by done.
    destruct (decide (i1 = j)) as [->|], (decide (i2 = j)) as [->|];
      intros H1 H2; try done.
    - injection H1 as <-.
      pose proof (Hinj (live - 1)%nat i2 y ltac:(lia) ltac:(lia) Hy H2). lia.
    - injection H2 as <-.
      pose proof (Hinj (live - 1)%nat i1 y ltac:(lia) ltac:(lia) Hy H1). lia.
    - apply (Hinj i1 i2 z); [lia|lia|done|done]. }
  destruct (sample_pool (<[j:=y]> pool) _ _ _) as [rest t1]. cbn in *.
  split.
  - constructor; [|done]. intros Hin.
    destruct (Hmem x Hin) as (i & Hi & Hix). rewrite Hpool' in Hix by done.
    destruct (decide (i = j)) as [->|Hne].
    + injection Hix as <-.
      pose proof (Hinj (live - 1)%nat j y ltac:(lia) ltac:(lia) Hy Hx). lia.
    + pose proof (Hinj i j x ltac:(lia) ltac:(lia) Hix Hx). lia.
  - intros z Hz. apply elem_of_cons in Hz as [->|Hz]; [eauto|].
    destruct (Hmem z Hz) as (i & Hi & Hiz). rewrite Hpool' in Hiz by done.
    destruct (decide (i = j)).
    + injection Hiz as <-. exists (live - 1)%nat. split; [lia|done].
    + exists i. split; [lia|done].
Qed.

(** [random.sample] raises when asked for more than the population holds
    (or for a negative number) and draws nothing; otherwise it returns [k]
    items taken at pairwise different positions of the population. *)
Lemma random_sample_spec {A} (population : list A) (k : Z) t :
  (¬ (0 ≤ k ≤ Z.of_nat (length population)) →
     random_sample population k t
     = (Raise (ValueError SampleLargerThanPopulation), t))
  ∧ (0 ≤ k ≤ Z.of_nat (length population) →
     ∃ idxs picked t',
       random_sample population k t = (Ok picked, t')
       ∧ length idxs = Z.to_nat k
       ∧ NoDup idxs
       ∧ Forall2 (λ i x, population !! i = Some x) idxs picked).
Proof.
  unfold random_sample. split; intros Hk.
  - by destruct (decide _).
  - destruct (decide _); [|done].
    set (n := length population). set (kn := Z.to_nat k).
    assert (kn ≤ n ≤ length population)%nat as Hkn by (unfold kn, n; lia).
    set (pairs := zip (seq 0 n) population).
    assert (length (seq 0 n) = length population) as Hseq
      by (by rewrite length_seq).
    assert (population = snd <$> pairs) as Hsnd.
    { unfold pairs. rewrite snd_zip; [done|]. lia. }
    assert (∀ i p, pairs !! i = Some p → p.1 = i ∧ population !! i = Some p.2)
      as Hpairs.
    { intros i [i' x] Hp. unfold pairs in Hp.
      apply lookup_zip_with_Some in Hp as (i0 & x0 & [= <- <-] & Hi0 & Hx0).
      apply lookup_seq in Hi0 as [-> _]. done. }
    assert (length pairs = n) as Hplen.
    { unfold pairs. rewrite length_zip_with, length_seq. unfold n. lia. }
    destruct (sample_pool_NoDup pairs n kn t) as [Hnodup Hmem]; [lia|..].
    { intros i1 i2 p _ _ H1 H2.
      apply Hpairs in H1 as [<- _]. by apply Hpairs in H2 as [<- _]. }
    pose proof (sample_pool_length pairs n kn t ltac:(lia)) as Hlen.
    pose proof (sample_pool_fmap snd pairs n kn t) as Hfmap.
    rewrite <- Hsnd in Hfmap.
    destruct (sample_pool population n kn t) as [picked t'] eqn:Hsample.
    cbn in Hfmap. subst picked.
    exists ((sample_pool pairs n kn t).1.*1), ((sample_pool pairs n kn t).1.*2), t'.
    split_and!; [done|by rewrite length_fmap|..].
    + apply NoDup_fmap_2_strong; [|done].
      intros p1 p2 Hp1 Hp2 Heq.
      destruct (Hmem _ Hp1) as (i1 & _ & Hi1), (Hmem _ Hp2) as (i2 & _ & Hi2).
      apply Hpairs in Hi1 as [? Hx1]. apply Hpairs in Hi2 as [? Hx2].
      destruct p1, p2; cbn in *. simplify_eq. done.
    + apply Forall2_fmap, Forall_Forall2_diag, Forall_forall.
      intros p Hp. destruct (Hmem _ Hp) as (i & _ & Hi).
      apply Hpairs in Hi as [<- ?]. done.
Qed.

Example sample_two_of_three :
  random_sample ["a"; "b"; "c"] 2 [5; 1; 7]%N = (Ok ["c"; "b"], [7%N]).
Proof. reflexivity. Qed.

Example sample_too_many :
  random_sample ["a"; "b"; "c"] 4 [5; 1; 7]%N
  = (Raise (ValueError SampleLargerThanPopulation), [5; 1; 7]%N).
Proof. reflexivity. Qed.

(** ** Gathering by row and column *)

Lemma lookup_zip_Some {A B} (xs : list A) (ys : list B) i x y :
  xs !! i = Some x → ys !! i = Some y → zip xs ys !! i = Some (x, y).
Proof.
  intros Hx Hy. apply lookup_zip_with_Some. by exists x, y.
Qed.

Lemma arange_length n : length (arange n) = Z.to_nat n.
Proof. unfold arange. by rewrite length_fmap, length_seq. Qed.

Lemma arange_lookup n i :
  (i < Z.to_nat n)%nat → arange n !! i = Some (Z.of_nat i).
Proof.
  intros Hi. unfold arange. rewrite list_lookup_fmap, lookup_seq_lt by done.
  done.
Qed.

(** With one column per row of the batch, [values[arange, cols]] is the
    entry of each row at its column. *)
Lemma gather_arange (values : list (list Qc)) (cols : list Z) (n : Z) :
  length values = Z.to_nat n → length cols = Z.to_nat n →
  (∀ i row c, values !! i = Some row → cols !! i = Some c →
     is_Ok (py_index row c)) →
  ∃ out, gather values (arange n) cols = Ok out
    ∧ length out = Z.to_nat n
    ∧ ∀ i row c, values !! i = Some row → cols !! i = Some c →
        ∃ q, out !! i = Some q ∧ py_index row c = Ok q.
Proof.
  intros Hvalues Hcols Hok. unfold gather.
  rewrite broadcast2_same_length by (by rewrite arange_length).
  assert (∀ i r c, zip (arange n) cols !! i = Some (r, c) →
            r = Z.of_nat i ∧ cols !! i = Some c ∧ is_Some (values !! i))
    as Hzip.
  { intros i r c Hrc.
    apply lookup_zip_with_Some in Hrc as (r' & c' & [= <- <-] & Hr & Hc).
    pose proof (lookup_lt_Some _ _ _ Hc) as Hi.
    rewrite arange_lookup in Hr by lia. injection Hr as <-.
    split_and!; [done..|]. apply lookup_lt_is_Some. lia. }
  destruct (mapR_is_Ok
    (λ p : Z * Z, row ← py_index values p.1; py_index row p.2)
    (zip (arange n) cols)) as [out Hout].
  { intros [r c] Hin. apply list_elem_of_lookup in Hin as [i Hi].
    apply Hzip in Hi as (-> & Hc & [row Hrow]). cbn.
    rewrite (py_index_nat _ _ _ Hrow). cbn. by eapply Hok. }
  exists out. split_and!; [done|..].
  - apply mapR_length in Hout. rewrite Hout, length_zip_with, arange_length. lia.
  - intros i row c Hrow Hc.
    pose proof (lookup_lt_Some _ _ _ Hc) as Hi.
    destruct (mapR_lookup _ _ _ i (Z.of_nat i, c) Hout) as (q & Hq & Hpq).
    { apply lookup_zip_Some; [|done]. apply arange_lookup. lia. }
    cbn in Hpq. rewrite (py_index_nat _ _ _ Hrow) in Hpq. eauto.
Qed.

(** ** Further facts about the library *)

(** A loop whose body raises only [e] raises [e] as soon as one step
    raises. *)
Lemma mapR_Raise {A B} (f : A → result B) xs e x :
  (∀ x' e', f x' = Raise e' → e' = e) →
  x ∈ xs → f x = Raise e → mapR f xs = Raise e.
Proof.
  intros Honly Hin Hx.
  induction xs as [|x0 xs IH]; [by apply elem_of_nil in Hin|].
  change (mapR f (x0 :: xs)) with (y ← f x0; ys ← mapR f xs; Ok (y :: ys)).
  destruct (f x0) as [y|e0] eqn:Hx0.
  - apply elem_of_cons in Hin as [->|Hin]; [congruence|].
    by rewrite IH.
  - by rewrite (Honly _ _ Hx0).
Qed.

Lemma py_index_Raise {A} (l : list A) i e : py_index l i = Raise e → e = IndexError.
Proof.
  unfold py_index. repeat case_decide; try destruct (l !! _); congruence.
Qed.

Lemma py_index_Ok {A} (l : list A) i x :
  py_index l i = Ok x ↔
  - Z.of_nat (length l) ≤ i < Z.of_nat (length l)
  ∧ l !! Z.to_nat (if decide (i < 0) then i + Z.of_nat (length l) else i)
    = Some x.
Proof.
  unfold py_index.
  set (j := if decide (i < 0) then i + Z.of_nat (length l) else i).
  assert (0 ≤ j < Z.of_nat (length l)
          ↔ - Z.of_nat (length l) ≤ i < Z.of_nat (length l)) as Hj
    by (unfold j; case_decide; lia).
  destruct (decide (0 ≤ j < Z.of_nat (length l))) as [Hr|Hr].
  - destruct (l !! Z.to_nat j) as [y|] eqn:Hl.
    + split; [intros [= ->]; split; [by apply Hj|done]|by intros [_ [= ->]]].
    + apply lookup_ge_None in Hl. lia.
  - split; [done|]. intros [Hi _]. by apply Hj in Hi.
Qed.

(** ** Powers of the decay *)

Lemma Qcpower_le_1 (d : Qc) n : (0 ≤ d)%Qc → (d ≤ 1)%Qc → (d ^ n ≤ 1)%Qc.
Proof.
  intros Hd0 Hd1. induction n as [|n IH]; cbn; [apply Qcle_refl|].
  eapply Qcle_trans; [apply Qcmult_le_mono_nonneg_l; [done|exact IH]|].
  by rewrite Qcmult_1_r.
Qed.

(** Clamping at the floor before a further decay changes nothing. *)
Lemma py_max_decay (m x d : Qc) :
  (0 ≤ m)%Qc → (0 ≤ d)%Qc → (d ≤ 1)%Qc →
  py_max m (py_max m x * d) = py_max m (x * d).
Proof.
  intros Hm Hd0 Hd1. unfold py_max at 2.
  destruct (decide (m < x)%Qc) as [Hlt|Hge]; [done|].
  apply Qcnot_lt_le in Hge.
  assert (m * d ≤ m)%Qc as Hmd.
  { rewrite <- (Qcmult_1_r m) at 2. by apply Qcmult_le_mono_nonneg_l. }
  assert (x * d ≤ m)%Qc as Hxd.
  { eapply Qcle_trans; [|exact Hmd]. by apply Qcmult_le_mono_nonneg_r. }
  unfold py_max.
  destruct (decide (m < m * d)%Qc) as [Hc|_]; [by apply Qclt_not_le in Hc|].
  destruct (decide (m < x * d)%Qc) as [Hc|_]; [by apply Qclt_not_le in Hc|].
  done.
Qed.

(** ** The smooth L1 loss *)

Lemma Qcabs_nonneg x : (0 ≤ Qcabs x)%Qc.
Proof.
  unfold Qcabs. destruct (decide (x < 0)%Qc) as [Hx|Hx].
  - apply Qclt_le_weak, Qcopp_le_compat in Hx.
    by replace (- 0)%Qc with 0%Qc in Hx by (by apply Qc_is_canon).
  - by apply Qcnot_lt_le.
Qed.

Lemma smooth_l1_nonneg x y : (0 ≤ smooth_l1 x y)%Qc.
Proof.
  unfold smooth_l1. pose proof (Qcabs_nonneg (x - y)) as Hd.
  set (d := Qcabs (x - y)) in *.
  assert (0 ≤ Q2Qc (1 # 2))%Qc as Hhalf by done.
  destruct (decide (d < 1)%Qc) as [Hlt|Hge].
  - rewrite <- (Qcmult_0_l d). apply Qcmult_le_mono_nonneg_r; [done|].
    rewrite <- (Qcmult_0_l d). by apply Qcmult_le_mono_nonneg_r.
  - apply Qcnot_lt_le in Hge.
    apply (proj1 (Qcle_minus_iff (Q2Qc (1 # 2)) d)).
    by eapply Qcle_trans; [|exact Hge].
Qed.

Lemma smooth_l1_diag x : smooth_l1 x x = 0%Qc.
Proof.
  unfold smooth_l1. replace (x - x)%Qc with 0%Qc by ring.
  unfold Qcabs. destruct (decide (0 < 0)%Qc) as [Hc|_]; [done|].
  destruct (decide (0 < 1)%Qc) as [_|Hc]; [ring|done].
Qed.

Lemma sumQc_nonneg l : Forall (λ x, 0 ≤ x)%Qc l → (0 ≤ sumQc l)%Qc.
Proof.
  induction 1 as [|x l Hx _ IH]; cbn; [done|].
  replace 0%Qc with (0 + 0)%Qc by ring.
  eapply Qcle_trans; [apply Qcplus_le_mono_r, Hx|].
  apply Qcplus_le_mono_l, IH.
Qed.

Lemma Qcinv_nonneg x : (0 ≤ x)%Qc → (0 ≤ / x)%Qc.
Proof.
  intros Hx. apply Qcle_lt_or_eq in Hx as [Hx| <-].
  - by apply Qclt_le_weak, Qcinv_pos.
  - done.
Qed.

Lemma mean_nonneg l : Forall (λ x, 0 ≤ x)%Qc l → (0 ≤ mean l)%Qc.
Proof.
  intros Hl. unfold mean, Qcdiv.
  rewrite <- (Qcmult_0_l (/ Q2Qc (inject_Z (Z.of_nat (length l))))).
  apply Qcmult_le_mono_nonneg_r; [|by apply sumQc_nonneg].
  apply Qcinv_nonneg.
  change (0 <= Qred (inject_Z (Z.of_nat (length l))))%Q.
  rewrite Qred_correct. unfold Qle. cbn. lia.
Qed.

Lemma value_add_nonneg a b :
  value_nonneg a → value_nonneg b → value_nonneg (value_add a b).
Proof.
  destruct a as [x|s|], b as [y|s'|]; cbn; try done.
  - intros Hx Hy. replace 0%Qc with (0 + 0)%Qc by ring.
    eapply Qcle_trans; [apply Qcplus_le_mono_r, Hx|].
    by apply Qcplus_le_mono_l.
  - by intros -> ->.
Qed.

Lemma mean_value_nonneg l : Forall value_nonneg l → value_nonneg (mean_value l).
Proof.
  intros Hl. unfold mean_value. destruct l as [|v l]; [done|].
  assert (value_nonneg (foldr value_add (Exactly 0) (v :: l))) as Hsum.
  { induction Hl as [|v' l' Hv _ IH]; [done|]. by apply value_add_nonneg. }
  destruct (foldr value_add (Exactly 0) (v :: l)) as [q|s|]; [|done..].
  cbn in Hsum |- *. unfold Qcdiv.
  rewrite <- (Qcmult_0_l (/ Q2Qc (inject_Z (Z.of_nat (length (v :: l)))))).
  apply Qcmult_le_mono_nonneg_r; [|done].
  apply Qcinv_nonneg.
  change (0 <= Qred (inject_Z (Z.of_nat (length (v :: l)))))%Q.
  rewrite Qred_correct. unfold Qle. cbn. lia.
Qed.

Lemma smooth_l1_float_nonneg x y : value_nonneg (smooth_l1_float x y).
Proof.
  unfold smooth_l1_float. destruct (value_of y) as [q|s|]; [|done..].
  apply smooth_l1_nonneg.
Qed.

(** The loss of two tensors of one length: the mean of the elementwise
    losses, never negative. *)
Lemma loss_fn_same_length input target :
  length input = length target →
  loss_fn input target = Ok (mean_value (zip_with smooth_l1_float input target))
  ∧ value_nonneg (mean_value (zip_with smooth_l1_float input target)).
Proof.
  intros Hlen. unfold loss_fn. rewrite broadcast2_same_length by done.
  rewrite (mapR_pure (λ p : Qc * f32, smooth_l1_float p.1 p.2)).
  assert ((λ p : Qc * f32, smooth_l1_float p.1 p.2) <$> zip input target
          = zip_with smooth_l1_float input target) as ->.
  { clear Hlen. revert target.
    induction input as [|x input IH]; intros [|y target]; cbn; [done..|].
    by rewrite <- IH. }
  split; [done|]. apply mean_value_nonneg.
  clear Hlen. revert target.
  induction input as [|x input IH]; intros [|y target]; cbn;
    constructor; [apply smooth_l1_float_nonneg|apply IH].
Qed.

(** ** float32 arithmetic around zero *)

Lemma f32_not_done_true : f32_sub f32_one (f32_of_bool true) = S754_zero false.
Proof. reflexivity. Qed.

Lemma f32_not_done_false : f32_sub f32_one (f32_of_bool false) = f32_one.
Proof. reflexivity. Qed.

(** Zero times a finite float32 is a zero; times an infinity or NaN it is
    NaN. *)
Lemma f32_mul_zero s y :
  f32_mul (S754_zero s) y
  = match y with
    | S754_zero s' | S754_finite s' _ _ => S754_zero (xorb s s')
    | _ => S754_nan
    end.
Proof. by destruct y. Qed.

Lemma f32_mul_zero_finite s y :
  is_finite y = true → ∃ s', f32_mul (S754_zero s) y = S754_zero s'.
Proof. rewrite f32_mul_zero. destruct y; cbn; eauto; discriminate. Qed.

(** Adding a zero changes no value. *)
Lemma f32_add_zero x s : value_of (f32_add x (S754_zero s)) = value_of x.
Proof. by destruct x as [[]| | |]; destruct s. Qed.

Lemma f64_add_zero x s : value_of (f64_add x (S754_zero s)) = value_of x.
Proof. by destruct x as [[]| | |]; destruct s. Qed.

(** Adding a zero bootstrap to a reward gives the reward, as a float32 of
    the dtype of the target. *)
Lemma add_reward_zero wide r s :
  value_of (add_reward wide r (S754_zero s)) = value_of (reward_as_f32 wide r).
Proof.
  unfold add_reward, reward_as_f32. destruct wide; [|apply f32_add_zero].
  change (f64_of_f32 (S754_zero s)) with (S754_zero s).
  destruct (reward_f64 r) as [[]| | |]; by destruct s.
Qed.

(** ** Paths *)

Lemma string_app_length (a b : string) :
  String.length (a +:+ b) = (String.length a + String.length b)%nat.
Proof.
  induction a as [|x a IH]; [done|].
  change (S (String.length (a +:+ b))
          = S (String.length a + String.length b)).
  by rewrite IH.
Qed.

Lemma string_app_inj_r (a b c : string) : a +:+ c = b +:+ c → a = b.
Proof.
  revert b. induction a as [|x a IH]; intros [|y b] Heq.
  - done.
  - apply (f_equal String.length) in Heq.
    rewrite !string_app_length in Heq. cbn in Heq. lia.
  - apply (f_equal String.length) in Heq.
    rewrite !string_app_length in Heq. cbn in Heq. lia.
  - change (String x (a +:+ c) = String y (b +:+ c)) in Heq.
    injection Heq as -> Heq. f_equal. by apply IH.
Qed.

(** [np.random.rand()] is in [0, 1). *)
Lemma np_random_rand_range t :
  (0 ≤ (np_random_rand t).1)%Qc ∧ ((np_random_rand t).1 < 1)%Qc.
Proof.
  unfold np_random_rand. cbn [draw fst].
  set (r := Z.of_N (hd 0%N t) `mod` 2 ^ 53).
  assert (0 ≤ r < 2 ^ 53) as Hr by (apply Z.mod_pos_bound; lia).
  split.
  - change (0 <= Qred (r # 2 ^ 53))%Q. rewrite Qred_correct.
    unfold Qle. cbn [Qnum Qden]. lia.
  - change (Qred (r # 2 ^ 53) < 1)%Q. rewrite Qred_correct.
    unfold Qlt. cbn [Qnum Qden]. rewrite Pos2Z.inj_pow. lia.
Qed.


(** The library calls stay folded while a method is run. *)
Arguments np_random_rand : simpl never.
Arguments np_random_randint : simpl never.
Arguments random_sample : simpl never.
Arguments py_max : simpl never.
Arguments py_mod : simpl never.
Arguments py_index : simpl never.
Arguments mapR : simpl never.
Arguments item : simpl never.
Arguments argmax : simpl never.
Arguments broadcast2 : simpl never.

Arguments f32_add : simpl never.
Arguments f32_sub : simpl never.
Arguments f32_mul : simpl never.
Arguments f64_add : simpl never.
Arguments f32_of_Z : simpl never.
Arguments f32_one : simpl never.
Arguments f32_of_bool : simpl never.
Arguments f32_of_Qc : simpl never.
Arguments add_reward : simpl never.
Arguments reward_as_f32 : simpl never.
Arguments value_of : simpl never.

Section Properties.
Context `{Torch}.

(** ** The network *)

Lemma forward_online net input :
  forward net input "online"
  = Some (sequential (state_dict (online net)) <$> input).
Proof. reflexivity. Qed.

Lemma forward_target net input :
  forward net input "target"
  = Some (sequential (state_dict (target net)) <$> input).
Proof. reflexivity. Qed.

Lemma net_call_online net input :
  net_call net input "online"
  = Ok (sequential (state_dict (online net)) <$> input).
Proof. reflexivity. Qed.

Lemma net_call_target net input :
  net_call net input "target"
  = Ok (sequential (state_dict (target net)) <$> input).
Proof. reflexivity. Qed.

Lemma ShipNet_init_bad_height c h w output_dim t :
  h ≠ 84 →
  ShipNet_init (c, h, w) output_dim t
  = (Raise (ValueError (ExpectingInputHeight h)), t).
Proof. intros Hh. unfold ShipNet_init. by destruct (decide (h ≠ 84)). Qed.

Lemma ShipNet_init_bad_width c w output_dim t :
  w ≠ 84 →
  ShipNet_init (c, 84, w) output_dim t
  = (Raise (ValueError (ExpectingInputWidth w)), t).
Proof.
  intros Hw. unfold ShipNet_init. destruct (decide (84 ≠ 84)); [done|].
  by destruct (decide (w ≠ 84)).
Qed.

(** C9: constructing the network for frames whose height or width is not
    84 raises a [ValueError] (the configuration error of the agent), before
    any weight is drawn; the height is checked first.  [forward] checks
    nothing: on every network and every input it is the layers applied to
    the input. *)
Theorem ShipNet_shape_checked_at_construction c h w output_dim t :
  (h ≠ 84 →
     ShipNet_init (c, h, w) output_dim t
     = (Raise (ValueError (ExpectingInputHeight h)), t))
  ∧ (h = 84 → w ≠ 84 →
     ShipNet_init (c, h, w) output_dim t
     = (Raise (ValueError (ExpectingInputWidth w)), t))
  ∧ (∀ net input,
       forward net input "online"
       = Some (sequential (state_dict (online net)) <$> input)
       ∧ forward net input "target"
         = Some (sequential (state_dict (target net)) <$> input)).
Proof.
  split_and!.
  - apply ShipNet_init_bad_height.
  - intros ->. apply ShipNet_init_bad_width.
  - intros net input. split; [apply forward_online|apply forward_target].
Qed.

(** The constructor of the agent fails with the network's. *)
Lemma Ship_init_shape_check c h w ad dir er erd erm se bs g l bi le sy wd :
  h ≠ 84 ∨ w ≠ 84 →
  ∃ v, (Ship_init (c, h, w) ad dir er erd erm se bs g l bi le sy wd).1
       = Raise (ValueError v).
Proof.
  intros Hhw. unfold Ship_init.
  destruct (decide (h = 84)) as [->|Hne].
  - destruct Hhw as [?|Hw]; [done|].
    rewrite (ShipNet_init_bad_width _ _ _ _ Hw). eauto.
  - rewrite (ShipNet_init_bad_height _ _ _ _ _ Hne). eauto.
Qed.

(** ** [act] *)

Lemma act_state state s w :
  match (act state s w).1.1 with
  | Ok _ => (act state s w).1.2 = decayed s
  | Raise _ => (act state s w).1.2 = s
  end.
Proof.
  unfold act. run.
  destruct (np_random_rand (np_random w)) as [u t1]. cbn.
  destruct (decide (u < exploration_rate s)%Qc).
  - run. destruct (np_random_randint _ _) as [[a|e] t2]; cbn; [|done].
    by destruct s.
  - run. rewrite net_call_online. cbn.
    destruct (mapR argmax _) as [best|]; cbn; [|done].
    destruct (item best); cbn; [|done]. by destruct s.
Qed.

Lemma act_explore state s w :
  ((np_random_rand (np_random w)).1 < exploration_rate s)%Qc →
  (act state s w).1.1
  = (a ← (np_random_randint (action_dim s) (tail (np_random w))).1;
     Ok (a, [[1; 1; 1; 1; 1; 1]]%Qc)).
Proof.
  intros Hu. unfold act. run.
  pose proof (np_random_rand_tape (np_random w)) as Ht.
  destruct (np_random_rand (np_random w)) as [u t1]. cbn in *. subst t1.
  destruct (decide (u < exploration_rate s)%Qc); [|done].
  run. by destruct (np_random_randint _ _) as [[a|e] t2].
Qed.

Lemma act_exploit state s w :
  ¬ ((np_random_rand (np_random w)).1 < exploration_rate s)%Qc →
  (act state s w).1.1
  = (let action_values := [sequential (state_dict (online (net s))) state] in
     best ← mapR argmax action_values;
     a ← item best;
     Ok (Z.of_nat a, action_values)).
Proof.
  intros Hu. unfold act. run.
  destruct (np_random_rand (np_random w)) as [u t1]. cbn in *.
  destruct (decide (u < exploration_rate s)%Qc); [done|].
  run. rewrite net_call_online. cbn.
  destruct (mapR argmax _) as [best|]; cbn; [|done].
  by destruct (item best).
Qed.

(** [act] returns when there is an action to choose. *)
Lemma act_returns state s w :
  0 < action_dim s →
  sequential (state_dict (online (net s))) state ≠ [] →
  is_Ok (act state s w).1.1.
Proof.
  intros Hdim Hout.
  destruct (decide ((np_random_rand (np_random w)).1 < exploration_rate s)%Qc)
    as [Hu|Hu].
  - rewrite (act_explore _ _ _ Hu). unfold np_random_randint.
    destruct (decide (action_dim s ≤ 0)); [lia|]. by eexists.
  - rewrite (act_exploit _ _ _ Hu). cbn.
    destruct (argmax_is_Ok _ Hout) as [b Hb].
    change (mapR argmax [?row]) with (y ← argmax row; ys ← Ok []; Ok (y :: ys)).
    rewrite Hb. by eexists.
Qed.

(** C4 (as amended): whichever branch [act] takes, when it returns the
    exploration rate is [max(exploration_rate_min, e * decay)], so it is
    never below the floor, and the step counter is one more; a call that
    raises changes nothing, and [act] returns whenever [action_dim] is
    positive and the network gives at least one value.  The rate does not
    rise when it was at least the floor and not negative and the decay is
    at most 1. *)
Theorem act_decay_and_step state s w :
  match (act state s w).1.1 with
  | Ok _ =>
      let e := exploration_rate s in
      let e' := exploration_rate (act state s w).1.2 in
      e' = py_max (exploration_rate_min s) (e * exploration_rate_decay s)%Qc
      ∧ (exploration_rate_min s ≤ e')%Qc
      ∧ (e * exploration_rate_decay s ≤ e')%Qc
      ∧ (e' = exploration_rate_min s ∨ e' = (e * exploration_rate_decay s)%Qc)
      ∧ ((exploration_rate_min s ≤ e)%Qc → (0 ≤ e)%Qc →
         (exploration_rate_decay s ≤ 1)%Qc → (e' ≤ e)%Qc)
      ∧ curr_step (act state s w).1.2 = curr_step s + 1
  | Raise _ => (act state s w).1.2 = s
  end
  ∧ (0 < action_dim s →
     sequential (state_dict (online (net s))) state ≠ [] →
     is_Ok (act state s w).1.1).
Proof.
  split; [|apply act_returns].
  pose proof (act_state state s w) as Hact.
  destruct ((act state s w).1.1); [|done].
  rewrite Hact. cbn. repeat split.
  - apply py_max_ge_l.
  - apply py_max_ge_r.
  - apply py_max_cases.
  - intros Hmin He Hd. apply py_max_lub; [done|].
    rewrite <- (Qcmult_1_r (exploration_rate s)) at 2.
    by apply Qcmult_le_mono_nonneg_l.
Qed.

(** C10: a call of [act] that explores returns the constant one-by-six
    array of ones as action values, whatever the state and whatever
    [action_dim], together with the integer numpy draws in
    [0, action_dim); it raises only when [action_dim] is not positive.
    Every action in the range is drawn for some second draw. *)
Theorem act_explore_placeholder state s w :
  ((np_random_rand (np_random w)).1 < exploration_rate s)%Qc →
  match (act state s w).1.1 with
  | Ok (a, action_values) =>
      action_values = [[1; 1; 1; 1; 1; 1]]%Qc
      ∧ 0 ≤ a < action_dim s
      ∧ a = Z.of_N (hd 0%N (tail (np_random w))) `mod` action_dim s
  | Raise e => action_dim s ≤ 0 ∧ e = ValueError HighNotPositive
  end
  ∧ ∀ a, 0 ≤ a < action_dim s →
      ∃ r, (act state s
              (set_np_random [hd 0%N (np_random w); r] w)).1.1
           = Ok (a, [[1; 1; 1; 1; 1; 1]]%Qc).
Proof.
  intros Hu. split.
  - rewrite (act_explore _ _ _ Hu).
    destruct (np_random_randint _ _) as [[a|e] t2] eqn:Hr; cbn.
    + apply np_random_randint_range in Hr as (? & ? & _). done.
    + apply np_random_randint_raise in Hr as (? & ? & _). done.
  - intros a Ha. exists (Z.to_N a).
    rewrite act_explore by done. cbn.
    unfold np_random_randint. destruct (decide (action_dim s ≤ 0)); [lia|].
    cbn. rewrite Z2N.id by lia. by rewrite Z.mod_small.
Qed.


(** ** Running and composing methods *)

Lemma bind_run {A B} (m : M A) (f : A → M B) s w :
  (m ≫= f) s w
  = match m s w with
    | (Ok a, s', w') => f a s' w'
    | (Raise e, s', w') => (Raise e, s', w')
    end.
Proof. reflexivity. Qed.

Lemma preserves_ret {A} P (a : A) : preserves P (mret a).
Proof. by intros s w. Qed.

Lemma preserves_bind {A B} P (m : M A) (f : A → M B) :
  preserves P m → (∀ a, preserves P (f a)) → preserves P (m ≫= f).
Proof.
  intros Hm Hf s w HP. rewrite bind_run. specialize (Hm s w HP).
  destruct (m s w) as [[[a|e] s'] w']; cbn in *; [by apply Hf|done].
Qed.

(** The same when the first method returns values with a property the
    second relies on. *)
Lemma preserves_bind_post {A B} P (m : M A) (f : A → M B) (Q : A → Prop) :
  preserves P m →
  (∀ s w a, P s w → (m s w).1.1 = Ok a → Q a) →
  (∀ a, Q a → preserves P (f a)) →
  preserves P (m ≫= f).
Proof.
  intros Hm HQ Hf s w HP. rewrite bind_run.
  specialize (Hm s w HP). specialize (HQ s w).
  destruct (m s w) as [[[a|e] s'] w']; cbn in *; [|done].
  apply Hf; [|done]. by apply HQ.
Qed.

Lemma preserves_get P : preserves P get.
Proof. by intros s w. Qed.

Lemma preserves_lift {A} P (r : result A) : preserves P (lift r).
Proof. by intros s w. Qed.

Lemma preserves_modify P f :
  (∀ s w, P s w → P (f s) w) → preserves P (modify f).
Proof. intros Hf s w HP. by apply Hf. Qed.

Lemma preserves_with_np_random {A} P (f : tape → A * tape) :
  (∀ s w t, P s w → P s (set_np_random t w)) →
  preserves P (with_np_random f).
Proof.
  intros Ht s w HP. unfold with_np_random.
  destruct (f (np_random w)) as [a t]. by apply Ht.
Qed.

Lemma preserves_with_py_random {A} P (f : tape → A * tape) :
  (∀ s w t, P s w → P s (set_py_random t w)) →
  preserves P (with_py_random f).
Proof.
  intros Ht s w HP. unfold with_py_random.
  destruct (f (py_random w)) as [a t]. by apply Ht.
Qed.

(** ** State dictionaries *)

Lemma load_state_dict_length ps sd :
  length (load_state_dict ps sd).2 = length ps.
Proof.
  unfold load_state_dict. cbn.
  rewrite length_app, length_zip_with, length_drop. lia.
Qed.

Lemma load_state_dict_frozen ps sd :
  Forall frozen ps → Forall frozen (load_state_dict ps sd).2.
Proof.
  intros Hps. unfold load_state_dict. cbn. apply Forall_app. split.
  - revert sd. induction Hps as [|p ps Hp _ IH]; intros [|d sd]; cbn;
      constructor; [apply Hp|apply IH].
  - by apply Forall_drop.
Qed.

Lemma load_state_dict_same_keys ps sd :
  length ps = length sd →
  (load_state_dict ps sd).1 = Ok () ∧ state_dict (load_state_dict ps sd).2 = sd.
Proof.
  intros Hlen. unfold load_state_dict. cbn.
  destruct (decide _); [|done]. split; [done|].
  rewrite <- Hlen, drop_all, app_nil_r. clear -Hlen. unfold state_dict.
  revert sd Hlen. induction ps as [|p ps IH]; intros [|d sd] Hlen; try done.
  cbn. f_equal. apply IH. by injection Hlen.
Qed.

(** ** The optimizer leaves a parameter without gradient alone *)

Lemma adam_step_from_length lr i ps st :
  length (adam_step_from lr i ps st).1 = length ps.
Proof.
  revert i st. induction ps as [|p ps IH]; intros i st; cbn; [done|].
  destruct (grad p) as [g|].
  - destruct (adam_rule _ _ _ _) as [d m].
    specialize (IH (S i) (<[i:=m]> st)).
    destruct (adam_step_from _ _ _ _). cbn in *. by rewrite IH.
  - specialize (IH (S i) st).
    destruct (adam_step_from _ _ _ _). cbn in *. by rewrite IH.
Qed.

Lemma adam_step_from_frozen lr i ps st :
  Forall frozen ps → adam_step_from lr i ps st = (ps, st).
Proof.
  intros Hps. revert i.
  induction Hps as [|p ps [_ Hg] _ IH]; intros i; cbn; [done|].
  by rewrite Hg, IH.
Qed.

Lemma zero_grad_frozen ps : Forall frozen ps → set_grad None <$> ps = ps.
Proof.
  induction 1 as [|p ps [_ Hg] _ IH]; cbn; [done|].
  rewrite IH. f_equal. destruct p. cbn in *. by subst.
Qed.

Lemma adam_step_from_app lr i ps1 ps2 st :
  adam_step_from lr i (ps1 ++ ps2) st
  = let '(qs1, st1) := adam_step_from lr i ps1 st in
    let '(qs2, st2) := adam_step_from lr (i + length ps1) ps2 st1 in
    (qs1 ++ qs2, st2).
Proof.
  revert i st. induction ps1 as [|p ps1 IH]; intros i st; cbn.
  - rewrite Nat.add_0_r. by destruct (adam_step_from lr i ps2 st).
  - replace (i + S (length ps1))%nat with (S i + length ps1)%nat by lia.
    destruct (grad p) as [g|].
    + destruct (adam_rule _ _ _ _) as [d m]. rewrite IH.
      destruct (adam_step_from lr (S i) ps1 _) as [qs1 st1].
      by destruct (adam_step_from lr _ ps2 st1).
    + rewrite IH. destruct (adam_step_from lr (S i) ps1 _) as [qs1 st1].
      by destruct (adam_step_from lr _ ps2 st1).
Qed.

(** One optimizer step of [update_Q_online] on the network. *)
Lemma optimizer_step_target opt net :
  Forall frozen (target net) →
  target (optimizer_step opt net).1 = target net
  ∧ length (online (optimizer_step opt net).1) = length (online net).
Proof.
  intros Hfrozen. unfold optimizer_step, parameters.
  rewrite adam_step_from_app.
  pose proof (adam_step_from_length (adam_lr opt) 0 (online net) (adam_state opt))
    as Hlen.
  destruct (adam_step_from _ 0 _ _) as [on st1].
  rewrite adam_step_from_frozen by done. cbn in *. rewrite <- Hlen. split.
  - by rewrite drop_app_length.
  - by rewrite take_app_length.
Qed.

(** ** The invariant of the reachable states *)

Lemma inv_ext s s' w w' :
  memory s' = memory s → net s' = net s → lr s' = lr s → disk w' = disk w →
  inv s w → inv s' w'.
Proof.
  intros Hm Hn Hl Hd [? ? ? ? ? ?].
  constructor; rewrite ?Hm, ?Hn, ?Hl, ?Hd; done.
Qed.

Lemma inv_set_net net' s w :
  length (target net') = length (online net') → Forall frozen (target net') →
  inv s w → inv (set_net net' s) w.
Proof. intros Hk Hf [? ? ? ? ? ?]. by constructor. Qed.

Lemma preserves_inv_modify f :
  (∀ s, memory (f s) = memory s ∧ net (f s) = net s ∧ lr (f s) = lr s) →
  preserves inv (modify f).
Proof.
  intros Hf. apply preserves_modify. intros s w.
  destruct (Hf s) as (? & ? & ?). by apply inv_ext.
Qed.

Lemma inv_set_np_random s w t : inv s w → inv s (set_np_random t w).
Proof. by apply inv_ext. Qed.

Lemma inv_set_py_random s w t : inv s w → inv s (set_py_random t w).
Proof. by apply inv_ext. Qed.

Lemma sync_Q_target_inv : preserves inv sync_Q_target.
Proof.
  intros s w Hinv. unfold sync_Q_target.
  pose proof (load_state_dict_length (target (net s))
                (state_dict (online (net s)))) as Hlen.
  pose proof (load_state_dict_frozen (target (net s))
                (state_dict (online (net s))) (inv_frozen _ _ Hinv)) as Hfr.
  destruct (load_state_dict _ _) as [r tg]. cbn in *.
  apply inv_set_net; cbn; [|done..]. rewrite Hlen. apply Hinv.
Qed.

Lemma zero_grad_inv :
  preserves inv (modify (λ s, set_net (zero_grad (net s)) s)).
Proof.
  apply preserves_modify. intros s w Hinv.
  apply inv_set_net; [| |done]; cbn.
  - rewrite !length_fmap. apply Hinv.
  - rewrite zero_grad_frozen; apply Hinv.
Qed.

Lemma backward_inv td_estimate td_target :
  preserves inv
    (modify (λ s, set_net (backward (net s) td_estimate td_target) s)).
Proof.
  apply preserves_modify. intros s w Hinv.
  apply inv_set_net; [| |done]; cbn.
  - rewrite length_imap. apply Hinv.
  - apply Hinv.
Qed.

Lemma optimizer_step_inv :
  preserves inv
    (modify (λ s, let '(net', opt') := optimizer_step (optimizer s) (net s) in
                  set_optimizer opt' (set_net net' s))).
Proof.
  apply preserves_modify. intros s w Hinv.
  destruct (optimizer_step_target (optimizer s) (net s)) as [Ht Hl];
    [apply Hinv|].
  destruct (optimizer_step _ _) as [net' opt']. cbn in *.
  eapply (inv_ext (set_net net' s)); [done..|].
  apply inv_set_net; [| |done]; rewrite Ht; [|apply Hinv].
  rewrite Hl. apply Hinv.
Qed.

Lemma cache_inv state next_state action reward done :
  preserves inv (cache state next_state action reward done).
Proof.
  apply preserves_modify. intros s w [Hmax Hsize ? ? ? ?].
  constructor; cbn; try done.
  - by rewrite deque_append_maxlen.
  - rewrite <- Hmax. apply deque_append_size. lia.
Qed.

Create HintDb pres discriminated.

#[local] Hint Resolve preserves_ret preserves_get preserves_lift
  inv_set_np_random inv_set_py_random
  sync_Q_target_inv zero_grad_inv backward_inv optimizer_step_inv
  cache_inv : pres.
#[local] Hint Extern 1 (preserves _ (mbind _ _)) =>
  apply preserves_bind; [|intros ?] : pres.
#[local] Hint Extern 1 (preserves _ (with_np_random _)) =>
  apply preserves_with_np_random; intros ? ? ? : pres.
#[local] Hint Extern 1 (preserves _ (with_py_random _)) =>
  apply preserves_with_py_random; intros ? ? ? : pres.
#[local] Hint Extern 1 (preserves _ (if ?c then _ else _)) =>
  destruct c : pres.
#[local] Hint Extern 1 (preserves _ (match ?x with _ => _ end)) =>
  destruct x : pres.
#[local] Hint Extern 3 (preserves inv (modify _)) =>
  apply preserves_inv_modify; intros []; done : pres.

Lemma act_inv state : preserves inv (act state).
Proof. unfold act. auto 20 with pres. Qed.

Lemma recall_inv : preserves inv recall.
Proof. unfold recall. auto 20 with pres. Qed.

Lemma update_Q_online_inv td_estimate td_target :
  preserves inv (update_Q_online td_estimate td_target).
Proof. unfold update_Q_online. auto 20 with pres. Qed.

#[local] Hint Resolve recall_inv update_Q_online_inv : pres.

Lemma learn_inv : preserves inv learn.
Proof. unfold learn. auto 30 with pres. Qed.

Lemma Adam_init_Ok l opt : Adam_init l = Ok opt → (0 ≤ l)%Qc ∧ opt = mkAdam l ∅.
Proof.
  unfold Adam_init. destruct (decide (l < 0)%Qc); [discriminate|].
  intros [= <-]. split; [by apply Qcnot_lt_le|done].
Qed.

Lemma Adam_init_nonneg l : (0 ≤ l)%Qc → Adam_init l = Ok (mkAdam l ∅).
Proof.
  intros Hl. unfold Adam_init. destruct (decide (l < 0)%Qc); [|done].
  by apply Qcle_not_lt in Hl.
Qed.

Lemma ShipNet_init_Ok input_dim output_dim t net t' :
  ShipNet_init input_dim output_dim t = (Ok net, t') →
  length (target net) = length (online net)
  ∧ Forall frozen (target net)
  ∧ state_dict (target net) = state_dict (online net).
Proof.
  unfold ShipNet_init. destruct input_dim as [[c h] w].
  destruct (decide (h ≠ 84)); [discriminate|].
  destruct (decide (w ≠ 84)); [discriminate|].
  destruct (decide (c < 0)); [discriminate|]. cbn.
  destruct (decide (output_dim < 0)); [discriminate|].
  intros [= <- <-]. cbn. split_and!.
  - by rewrite !length_fmap.
  - apply Forall_fmap, Forall_fmap, Forall_true. by intros d.
  - unfold state_dict. rewrite <- !list_fmap_compose. done.
Qed.

Lemma Ship_init_inv sd ad dir er erd erm se bs g l bi le sy w s w' :
  map_Forall (λ _ c, checkpoint_ok c) (disk w) →
  Ship_init sd ad dir er erd erm se bs g l bi le sy w = (Ok s, w') →
  inv s w'.
Proof.
  intros Hdisk. unfold Ship_init.
  destruct (ShipNet_init sd ad (torch_random w)) as [[net0|e] t] eqn:Hnet;
    cbn; [|discriminate].
  destruct (Adam_init l) as [opt|e] eqn:Hopt; cbn; [|discriminate].
  intros [= <- <-].
  apply ShipNet_init_Ok in Hnet as (? & ? & _).
  apply Adam_init_Ok in Hopt as [? _].
  constructor; cbn; try done. lia.
Qed.

Lemma save_inv : preserves inv save.
Proof.
  intros s w Hinv. unfold save. rewrite !bind_run. cbn.
  destruct Hinv as [? ? ? ? ? Hdisk]. constructor; cbn; try done.
  apply map_Forall_insert_2; [|done]. by split_and!.
Qed.

Lemma net_load_state_dict_inv sd : preserves inv (net_load_state_dict sd).
Proof.
  intros s w Hinv. unfold net_load_state_dict.
  pose proof (load_state_dict_length (online (net s)) sd.1) as Hon.
  pose proof (load_state_dict_length (target (net s)) sd.2) as Htg.
  pose proof (load_state_dict_frozen (target (net s)) sd.2
                (inv_frozen _ _ Hinv)) as Hfr.
  destruct (load_state_dict (online (net s)) sd.1) as [r1 on].
  destruct (load_state_dict (target (net s)) sd.2) as [r2 tg]. cbn in *.
  apply inv_set_net; cbn; [|done..]. rewrite Hon, Htg. apply Hinv.
Qed.

#[local] Hint Resolve net_load_state_dict_inv : pres.

Lemma load_inv load_path : preserves inv (load load_path).
Proof.
  unfold load. apply (preserves_bind_post inv _ _ checkpoint_ok).
  - by intros s w.
  - intros s w c Hinv. unfold torch_load. cbn.
    destruct (disk w !! load_path) as [c'|] eqn:Hc; [|discriminate].
    intros [= <-]. by apply (inv_disk _ _ Hinv) in Hc.
  - intros c (Hmax & Hsize & Hlr).
    assert (preserves inv (modify (set_memory (ck_memory c)))) as Hmem.
    { apply preserves_modify. intros s w [? ? ? ? ? ?]. by constructor. }
    auto 40 with pres.
Qed.

(** Every reachable state satisfies the invariant. *)
Lemma reachable_inv s w : reachable s w → inv s w.
Proof.
  induction 1 as [? ? ? ? ? ? ? ? ? ? ? ? ? w s w' Hdisk Hinit
                 |? ? ? ? ? ? ? ? ? ? ? ? ? s0 w s w' _ IH Hinit
                 |state s w _ IH|? ? ? ? ? s w _ IH|s w _ IH|s w _ IH
                 |path s w _ IH|np py th s w _ IH].
  - eapply Ship_init_inv; [|done]. rewrite Hdisk. apply map_Forall_empty.
  - eapply Ship_init_inv; [|done]. apply IH.
  - by apply act_inv.
  - by apply cache_inv.
  - by apply learn_inv.
  - by apply save_inv.
  - by apply load_inv.
  - by apply (inv_ext s s w).
Qed.

(** ** The replay buffer *)

Lemma cache_run state next_state action reward done s w :
  cache state next_state action reward done s w
  = (Ok (), set_memory (deque_append (memory s)
              (mkTransition state next_state action reward done)) s, w).
Proof. reflexivity. Qed.

Lemma cache_all_run ts s w :
  (cache_all ts s w).1.1 = Ok ()
  ∧ memory (cache_all ts s w).1.2 = foldl deque_append (memory s)  ts
  ∧ (cache_all ts s w).2 = w.
Proof.
  revert s. induction ts as [|t ts IH]; intros s; [done|].
  cbn [cache_all]. rewrite bind_run, cache_run.
  destruct (IH (set_memory (deque_append (memory s)
             (mkTransition (t_state t) (t_next_state t) (t_action t)
                (t_reward t) (t_done t))) s)) as (Hr & Hm & Hw).
  split_and!; [done| |done]. rewrite Hm. by destruct t.
Qed.

Lemma Ship_init_memory sd ad dir er erd erm se bs g l bi le sy w s w' :
  Ship_init sd ad dir er erd erm se bs g l bi le sy w = (Ok s, w') →
  memory s = Deque 1000 [] ∧ curr_step s = 0.
Proof.
  unfold Ship_init.
  destruct (ShipNet_init sd ad (torch_random w)) as [[net0|e] t]; cbn;
    [|discriminate].
  destruct (Adam_init l) as [opt|e]; cbn; [|discriminate].
  by intros [= <- <-].
Qed.

(** C5: the replay buffer is a first-in first-out store of capacity 1000.
    In every reachable state it holds at most 1000 experiences; after any
    sequence of calls of [cache] it holds the most recent 1000 of what it
    held and what was pushed, in insertion order, so pushing [1000 + k]
    experiences into the buffer of a new agent leaves exactly the last
    1000; a push into a full buffer drops the oldest experience. *)
Theorem memory_fifo_capacity s w :
  reachable s w →
  maxlen (memory s) = 1000%nat
  ∧ (length (items (memory s)) ≤ 1000)%nat
  ∧ (∀ ts w1,
       let s' := (cache_all ts s w1).1.2 in
       let pushed := items (memory s) ++ ts in
       items (memory s') = drop (length pushed - 1000) pushed
       ∧ (length (items (memory s')) ≤ 1000)%nat
       ∧ ∀ k, length pushed = (1000 + k)%nat →
           items (memory s') = drop k pushed
           ∧ length (items (memory s')) = 1000%nat)
  ∧ (∀ state next_state action reward done w1,
       length (items (memory s)) = 1000%nat →
       items (memory (cache state next_state action reward done s w1).1.2)
       = drop 1 (items (memory s))
         ++ [mkTransition state next_state action reward done])
  ∧ (∀ sd ad dir er erd erm se bs g l bi le sy w0 s0 w0',
       Ship_init sd ad dir er erd erm se bs g l bi le sy w0 = (Ok s0, w0') →
       items (memory s0) = []
       ∧ ∀ ts w1 k, length ts = (1000 + k)%nat →
           items (memory (cache_all ts s0 w1).1.2) = drop k ts).
Proof.
  intros Hreach. destruct (reachable_inv _ _ Hreach) as [Hmax Hsize _ _ _ _].
  assert (∀ (s1 : Ship) ts w1,
    maxlen (memory s1) = 1000%nat →
    (length (items (memory s1)) ≤ 1000)%nat →
    items (memory (cache_all ts s1 w1).1.2)
    = drop (length (items (memory s1) ++ ts) - 1000) (items (memory s1) ++ ts))
    as Hpush.
  { intros s1 ts w1 Hm Hs. destruct (cache_all_run ts s1 w1) as (_ & -> & _).
    destruct (deque_extend_items (memory s1) ts) as [-> _]; [lia|lia|].
    by rewrite Hm. }
  split_and!; [done|done|..].
  - intros ts w1 s' pushed. unfold s'. rewrite Hpush by done. fold pushed.
    split_and!; [done|..].
    + rewrite length_drop. lia.
    + intros k Hk. rewrite Hk. replace (1000 + k - 1000)%nat with k by lia.
      split; [done|]. rewrite length_drop. lia.
  - intros state next_state action reward done w1 Hfull. cbn.
    unfold deque_append. rewrite Hmax, Hfull.
    destruct (decide (1000 = 0)%nat); [done|].
    by destruct (decide (1000 < 1000)%nat); [lia|].
  - intros sd ad dir er erd erm se bs g l bi le sy w0 s0 w0' Hinit.
    apply Ship_init_memory in Hinit as [Hmem _].
    split; [by rewrite Hmem|]. intros ts w1 k Hk.
    rewrite Hpush; rewrite Hmem; cbn; [|done|lia].
    rewrite Hk. f_equal. lia.
Qed.

(** [recall], case by case on what [random.sample] gives. *)
Lemma recall_run s w :
  recall s w
  = match random_sample (items (memory s)) (batch_size s) (py_random w) with
    | (Raise e, t) => (Raise e, s, set_py_random t w)
    | (Ok [], t) =>
        (Raise (ValueError (NotEnoughValuesToUnpack 5 0)), s,
         set_py_random t w)
    | (Ok picked, t) =>
        (Ok (t_state <$> picked, t_next_state <$> picked,
             t_action <$> picked, t_reward <$> picked, t_done <$> picked),
         s, set_py_random t w)
    end.
Proof.
  unfold recall. run.
  destruct (random_sample _ _ _) as [[picked|e] t]; [|done].
  by destruct picked.
Qed.

(** A batch that [recall] returns has [batch_size] rows in each field. *)
Lemma recall_Ok s w state next_state action reward done s' w' :
  recall s w = (Ok (state, next_state, action, reward, done), s', w') →
  s' = s
  ∧ (0 < Z.to_nat (batch_size s))%nat
  ∧ length state = Z.to_nat (batch_size s)
  ∧ length next_state = Z.to_nat (batch_size s)
  ∧ length action = Z.to_nat (batch_size s)
  ∧ length reward = Z.to_nat (batch_size s)
  ∧ length done = Z.to_nat (batch_size s).
Proof.
  rewrite recall_run.
  destruct (random_sample_spec (items (memory s)) (batch_size s) (py_random w))
    as [Hfew Hmany].
  destruct (decide (0 ≤ batch_size s ≤ Z.of_nat (length (items (memory s)))))
    as [Hk|Hk].
  - destruct (Hmany Hk) as (idxs & picked & t' & -> & Hlen & _ & Hall).
    apply Forall2_length in Hall. destruct picked as [|t picked]; [done|].
    intros [= <- <- <- <- <- <- _]. split; [done|].
    cbn in *. rewrite ?length_fmap. lia.
  - by rewrite (Hfew Hk).
Qed.

(** C6 (as amended): [recall] raises the [ValueError] of [random.sample]
    when the buffer holds fewer than [batch_size] experiences, and then
    draws nothing and changes nothing.  When [batch_size] is at least one
    and the buffer holds that many, it returns the five fields of
    [batch_size] experiences stored at pairwise different positions of the
    buffer, stacked field by field in the order they were picked; only the
    generator of [random] advances. *)
Theorem recall_sample s w :
  (Z.of_nat (length (items (memory s))) < batch_size s →
     recall s w = (Raise (ValueError SampleLargerThanPopulation), s, w))
  ∧ (1 ≤ batch_size s ≤ Z.of_nat (length (items (memory s))) →
     ∃ idxs picked t',
       recall s w
       = (Ok (t_state <$> picked, t_next_state <$> picked,
              t_action <$> picked, t_reward <$> picked, t_done <$> picked),
          s, set_py_random t' w)
       ∧ length idxs = Z.to_nat (batch_size s)
       ∧ length picked = Z.to_nat (batch_size s)
       ∧ NoDup idxs
       ∧ Forall2 (λ i t, items (memory s) !! i = Some t) idxs picked).
Proof.
  destruct (random_sample_spec (items (memory s)) (batch_size s) (py_random w))
    as [Hfew Hmany].
  rewrite recall_run. split; intros Hb.
  - rewrite Hfew by lia. by destruct w.
  - destruct Hmany as (idxs & picked & t' & -> & Hlen & Hnodup & Hall); [lia|].
    pose proof (Forall2_length _ _ _ Hall) as Hlen'.
    exists idxs, picked, t'. destruct picked as [|t picked].
    + cbn in Hlen'. lia.
    + split_and!; try done. congruence.
Qed.

(** ** The TD target *)

(** On a batch of [batch_size] transitions, on whose next states the
    online network gives at least one value and the target network as
    many, [td_target] returns for each transition the float32
    [reward + (1 - done) * gamma * q], with [q] the output of the target
    network at the first maximum of the output of the online network.
    When [done] is set and [gamma] and [q] are finite, it has the value of
    the reward. *)
Lemma td_target_spec self reward next_state done :
  let n := Z.to_nat (batch_size self) in
  let Q_online := sequential (state_dict (online (net self))) in
  let Q_target := sequential (state_dict (target (net self))) in
  let wide := stacked_float64 reward in
  let g := f32_of_Qc (gamma self) in
  length reward = n → length next_state = n → length done = n →
  (∀ x, x ∈ next_state →
     Q_online x ≠ [] ∧ length (Q_target x) = length (Q_online x)) →
  ∃ tgt, td_target self reward next_state done = Ok tgt
    ∧ length tgt = n
    ∧ ∀ i r x (d : bool),
        reward !! i = Some r → next_state !! i = Some x → done !! i = Some d →
        ∃ best q_best q,
          argmax (Q_online x) = Ok best
          ∧ Q_online x !! best = Some q_best
          ∧ (∀ j v, Q_online x !! j = Some v → (v ≤ q_best)%Qc)
          ∧ Q_target x !! best = Some q
          ∧ tgt !! i
            = Some (add_reward wide r
                      (f32_mul (f32_mul (f32_sub f32_one (f32_of_bool d)) g)
                         (f32_of_Qc q)))
          ∧ (d = true → is_finite g = true →
             is_finite (f32_of_Qc q) = true →
             value_of <$> tgt !! i = Some (value_of (reward_as_f32 wide r))).
Proof.
  intros n Q_online Q_target wide g Hreward Hnext Hdone Hshape.
  unfold td_target. rewrite net_call_online, net_call_target. cbn.
  fold Q_online Q_target wide g.
  (* the best actions *)
  destruct (mapR_is_Ok argmax (Q_online <$> next_state)) as [bests Hbests].
  { intros row Hrow. apply list_elem_of_fmap in Hrow as (x & -> & Hx).
    apply argmax_is_Ok. by apply Hshape. }
  rewrite Hbests. cbn.
  pose proof (mapR_length _ _ _ Hbests) as Hblen. rewrite length_fmap in Hblen.
  assert (∀ i x, next_state !! i = Some x →
            ∃ b, bests !! i = Some b ∧ argmax (Q_online x) = Ok b) as Hbest.
  { intros i x Hx. eapply mapR_lookup; [done|].
    by rewrite list_lookup_fmap, Hx. }
  (* their values under the target network *)
  destruct (gather_arange (Q_target <$> next_state) (Z.of_nat <$> bests)
              (batch_size self)) as (next_Q & -> & Hqlen & Hq).
  { by rewrite length_fmap. }
  { rewrite length_fmap. lia. }
  { intros i row c Hrow Hc.
    rewrite list_lookup_fmap in Hrow. rewrite list_lookup_fmap in Hc.
    destruct (next_state !! i) as [x|] eqn:Hx; [|done].
    destruct (Hbest i x Hx) as (b & Hb & Hargmax). rewrite Hb in Hc.
    cbn in *. injection Hrow as <-. injection Hc as <-.
    destruct (argmax_spec _ _ Hargmax) as (qb & Hqb & _).
    apply lookup_lt_Some in Hqb.
    destruct (lookup_lt_is_Some_2 (Q_target x) b) as [q Hq'].
    { destruct (Hshape x) as [_ ->]; [|done].
      apply list_elem_of_lookup. eauto. }
    exists q. by apply py_index_nat. }
  cbn.
  rewrite broadcast2_same_length by (rewrite !length_fmap; lia).
  rewrite (mapR_pure (λ p : f32 * f32, f32_mul p.1 p.2)). cbn.
  rewrite broadcast2_same_length
    by (rewrite length_fmap, length_zip_with, !length_fmap; lia).
  rewrite (mapR_pure (λ p : reward_value * f32, add_reward wide p.1 p.2)).
  eexists. split; [done|]. split.
  { rewrite length_fmap, length_zip_with, length_fmap, length_zip_with,
      !length_fmap. lia. }
  intros i r x d Hr Hx Hd.
  destruct (Hbest i x Hx) as (b & Hb & Hargmax).
  destruct (argmax_spec _ _ Hargmax) as (qb & Hqb & Hmax & _).
  destruct (Hq i (Q_target x) (Z.of_nat b)) as (q & Hqi & Hpy).
  { by rewrite list_lookup_fmap, Hx. }
  { by rewrite list_lookup_fmap, Hb. }
  assert (Q_target x !! b = Some q) as Hqt.
  { destruct (lookup_lt_is_Some_2 (Q_target x) b) as [q' Hq'].
    - destruct (Hshape x) as [_ ->]; [|by eapply lookup_lt_Some].
      apply list_elem_of_lookup. eauto.
    - rewrite (py_index_nat _ _ _ Hq') in Hpy. congruence. }
  assert (∀ A B (f : A → B) l j a, l !! j = Some a → (f <$> l) !! j = Some (f a))
    as Hfmap by (intros; by rewrite list_lookup_fmap; simplify_option_eq).
  exists b, qb, q. do 4 (split; [done|]).
  match goal with |- ?P ∧ _ => assert P as Hi end.
  { eapply (Hfmap _ _ (λ p : reward_value * f32, add_reward wide p.1 p.2)
              _ _ (r, _)).
    apply lookup_zip_Some; [done|].
    eapply (Hfmap _ _ (λ p : f32 * f32, f32_mul p.1 p.2) _ _ (_, f32_of_Qc q)).
    apply lookup_zip_Some; [|by apply Hfmap].
    rewrite !list_lookup_fmap, Hd. done. }
  split; [exact Hi|].
  intros -> Hg Hfin. unfold f32 in Hi |- *. rewrite Hi. cbn. f_equal.
  rewrite f32_not_done_true.
  destruct (f32_mul_zero_finite false g Hg) as [s1 ->].
  destruct (f32_mul_zero_finite s1 (f32_of_Qc q) Hfin) as [s2 ->].
  apply add_reward_zero.
Qed.

(** C1 (as amended): for every batch that [recall] samples, [td_target]
    returns, for each transition of the batch, the float32
    [reward + (1 - done) * gamma * q], evaluated in float32 in this order,
    where [q] is the output of the target network on the next state at
    [best], the first index at which the output of the online network on
    the next state is maximal.  For a transition with [done] set, when
    [gamma] and [q] are finite as float32, it has the value of the reward
    rounded to float32: the reward itself when the reward is a float32
    and the rewards of the batch do not promote the sum to float64.  (On
    every next state of the batch the online network gives at least one
    value and the target network as many.) *)
Theorem td_target_double_dqn self w state next_state action reward done
    self' w' :
  let Q_online := sequential (state_dict (online (net self))) in
  let Q_target := sequential (state_dict (target (net self))) in
  let wide := stacked_float64 reward in
  let g := f32_of_Qc (gamma self) in
  recall self w = (Ok (state, next_state, action, reward, done), self', w') →
  (∀ x, x ∈ next_state →
     Q_online x ≠ [] ∧ length (Q_target x) = length (Q_online x)) →
  self' = self
  ∧ ∃ tgt, td_target self' reward next_state done = Ok tgt
    ∧ length tgt = Z.to_nat (batch_size self)
    ∧ ∀ i r x (d : bool),
        reward !! i = Some r → next_state !! i = Some x → done !! i = Some d →
        ∃ best q_best q,
          argmax (Q_online x) = Ok best
          ∧ Q_online x !! best = Some q_best
          ∧ (∀ j v, Q_online x !! j = Some v → (v ≤ q_best)%Qc)
          ∧ Q_target x !! best = Some q
          ∧ tgt !! i
            = Some (add_reward wide r
                      (f32_mul (f32_mul (f32_sub f32_one (f32_of_bool d)) g)
                         (f32_of_Qc q)))
          ∧ (d = true → is_finite g = true →
             is_finite (f32_of_Qc q) = true →
             value_of <$> tgt !! i = Some (value_of (reward_as_f32 wide r))
             ∧ ∀ y, r = RFloat32 y → wide = false →
                 value_of <$> tgt !! i = Some (value_of y)).
Proof.
  intros Q_online Q_target wide g Hrecall Hshape.
  apply recall_Ok in Hrecall as (-> & _ & _ & Hnext & _ & Hreward & Hdone).
  split; [done|].
  destruct (td_target_spec self reward next_state done Hreward Hnext Hdone
              Hshape) as (tgt & Htgt & Hlen & Hall).
  exists tgt. split_and!; [done..|]. intros i r x d Hr Hx Hd.
  destruct (Hall i r x d Hr Hx Hd)
    as (best & q_best & q & Hbest & Hqb & Hmax & Hq & Hi & Hterminal).
  exists best, q_best, q. split_and!; [done..|].
  intros Htrue Hg Hfin. specialize (Hterminal Htrue Hg Hfin).
  split; [done|]. intros y -> Hwide. fold wide in Hterminal.
  by rewrite Hwide in Hterminal.
Qed.

(** ** [learn] *)

Lemma sync_Q_target_run s w :
  length (target (net s)) = length (online (net s)) →
  ∃ tg, sync_Q_target s w
        = (Ok (), set_net (mkShipNet (online (net s)) tg) s, w)
      ∧ state_dict tg = state_dict (online (net s))
      ∧ (Forall frozen (target (net s)) → Forall frozen tg).
Proof.
  intros Hkeys. unfold sync_Q_target.
  destruct (load_state_dict_same_keys (target (net s))
              (state_dict (online (net s)))) as [Hr Hsd].
  { unfold state_dict. by rewrite length_fmap. }
  pose proof (load_state_dict_frozen (target (net s))
                (state_dict (online (net s)))) as Hfr.
  destruct (load_state_dict _ _) as [r tg]. cbn in *. subst r.
  by exists tg.
Qed.

Lemma learn_run s w :
  learn s w
  = match py_mod (curr_step s) (sync_every s) with
    | Raise e => (Raise e, s, w)
    | Ok r =>
        if decide (r = 0)
        then match sync_Q_target s w with
             | (Ok _, s1, w1) => learn_after_sync s s1 w1
             | (Raise e, s1, w1) => (Raise e, s1, w1)
             end
        else learn_after_sync s s w
    end.
Proof.
  unfold learn. rewrite bind_run. cbn [get]. rewrite bind_run. unfold lift at 1.
  destruct (py_mod (curr_step s) (sync_every s)) as [r|e]; [|done].
  rewrite bind_run. by destruct (decide (r = 0)).
Qed.

Lemma learn_after_sync_early self s w :
  curr_step self < burn_in self
  ∨ learn_every self ≠ 0 ∧ curr_step self `mod` learn_every self ≠ 0 →
  learn_after_sync self s w = (Ok (None, None), s, w).
Proof.
  intros Hgate. unfold learn_after_sync.
  destruct (decide (curr_step self < burn_in self)); [done|].
  destruct Hgate as [?|[Hle Hmod]]; [done|].
  rewrite bind_run. unfold lift at 1, py_mod.
  destruct (decide (learn_every self = 0)); [done|].
  by destruct (decide (curr_step self `mod` learn_every self ≠ 0)).
Qed.

(** A call that returns [(None, None)] took no gradient step. *)
Lemma learn_after_sync_none self s w s' w' :
  learn_after_sync self s w = (Ok (None, None), s', w') → s' = s ∧ w' = w.
Proof.
  unfold learn_after_sync.
  destruct (decide (curr_step self < burn_in self)); [by intros [= -> ->]|].
  rewrite bind_run. unfold lift at 1.
  destruct (py_mod (curr_step self) (learn_every self)) as [r|e];
    cbv beta iota; [|done].
  destruct (decide (r ≠ 0)); [by intros [= -> ->]|].
  rewrite bind_run.
  destruct (recall s w) as [[[[[[[st nst] a] rw] d]|e] s2] w2];
    cbv beta iota; [|done].
  rewrite bind_run. cbn [get]. cbv beta iota.
  rewrite bind_run. unfold lift at 1.
  destruct (td_estimate _ _ _) as [est|e]; cbv beta iota; [|done].
  rewrite bind_run. unfold lift at 1.
  destruct (td_target _ _ _ _) as [tgt|e]; cbv beta iota; [|done].
  rewrite bind_run.
  destruct (update_Q_online _ _ _ _) as [[[l|e] s3] w3]; cbv beta iota;
    [|done].
  done.
Qed.

(** After the synchronisation step nothing writes the target parameters. *)
Lemma target_is_modify t f :
  (∀ s, target (net (f s)) = target (net s)) →
  preserves (target_is t) (modify f).
Proof.
  intros Hf. apply preserves_modify. intros s w. unfold target_is.
  by rewrite Hf.
Qed.

Lemma update_Q_online_target t td_estimate td_target :
  Forall frozen t →
  preserves (target_is t) (update_Q_online td_estimate td_target).
Proof.
  intros Hfrozen. unfold update_Q_online.
  apply preserves_bind; [apply preserves_lift|intros l].
  apply preserves_bind; [|intros _].
  { apply preserves_modify. intros s w Ht. unfold target_is in *. cbn.
    rewrite Ht. by apply zero_grad_frozen. }
  apply preserves_bind; [|intros _].
  { by apply target_is_modify. }
  apply preserves_bind; [|intros _; apply preserves_ret].
  apply preserves_modify. intros s w Ht. unfold target_is in *.
  destruct (optimizer_step_target (optimizer s) (net s)) as [Hopt _];
    [by rewrite Ht|].
  destruct (optimizer_step _ _) as [net' opt']. cbn in *. congruence.
Qed.

Lemma recall_target t : preserves (target_is t) recall.
Proof.
  unfold recall.
  apply preserves_bind; [apply preserves_get|intros self].
  apply preserves_bind; [by apply preserves_with_py_random|intros r].
  apply preserves_bind; [apply preserves_lift|intros picked].
  destruct picked; [apply preserves_lift|apply preserves_ret].
Qed.

Lemma learn_after_sync_target t self :
  Forall frozen t → preserves (target_is t) (learn_after_sync self).
Proof.
  intros Hfrozen. unfold learn_after_sync.
  destruct (decide _); [apply preserves_ret|].
  apply preserves_bind; [apply preserves_lift|intros r].
  destruct (decide _); [apply preserves_ret|].
  apply preserves_bind; [apply recall_target|intros [[[[st nst] a] rw] d]].
  apply preserves_bind; [apply preserves_get|intros self'].
  apply preserves_bind; [apply preserves_lift|intros est].
  apply preserves_bind; [apply preserves_lift|intros tgt].
  apply preserves_bind; [by apply update_Q_online_target|intros l].
  apply preserves_bind; [by apply target_is_modify|intros _].
  apply preserves_bind; [by apply target_is_modify|intros _].
  apply preserves_bind; [apply preserves_get|intros self''].
  apply preserves_ret.
Qed.

(** The target parameters after [learn]: those of the synchronisation
    step when it runs, else those before the call.  This needs only that
    the target has the keys of the online network and is frozen. *)
Lemma learn_target_frozen s w :
  length (target (net s)) = length (online (net s)) →
  Forall frozen (target (net s)) →
  state_dict (target (net (learn s w).1.2))
  = match py_mod (curr_step s) (sync_every s) with
    | Ok 0 => state_dict (online (net s))
    | _ => state_dict (target (net s))
    end.
Proof.
  intros Hkeys Hfrozen. rewrite learn_run.
  destruct (py_mod (curr_step s) (sync_every s)) as [r|e]; [|done].
  destruct (decide (r = 0)) as [->|Hr].
  - destruct (sync_Q_target_run s w Hkeys) as (tg & -> & Hsd & Hfr).
    specialize (Hfr Hfrozen).
    rewrite (learn_after_sync_target tg s Hfr
               (set_net (mkShipNet (online (net s)) tg) s) w); done.
  - rewrite (learn_after_sync_target (target (net s)) s Hfrozen s w); [|done].
    by destruct r.
Qed.

Lemma learn_target s w :
  inv s w →
  state_dict (target (net (learn s w).1.2))
  = match py_mod (curr_step s) (sync_every s) with
    | Ok 0 => state_dict (online (net s))
    | _ => state_dict (target (net s))
    end.
Proof.
  intros Hinv. apply learn_target_frozen; apply Hinv.
Qed.

(** C2 (as amended): when [sync_every] is not zero, [learn] returns
    [(None, None)] whenever [curr_step < burn_in], and whenever
    [curr_step mod learn_every] is not zero; it then samples nothing (the
    world, with its generators, is as before) and leaves everything of the
    agent as it was except the target parameters, which the
    synchronisation step, evaluated first, has overwritten with the online
    ones when [curr_step mod sync_every] is zero, during burn-in too. *)
Theorem learn_gated s w :
  reachable s w →
  sync_every s ≠ 0 →
  curr_step s < burn_in s
  ∨ learn_every s ≠ 0 ∧ curr_step s `mod` learn_every s ≠ 0 →
  ∃ tg,
    learn s w = (Ok (None, None), set_net (mkShipNet (online (net s)) tg) s, w)
    ∧ state_dict tg
      = (if decide (curr_step s `mod` sync_every s = 0)
         then state_dict (online (net s))
         else state_dict (target (net s)))
    ∧ (curr_step s `mod` sync_every s ≠ 0 → tg = target (net s)).
Proof.
  intros Hreach Hsync Hgate. apply reachable_inv in Hreach as Hinv.
  rewrite learn_run. unfold py_mod.
  destruct (decide (sync_every s = 0)); [done|].
  destruct (decide (curr_step s `mod` sync_every s = 0)) as [Hmod|Hmod].
  - destruct (sync_Q_target_run s w (inv_keys _ _ Hinv))
      as (tg & -> & Hsd & _).
    exists tg. by rewrite learn_after_sync_early.
  - exists (target (net s)). rewrite learn_after_sync_early by done.
    split_and!; [|done..]. by destruct s as [? ? ? ? []].
Qed.

(** C3: on every agent whose target network has the keys of its online
    network and is frozen, as it is from construction on, reachable or
    not, and whatever values the target holds: when [learn] is called at a
    step that is a multiple of [sync_every], the synchronisation returns
    with the target parameters equal, value for value, to the online ones,
    which it leaves as they were; whatever [learn] does next, the target
    parameters after the call are the online parameters the call started
    with, and when [learn] returns [(None, None)] they are the online
    parameters after the call as well. *)
Theorem sync_copies_online s w :
  length (target (net s)) = length (online (net s)) →
  Forall frozen (target (net s)) →
  py_mod (curr_step s) (sync_every s) = Ok 0 →
  (∃ s1, sync_Q_target s w = (Ok (), s1, w)
       ∧ online (net s1) = online (net s)
       ∧ state_dict (target (net s1)) = state_dict (online (net s1)))
  ∧ state_dict (target (net (learn s w).1.2)) = state_dict (online (net s))
  ∧ ((learn s w).1.1 = Ok (None, None) →
     state_dict (target (net (learn s w).1.2))
     = state_dict (online (net (learn s w).1.2))).
Proof.
  intros Hkeys Hfrozen Hmod.
  pose proof (learn_target_frozen s w Hkeys Hfrozen) as Htarget.
  rewrite Hmod in Htarget.
  destruct (sync_Q_target_run s w Hkeys) as (tg & Hrun & Hsd & _).
  split_and!; [|done|].
  - eexists. by split_and!.
  - intros Hnone. rewrite Htarget. f_equal.
    revert Hnone. rewrite learn_run, Hmod.
    destruct (decide (0 = 0)); [|done]. rewrite Hrun.
    destruct (learn_after_sync _ _ _) as [[r s'] w'] eqn:Hafter. cbn.
    intros ->. by apply learn_after_sync_none in Hafter as [-> _].
Qed.

(** C8: on every reachable state the gradient step of [learn],
    [update_Q_online], changes no target parameter: the optimizer skips
    them, for they carry no gradient.  Over a whole call of [learn],
    with or without a gradient step, the target parameters change only by
    the synchronisation step: they end as the online parameters the call
    started with when [curr_step mod sync_every] is zero, and as they were
    otherwise. *)
Theorem gradient_step_frames_target s w :
  reachable s w →
  (∀ td_estimate td_target,
     target (net (update_Q_online td_estimate td_target s w).1.2)
     = target (net s))
  ∧ state_dict (target (net (learn s w).1.2))
    = match py_mod (curr_step s) (sync_every s) with
      | Ok 0 => state_dict (online (net s))
      | _ => state_dict (target (net s))
      end.
Proof.
  intros Hreach. apply reachable_inv in Hreach as Hinv. split.
  - intros est tgt.
    by apply (update_Q_online_target (target (net s)) est tgt
                (inv_frozen _ _ Hinv) s w).
  - by apply learn_target.
Qed.

(** ** Checkpoints *)

Lemma save_run s w :
  save s w
  = (Ok (checkpoint_path s), s,
     set_disk (<[checkpoint_path s := checkpoint_of s]> (disk w)) w).
Proof. reflexivity. Qed.

Lemma net_load_state_dict_run sd s w :
  length (online (net s)) = length sd.1 →
  length (target (net s)) = length sd.2 →
  ∃ net', net_load_state_dict sd s w = (Ok (), set_net net' s, w)
    ∧ net_state_dict net' = sd
    ∧ (Forall frozen (target (net s)) → Forall frozen (target net')).
Proof.
  intros Hon Htg. unfold net_load_state_dict.
  destruct (load_state_dict_same_keys _ _ Hon) as [Hr1 Hsd1].
  destruct (load_state_dict_same_keys _ _ Htg) as [Hr2 Hsd2].
  pose proof (load_state_dict_frozen (target (net s)) sd.2) as Hfr.
  destruct (load_state_dict (online (net s)) sd.1) as [r1 on].
  destruct (load_state_dict (target (net s)) sd.2) as [r2 tg].
  cbn in *. subst r1 r2. eexists. split_and!; [done| |done].
  unfold net_state_dict. cbn. rewrite Hsd1, Hsd2. by destruct sd.
Qed.

(** What [load] restores from a checkpoint with the keys of the network
    and a learning rate Adam accepts, and what it leaves. *)
Lemma load_run path c s w :
  disk w !! path = Some c →
  length (online (net s)) = length (ck_net c).1 →
  length (target (net s)) = length (ck_net c).2 →
  (0 ≤ ck_lr c)%Qc →
  ∃ net',
    load path s w
    = (Ok (),
       mkShip (state_dim s) (action_dim s) (save_dir s) (lr s) net'
         (ck_exploration_rate c) (ck_exploration_rate_decay c)
         (ck_exploration_rate_min c) (ck_curr_step c) (ck_save_every c)
         (ck_memory c) (ck_batch_size c) (Q s) (ck_gamma c) (loss s)
         (mkAdam (ck_lr c) ∅) (ck_burn_in c) (ck_learn_every c)
         (ck_sync_every c), w)
    ∧ net_state_dict net' = ck_net c.
Proof.
  intros Hdisk Hon Htg Hlr.
  destruct (net_load_state_dict_run (ck_net c) s w Hon Htg)
    as (net' & Hnet & Hsd & _).
  exists net'. split; [|done].
  unfold load. rewrite bind_run. unfold torch_load at 1. rewrite Hdisk.
  cbv beta iota. rewrite bind_run, Hnet. cbv beta iota.
  do 6 (rewrite bind_run; unfold modify at 1; cbv beta iota).
  rewrite bind_run. unfold lift at 1. rewrite (Adam_init_nonneg _ Hlr).
  cbv beta iota.
  do 5 (rewrite bind_run; unfold modify at 1; cbv beta iota).
  unfold modify. by destruct s.
Qed.

(** [save] then [load] of the file it wrote, by an agent [b] of the same
    architecture in the world [save] left: the step counter, the
    exploration rate, its decay and floor, the save cadence, the batch
    size, gamma, burn-in, the learn and sync cadences, the buffer and the
    parameters of both networks are those of the saved agent, and the new
    optimizer has the saved learning rate; the attribute [lr] of [b] is the
    one [b] had. *)
Lemma load_save_round_trip s w b :
  inv s w →
  length (online (net b)) = length (online (net s)) →
  length (target (net b)) = length (target (net s)) →
  (save s w).1.1 = Ok (checkpoint_path s)
  ∧ ∃ b',
      load (checkpoint_path s) b (save s w).2 = (Ok (), b', (save s w).2)
      ∧ curr_step b' = curr_step s
      ∧ exploration_rate b' = exploration_rate s
      ∧ exploration_rate_decay b' = exploration_rate_decay s
      ∧ exploration_rate_min b' = exploration_rate_min s
      ∧ save_every b' = save_every s
      ∧ batch_size b' = batch_size s
      ∧ gamma b' = gamma s
      ∧ burn_in b' = burn_in s
      ∧ learn_every b' = learn_every s
      ∧ sync_every b' = sync_every s
      ∧ memory b' = memory s
      ∧ net_state_dict (net b') = net_state_dict (net s)
      ∧ optimizer b' = mkAdam (lr s) ∅
      ∧ lr b' = lr b.
Proof.
  intros Hinv Hon Htg. rewrite save_run. split; [done|]. cbn [fst snd].
  destruct (load_run (checkpoint_path s) (checkpoint_of s) b
              (set_disk (<[checkpoint_path s:=checkpoint_of s]> (disk w)) w))
    as (net' & -> & Hsd).
  - cbn. apply lookup_insert_eq.
  - cbn. unfold state_dict. by rewrite length_fmap.
  - cbn. unfold state_dict. by rewrite length_fmap.
  - apply Hinv.
  - eexists. split; [done|]. cbn. by split_and!.
Qed.
(** * Further properties of the agent *)

(** ** [td_estimate] *)

(** On a batch of [batch_size] states and actions, each action an index
    into the output of the online network on its state, [td_estimate]
    returns the online value of each action taken. *)
Lemma td_estimate_spec self state action :
  let n := Z.to_nat (batch_size self) in
  let Q_online := sequential (state_dict (online (net self))) in
  length state = n → length action = n →
  (∀ i x a, state !! i = Some x → action !! i = Some a →
     - Z.of_nat (length (Q_online x)) ≤ a < Z.of_nat (length (Q_online x))) →
  ∃ vs, td_estimate self state action = Ok (Tracked vs state action)
    ∧ length vs = n
    ∧ ∀ i x a, state !! i = Some x → action !! i = Some a →
        ∃ q, vs !! i = Some q ∧ py_index (Q_online x) a = Ok q.
Proof.
  intros n Q_online Hstate Haction Hrange. unfold td_estimate.
  rewrite net_call_online. cbn. fold Q_online.
  destruct (gather_arange (Q_online <$> state) action (batch_size self))
    as (out & -> & Hlen & Hout).
  { by rewrite length_fmap. }
  { done. }
  { intros i row a Hrow Ha. rewrite list_lookup_fmap in Hrow.
    destruct (state !! i) as [x|] eqn:Hx; [|done]. injection Hrow as <-.
    specialize (Hrange i x a Hx Ha).
    destruct (lookup_lt_is_Some_2 (Q_online x)
      (Z.to_nat (if decide (a < 0) then a + Z.of_nat (length (Q_online x)) else a)))
      as [q Hq]; [case_decide; lia|].
    exists q. by apply py_index_Ok. }
  cbn. eexists. split_and!; [done..|].
  intros i x a Hx Ha. apply (Hout i (Q_online x) a); [|done].
  by rewrite list_lookup_fmap, Hx.
Qed.

(** X1: on a batch of [batch_size] states and actions, each action an index
    into the output of the online network on its state (from the end when
    negative), [td_estimate] returns for each transition the online value
    of the action taken, and records the batch for differentiation; one
    action outside the range makes it raise [IndexError]. *)
Theorem td_estimate_taken_action self state action :
  let n := Z.to_nat (batch_size self) in
  let Q_online := sequential (state_dict (online (net self))) in
  length state = n → length action = n →
  ((∀ i x a, state !! i = Some x → action !! i = Some a →
      - Z.of_nat (length (Q_online x)) ≤ a < Z.of_nat (length (Q_online x))) →
   ∃ est, td_estimate self state action = Ok est
     ∧ graph_state est = state ∧ graph_action est = action
     ∧ length (values est) = n
     ∧ ∀ i x a, state !! i = Some x → action !! i = Some a →
         ∃ q, values est !! i = Some q
           ∧ py_index (Q_online x) a = Ok q
           ∧ (0 ≤ a → Q_online x !! Z.to_nat a = Some q))
  ∧ (∀ i x a, state !! i = Some x → action !! i = Some a →
       ¬ (- Z.of_nat (length (Q_online x)) ≤ a < Z.of_nat (length (Q_online x))) →
       td_estimate self state action = Raise IndexError).
Proof.
  intros n Q_online Hstate Haction. split.
  - intros Hrange.
    destruct (td_estimate_spec self state action Hstate Haction Hrange)
      as (vs & -> & Hlen & Hvs).
    eexists. split_and!; [done..|]. cbn.
    intros i x a Hx Ha. destruct (Hvs i x a Hx Ha) as (q & Hq & Hpy).
    exists q. split_and!; [done..|]. intros Hpos.
    apply py_index_Ok in Hpy as [_ Hq']. by destruct (decide (a < 0)); [lia|].
  - unfold td_estimate. rewrite net_call_online. cbn. fold Q_online.
    intros i x a Hx Ha Hout. unfold gather.
    rewrite broadcast2_same_length by (rewrite arange_length; lia).
    pose proof (lookup_lt_Some _ _ _ Ha) as Hi.
    rewrite (mapR_Raise _ _ IndexError (Z.of_nat i, a)); [done|..].
    + intros [r c] e'. cbn. destruct (py_index _ r) as [row|e0] eqn:Hr; cbn.
      * apply py_index_Raise.
      * intros [= <-]. by apply py_index_Raise in Hr.
    + apply list_elem_of_lookup. exists i.
      apply lookup_zip_Some; [|done]. apply arange_lookup. lia.
    + cbn. rewrite (py_index_nat _ _ (Q_online x))
        by (by rewrite list_lookup_fmap, Hx).
      cbn. destruct (py_index (Q_online x) a) as [q|e] eqn:Hpy.
      * apply py_index_Ok in Hpy as [? _]. done.
      * by apply py_index_Raise in Hpy as ->.
Qed.

(** ** [act] *)

(** X2: [act] writes only the exploration rate and the step counter of the
    agent, and in the world only advances numpy's generator, by one draw
    when it exploits and by two when it explores. *)
Theorem act_writes_rate_and_step_only state s w :
  (∃ e c, (act state s w).1.2 = set_curr_step c (set_exploration_rate e s))
  ∧ ∃ k, (k = 1 ∨ k = 2)%nat
      ∧ (act state s w).2 = set_np_random (drop k (np_random w)) w
      ∧ (¬ ((np_random_rand (np_random w)).1 < exploration_rate s)%Qc →
         k = 1%nat)
      ∧ (((np_random_rand (np_random w)).1 < exploration_rate s)%Qc →
         0 < action_dim s → k = 2%nat).
Proof.
  split.
  - pose proof (act_state state s w) as Hact.
    destruct ((act state s w).1.1); rewrite Hact.
    + by eexists _, _.
    + exists (exploration_rate s), (curr_step s). by destruct s.
  - unfold act. run.
    pose proof (np_random_rand_tape (np_random w)) as Ht.
    destruct (np_random_rand (np_random w)) as [u t1]. cbn in *. subst t1.
    destruct (decide (u < exploration_rate s)%Qc) as [Hu|Hu].
    + run. unfold np_random_randint.
      destruct (decide (action_dim s ≤ 0)); cbn.
      * exists 1%nat. split_and!; [by left|by destruct (np_random w)|done|lia].
      * exists 2%nat. split_and!; [by right|by destruct (np_random w) as [|? []]|done|done].
    + run. rewrite net_call_online. cbn.
      exists 1%nat.
      destruct (mapR argmax _) as [best|]; cbn;
        [destruct (item best); cbn|];
        (split_and!; [by left|by destruct (np_random w)|done|done]).
Qed.

(** X3: when [act] exploits, it returns the output of the online network
    on the observation and the first index at which it is maximal, a
    greedy action; without any output it raises [IndexError]. *)
Theorem act_exploit_is_greedy state s w :
  let row := sequential (state_dict (online (net s))) state in
  ¬ ((np_random_rand (np_random w)).1 < exploration_rate s)%Qc →
  (row = [] → (act state s w).1.1 = Raise IndexError)
  ∧ (row ≠ [] →
     ∃ best q,
       (act state s w).1.1 = Ok (Z.of_nat best, [row])
       ∧ row !! best = Some q
       ∧ (∀ j v, row !! j = Some v → (v ≤ q)%Qc)
       ∧ (∀ j v, row !! j = Some v → (j < best)%nat → (v < q)%Qc)).
Proof.
  intros row Hu. rewrite (act_exploit _ _ _ Hu). fold row. cbn. split.
  - intros ->. reflexivity.
  - intros Hrow. destruct (argmax_is_Ok _ Hrow) as [b Hb].
    change (mapR argmax [row]) with (y ← argmax row; ys ← Ok []; Ok (y :: ys)).
    rewrite Hb. cbn.
    destruct (argmax_spec _ _ Hb) as (q & Hq & Hmax & Hfirst).
    exists b, q. by split_and!.
Qed.

(** The exploration rate and the step counter after [n + 1] calls of
    [act] that all return. *)
Lemma act_all_run states state s w rs :
  (0 ≤ exploration_rate_min s)%Qc →
  (0 ≤ exploration_rate_decay s)%Qc → (exploration_rate_decay s ≤ 1)%Qc →
  (act_all (state :: states) s w).1.1 = Ok rs →
  let s' := (act_all (state :: states) s w).1.2 in
  exploration_rate s'
  = py_max (exploration_rate_min s)
      (exploration_rate s * exploration_rate_decay s ^ S (length states))%Qc
  ∧ curr_step s' = curr_step s + Z.of_nat (S (length states))
  ∧ exploration_rate_min s' = exploration_rate_min s
  ∧ exploration_rate_decay s' = exploration_rate_decay s
  ∧ length rs = S (length states).
Proof.
  revert state s w rs.
  induction states as [|state' states IH]; intros state s w rs Hm Hd0 Hd1.
  - cbn [act_all]. rewrite bind_run.
    pose proof (act_state state s w) as Hact.
    destruct (act state s w) as [[[r|e] s1] w1]; cbn in *; [|done].
    intros [= <-]. subst s1. cbn. rewrite Qcmult_1_r. by split_and!.
  - cbn [act_all]. rewrite bind_run.
    pose proof (act_state state s w) as Hact.
    destruct (act state s w) as [[[r|e] s1] w1]; cbn [fst snd] in *; [|done].
    subst s1. rewrite bind_run.
    specialize (IH state' (decayed s) w1).
    change (r0 ← act state'; rs0 ← act_all states; mret (r0 :: rs0))
      with (act_all (state' :: states)) in *.
    destruct (act_all (state' :: states) (decayed s) w1)
      as [[[rs'|e] s2] w2]; cbn [fst snd] in *; [|done].
    intros [= <-].
    destruct (IH rs' Hm Hd0 Hd1 eq_refl) as (Hrate & Hstep & Hmin & Hdec & Hlen).
    change (exploration_rate_min (decayed s)) with (exploration_rate_min s)
      in *.
    change (exploration_rate_decay (decayed s))
      with (exploration_rate_decay s) in *.
    change (exploration_rate (decayed s))
      with (py_max (exploration_rate_min s)
              (exploration_rate s * exploration_rate_decay s)%Qc) in *.
    change (curr_step (decayed s)) with (curr_step s + 1) in *.
    unfold mret, M_ret. cbn [fst snd length].
    split_and!; [|lia|done|done|by rewrite Hlen].
    rewrite Hrate.
    rewrite py_max_decay;
      [|done|by apply Qcpower_pos|by apply Qcpower_le_1].
    f_equal. set (k := S (length states)). cbn [Qcpower]. ring.
Qed.

(** X4: after [n >= 1] calls of [act] that all return, with a decay in
    [0, 1] and a floor that is not negative, the exploration rate is
    [max(exploration_rate_min, e * decay ^ n)] and the step counter has
    advanced by [n]. *)
Theorem act_all_schedule states s w rs :
  states ≠ [] →
  (0 ≤ exploration_rate_min s)%Qc →
  (0 ≤ exploration_rate_decay s)%Qc → (exploration_rate_decay s ≤ 1)%Qc →
  (act_all states s w).1.1 = Ok rs →
  let s' := (act_all states s w).1.2 in
  exploration_rate s'
  = py_max (exploration_rate_min s)
      (exploration_rate s * exploration_rate_decay s ^ length states)%Qc
  ∧ curr_step s' = curr_step s + Z.of_nat (length states)
  ∧ length rs = length states.
Proof.
  destruct states as [|state states]; [done|]. intros _ Hm Hd0 Hd1 Hrs.
  destruct (act_all_run states state s w rs Hm Hd0 Hd1 Hrs)
    as (? & ? & _ & _ & ?).
  done.
Qed.

(** X5: with an exploration rate of at least 1, as a new agent has by
    default, [act] always explores, whatever numpy draws: it does not look
    at the network.  With an exploration rate of at most 0 it always
    exploits. *)
Theorem act_rate_extremes state s w :
  ((1 ≤ exploration_rate s)%Qc →
     (act state s w).1.1
     = (a ← (np_random_randint (action_dim s) (tail (np_random w))).1;
        Ok (a, [[1; 1; 1; 1; 1; 1]]%Qc)))
  ∧ ((exploration_rate s ≤ 0)%Qc →
     (act state s w).1.1
     = (let action_values :=
          [sequential (state_dict (online (net s))) state] in
        best ← mapR argmax action_values;
        a ← item best;
        Ok (Z.of_nat a, action_values))).
Proof.
  destruct (np_random_rand_range (np_random w)) as [H0 H1]. split; intros He.
  - apply act_explore. by eapply Qclt_le_trans.
  - apply act_exploit. apply Qcle_not_lt. by eapply Qcle_trans.
Qed.

(** ** The gradient step *)

(** [update_Q_online] in one step: the loss, then the gradients of the
    online parameters reset, computed and applied. *)
Lemma update_Q_online_run est tgt s w :
  update_Q_online est tgt s w
  = match loss_fn (values est) tgt with
    | Ok l =>
        (Ok l,
         set_optimizer
           (optimizer_step (optimizer s)
              (backward (zero_grad (net s)) est tgt)).2
           (set_net
              (optimizer_step (optimizer s)
                 (backward (zero_grad (net s)) est tgt)).1 s), w)
    | Raise e => (Raise e, s, w)
    end.
Proof.
  unfold update_Q_online. rewrite bind_run. unfold lift at 1.
  destruct (loss_fn (values est) tgt) as [l|e]; [|done].
  cbv beta iota. do 3 (rewrite bind_run; unfold modify at 1; cbv beta iota).
  unfold mret, M_ret. f_equal. f_equal. destruct s. cbn.
  by destruct (optimizer_step _ _).
Qed.

(** What [learn] does at a learning step, after the synchronisation. *)
Lemma learn_after_sync_step self s w :
  burn_in self ≤ curr_step self →
  py_mod (curr_step self) (learn_every self) = Ok 0 →
  learn_after_sync self s w
  = match recall s w with
    | (Ok (state, next_state, action, reward, done), s1, w1) =>
        match td_estimate s1 state action with
        | Ok est =>
            match td_target s1 reward next_state done with
            | Ok tgt =>
                match update_Q_online est tgt s1 w1 with
                | (Ok l, s2, w2) =>
                    (Ok (Some (mean (values est)), Some l),
                     set_Q (Some (mean (values est))) (set_loss l s2), w2)
                | (Raise e, s2, w2) => (Raise e, s2, w2)
                end
            | Raise e => (Raise e, s1, w1)
            end
        | Raise e => (Raise e, s1, w1)
        end
    | (Raise e, s1, w1) => (Raise e, s1, w1)
    end.
Proof.
  intros Hburn Hmod. unfold learn_after_sync.
  destruct (decide (curr_step self < burn_in self)); [lia|].
  rewrite bind_run. unfold lift at 1. rewrite Hmod. cbv beta iota.
  destruct (decide (0 ≠ 0)); [done|].
  rewrite bind_run.
  destruct (recall s w) as [[[[[[[st nst] a] rw] d]|e] s1] w1];
    cbv beta iota; [|done].
  rewrite bind_run. cbn [get]. cbv beta iota.
  rewrite bind_run. unfold lift at 1.
  destruct (td_estimate _ _ _) as [est|e]; cbv beta iota; [|done].
  rewrite bind_run. unfold lift at 1.
  destruct (td_target _ _ _ _) as [tgt|e]; cbv beta iota; [|done].
  rewrite bind_run.
  destruct (update_Q_online _ _ _ _) as [[[l|e] s2] w2]; cbv beta iota;
    [|done].
  do 2 (rewrite bind_run; unfold modify at 1; cbv beta iota).
  done.
Qed.

(** X6: whatever it returns or raises, [learn] writes of the agent only the
    network, the optimizer, [Q] and [loss], and in the world only advances
    the generator of [random]: the step counter, the exploration rate, the
    buffer, every hyperparameter, numpy's and torch's generators and the
    disk are as before. *)
Theorem learn_writes s w :
  (∃ n o q l,
     (learn s w).1.2 = set_Q q (set_loss l (set_optimizer o (set_net n s))))
  ∧ ∃ t, (learn s w).2 = set_py_random t w.
Proof.
  set (P := λ (s' : Ship) (w' : world),
    (∃ n o q l, s' = set_Q q (set_loss l (set_optimizer o (set_net n s))))
    ∧ ∃ t, w' = set_py_random t w).
  assert (P s w) as HP.
  { split.
    - exists (net s), (optimizer s), (Q s), (loss s). by destruct s.
    - exists (py_random w). by destruct w. }
  assert (∀ f : Ship → Ship,
            (∀ s1, ∃ n o q l,
               f s1 = set_Q q (set_loss l (set_optimizer o (set_net n s1)))) →
            preserves P (modify f)) as Hmod.
  { intros f Hf. apply preserves_modify.
    intros s1 w1 [(n & o & q & l & ->) Hw]. split; [|done].
    destruct (Hf (set_Q q (set_loss l (set_optimizer o (set_net n s)))))
      as (n' & o' & q' & l' & ->).
    by exists n', o', q', l'. }
  assert (∀ n, preserves P (modify (λ s1, set_net (n s1) s1))) as Hnet.
  { intros n. apply Hmod. intros s1.
    exists (n s1), (optimizer s1), (Q s1), (loss s1). by destruct s1. }
  assert (∀ A (f : tape → A * tape), preserves P (with_py_random f)) as Hpy.
  { intros A f. apply preserves_with_py_random.
    intros s1 w1 t [Hs (t1 & ->)]. split; [done|]. by exists t. }
  assert (preserves P sync_Q_target) as Hsync.
  { intros s1 w1. unfold sync_Q_target.
    destruct (load_state_dict _ _) as [r tg]. cbn.
    apply (Hnet (λ s1, mkShipNet (online (net s1)) tg) s1 w1). }
  assert (preserves P recall) as Hrecall.
  { unfold recall.
    apply preserves_bind; [apply preserves_get|intros self].
    apply preserves_bind; [apply Hpy|intros r].
    apply preserves_bind; [apply preserves_lift|intros picked].
    destruct picked; [apply preserves_lift|apply preserves_ret]. }
  assert (∀ est tgt, preserves P (update_Q_online est tgt)) as Hupdate.
  { intros est tgt. unfold update_Q_online.
    apply preserves_bind; [apply preserves_lift|intros l].
    apply preserves_bind; [apply (Hnet (λ s1, zero_grad (net s1)))|intros _].
    apply preserves_bind;
      [apply (Hnet (λ s1, backward (net s1) est tgt))|intros _].
    apply preserves_bind; [|intros _; apply preserves_ret].
    apply Hmod. intros s1. destruct (optimizer_step _ _) as [net' opt'].
    exists net', opt', (Q s1), (loss s1). by destruct s1. }
  assert (preserves P learn) as Hlearn.
  { unfold learn.
    apply preserves_bind; [apply preserves_get|intros self].
    apply preserves_bind; [apply preserves_lift|intros r].
    apply preserves_bind; [destruct (decide _); [done|apply preserves_ret]|].
    intros _. destruct (decide _); [apply preserves_ret|].
    apply preserves_bind; [apply preserves_lift|intros r'].
    destruct (decide _); [apply preserves_ret|].
    apply preserves_bind; [done|intros [[[[st nst] a] rw] d]].
    apply preserves_bind; [apply preserves_get|intros self'].
    apply preserves_bind; [apply preserves_lift|intros est].
    apply preserves_bind; [apply preserves_lift|intros tgt].
    apply preserves_bind; [done|intros l].
    apply preserves_bind; [|intros _].
    { apply Hmod. intros s1.
      exists (net s1), (optimizer s1), (Q s1), l. by destruct s1. }
    apply preserves_bind; [|intros _].
    { apply Hmod. intros s1.
      exists (net s1), (optimizer s1), (Some (mean (values est))), (loss s1).
      by destruct s1. }
    apply preserves_bind; [apply preserves_get|intros self''].
    apply preserves_ret. }
  exact (Hlearn s w HP).
Qed.

(** ** One step of the optimizer *)

Lemma adam_step_from_state_below lr i ps st k :
  (k < i)%nat → (adam_step_from lr i ps st).2 !! k = st !! k.
Proof.
  revert i st. induction ps as [|p ps IH]; intros i st Hk; cbn; [done|].
  destruct (grad p) as [g|].
  - destruct (adam_rule _ _ _ _) as [d m].
    specialize (IH (S i) (<[i:=m]> st)).
    destruct (adam_step_from _ _ _ _). cbn in *.
    rewrite IH by lia. apply lookup_insert_ne. lia.
  - specialize (IH (S i) st).
    destruct (adam_step_from _ _ _ _). cbn in *. apply IH. lia.
Qed.

(** The parameter at position [j] after the step, and the state kept for
    it. *)
Lemma adam_step_from_lookup lr i ps st j p :
  ps !! j = Some p →
  (adam_step_from lr i ps st).1 !! j
  = Some (match grad p with
          | Some g =>
              set_data (adam_rule lr (st !! (i + j)%nat) (data p) g).1 p
          | None => p
          end)
  ∧ (adam_step_from lr i ps st).2 !! (i + j)%nat
    = match grad p with
      | Some g => Some (adam_rule lr (st !! (i + j)%nat) (data p) g).2
      | None => st !! (i + j)%nat
      end.
Proof.
  revert i st j. induction ps as [|p0 ps IH]; intros i st j Hj; [done|].
  destruct j as [|j]; cbn in Hj.
  - injection Hj as ->. rewrite Nat.add_0_r. cbn.
    destruct (grad p) as [g|].
    + destruct (adam_rule lr (st !! i) (data p) g) as [d m].
      pose proof (adam_step_from_state_below lr (S i) ps (<[i:=m]> st) i)
        as Hbelow.
      destruct (adam_step_from _ _ _ _). cbn in *. split; [done|].
      rewrite Hbelow by lia. apply lookup_insert_eq.
    + pose proof (adam_step_from_state_below lr (S i) ps st i) as Hbelow.
      destruct (adam_step_from _ _ _ _). cbn in *. split; [done|].
      apply Hbelow. lia.
  - replace (i + S j)%nat with (S i + j)%nat by lia. cbn.
    destruct (grad p0) as [g0|].
    + destruct (adam_rule lr (st !! i) (data p0) g0) as [d m].
      specialize (IH (S i) (<[i:=m]> st) j Hj).
      rewrite (lookup_insert_ne st i (S i + j)%nat) in IH by lia.
      by destruct (adam_step_from _ _ _ _).
    + specialize (IH (S i) st j Hj).
      by destruct (adam_step_from _ _ _ _).
Qed.

(** When the loss is defined, [update_Q_online] returns it and takes one
    Adam step: an online parameter that requires a gradient gets the
    gradient of this loss alone and the value Adam's rule gives. *)
Lemma update_Q_online_step est tgt s w l :
  let s' := (update_Q_online est tgt s w).1.2 in
  loss_fn (values est) tgt = Ok l →
  update_Q_online est tgt s w = (Ok l, s', w)
  ∧ adam_lr (optimizer s') = adam_lr (optimizer s)
  ∧ length (online (net s')) = length (online (net s))
  ∧ ∀ i p, online (net s) !! i = Some p → requires_grad p = true →
      let g := loss_gradient (state_dict (online (net s))) i
                 (graph_state est) (graph_action est) tgt in
      let r := adam_rule (adam_lr (optimizer s))
                 (adam_state (optimizer s) !! i) (data p) g in
      online (net s') !! i = Some (mkParameter r.1 true (Some g))
      ∧ adam_state (optimizer s') !! i = Some r.2.
Proof.
  intros s'. subst s'. rewrite update_Q_online_run.
  intros ->. cbn [fst snd]. split; [done|].
  unfold optimizer_step, parameters.
  set (net1 := backward (zero_grad (net s)) est tgt).
  assert (length (online net1) = length (online (net s))) as Hlen1.
  { unfold net1. cbn. by rewrite length_imap, length_fmap. }
  rewrite adam_step_from_app.
  pose proof (adam_step_from_length (adam_lr (optimizer s)) 0 (online net1)
                (adam_state (optimizer s))) as Hlen.
  pose proof (adam_step_from_lookup (adam_lr (optimizer s)) 0 (online net1)
                (adam_state (optimizer s))) as Hlook.
  destruct (adam_step_from _ 0 (online net1) _) as [on st1].
  pose proof (adam_step_from_length (adam_lr (optimizer s))
                (0 + length (online net1)) (target net1) st1) as Hlen'.
  pose proof (adam_step_from_state_below (adam_lr (optimizer s))
                (0 + length (online net1)) (target net1) st1) as Hbelow.
  destruct (adam_step_from _ _ (target net1) _) as [tg st2].
  cbn [fst snd] in *. cbn [net set_net set_optimizer optimizer adam_lr
    adam_state online].
  rewrite <- Hlen, take_app_length. split_and!; [done|congruence|].
  intros i p Hp Hrg.
  assert (online net1 !! i
          = Some (mkParameter (data p) true
                    (Some (loss_gradient (state_dict (online (net s))) i
                             (graph_state est) (graph_action est) tgt))))
    as Hp1.
  { unfold net1. cbn. rewrite list_lookup_imap, list_lookup_fmap, Hp. cbn.
    rewrite Hrg. unfold state_dict. rewrite <- list_fmap_compose.
    destruct p as [d rg gr]. cbn in Hrg. subst rg. reflexivity. }
  destruct (Hlook i _ Hp1) as [Hon Hst]. cbn in Hon, Hst.
  split; [done|]. rewrite Hbelow; [done|].
  apply lookup_lt_Some in Hp1. lia.
Qed.

(** A learning step on a buffer that holds a batch of well-shaped
    experiences returns the mean estimate and the loss against the TD
    target of the batch. *)
Lemma learn_after_sync_Ok self s w :
  let Q_online := sequential (state_dict (online (net s))) in
  let Q_target := sequential (state_dict (target (net s))) in
  burn_in self ≤ curr_step self →
  py_mod (curr_step self) (learn_every self) = Ok 0 →
  1 ≤ batch_size s ≤ Z.of_nat (length (items (memory s))) →
  (∀ t, t ∈ items (memory s) →
     (- Z.of_nat (length (Q_online (t_state t))) ≤ t_action t
      < Z.of_nat (length (Q_online (t_state t))))
     ∧ Q_online (t_next_state t) ≠ []
     ∧ length (Q_target (t_next_state t))
       = length (Q_online (t_next_state t))) →
  ∃ idxs picked est tgt l s' t',
    learn_after_sync self s w
    = (Ok (Some (mean est), Some l), s', set_py_random t' w)
    ∧ NoDup idxs
    ∧ Forall2 (λ i t, items (memory s) !! i = Some t) idxs picked
    ∧ length picked = Z.to_nat (batch_size s)
    ∧ Forall2 (λ t q, py_index (Q_online (t_state t)) (t_action t) = Ok q)
        picked est
    ∧ td_target s (t_reward <$> picked) (t_next_state <$> picked)
        (t_done <$> picked) = Ok tgt
    ∧ length tgt = Z.to_nat (batch_size s)
    ∧ l = mean_value (zip_with smooth_l1_float est tgt)
    ∧ Q s' = Some (mean est)
    ∧ loss s' = l
    ∧ value_nonneg l.
Proof.
  intros Q_online Q_target Hburn Hmod Hbatch Hshape.
  rewrite (learn_after_sync_step _ _ _ Hburn Hmod), recall_run.
  destruct (random_sample_spec (items (memory s)) (batch_size s) (py_random w))
    as [_ Hmany].
  destruct Hmany as (idxs & picked & t' & -> & Hidxs & Hnodup & Hall); [lia|].
  pose proof (Forall2_length _ _ _ Hall) as Hlen. rewrite Hidxs in Hlen.
  assert (∀ t, t ∈ picked → t ∈ items (memory s)) as Hin.
  { intros t Ht. apply list_elem_of_lookup in Ht as [j Hj].
    destruct (Forall2_lookup_r _ _ _ _ _ Hall Hj) as (i & _ & Hi).
    apply list_elem_of_lookup. by exists i. }
  destruct picked as [|t0 picked0] eqn:Hpicked; [cbn in Hlen; lia|].
  rewrite <- Hpicked in *. clear Hpicked t0 picked0.
  (* the estimate *)
  destruct (td_estimate_spec s (t_state <$> picked) (t_action <$> picked))
    as (est & -> & Hest & Hvals).
  { by rewrite length_fmap. }
  { by rewrite length_fmap. }
  { intros i x a Hx Ha.
    rewrite list_lookup_fmap in Hx. rewrite list_lookup_fmap in Ha.
    destruct (picked !! i) as [t|] eqn:Ht; [|done].
    cbn in Hx, Ha. injection Hx as <-. injection Ha as <-.
    apply Hshape, Hin. apply list_elem_of_lookup. by exists i. }
  (* the target *)
  destruct (td_target_spec s (t_reward <$> picked) (t_next_state <$> picked)
              (t_done <$> picked)) as (tgt & Htgt & Htlen & _).
  { by rewrite length_fmap. }
  { by rewrite length_fmap. }
  { by rewrite length_fmap. }
  { intros x Hx. apply list_elem_of_fmap in Hx as (t & -> & Ht).
    apply Hshape, Hin, Ht. }
  rewrite Htgt.
  (* the gradient step *)
  rewrite update_Q_online_run. cbn [values].
  destruct (loss_fn_same_length est tgt) as [-> Hloss]; [congruence|].
  exists idxs, picked, est, tgt. eexists. eexists. exists t'.
  split_and!; [reflexivity|done|done|done| |done..].
  apply Forall2_same_length_lookup_2; [congruence|].
  intros i t q Ht Hq.
  destruct (Hvals i (t_state t) (t_action t)) as (q' & Hq' & Hpy).
  { by rewrite list_lookup_fmap, Ht. }
  { by rewrite list_lookup_fmap, Ht. }
  rewrite Hq in Hq'. injection Hq' as <-. exact Hpy.
Qed.

(** With a sync cadence that is not zero, [learn] is its synchronisation
    step, which returns, followed by the rest. *)
Lemma learn_synced s w :
  inv s w → sync_every s ≠ 0 →
  ∃ tg,
    learn s w
    = learn_after_sync s (set_net (mkShipNet (online (net s)) tg) s) w
    ∧ state_dict tg
      = (if decide (curr_step s `mod` sync_every s = 0)
         then state_dict (online (net s))
         else state_dict (target (net s)))
    ∧ (curr_step s `mod` sync_every s ≠ 0 → tg = target (net s)).
Proof.
  intros Hinv Hsync. rewrite learn_run. unfold py_mod.
  destruct (decide (sync_every s = 0)); [done|].
  destruct (decide (curr_step s `mod` sync_every s = 0)) as [Hmod|Hmod].
  - destruct (sync_Q_target_run s w (inv_keys _ _ Hinv))
      as (tg & -> & Hsd & _).
    by exists tg.
  - exists (target (net s)). split_and!; [|done..].
    by destruct s as [? ? ? ? []].
Qed.

(** X7: a cadence of zero makes [learn] raise [ZeroDivisionError].  With
    [sync_every = 0] it raises at once, at every step, and changes nothing.
    With [learn_every = 0] it returns [(None, None)] during burn-in, where
    the cadence is not looked at, and raises at every step from [burn_in]
    on, after the synchronisation step and before anything is sampled. *)
Theorem learn_zero_cadence s w :
  (sync_every s = 0 → learn s w = (Raise ZeroDivisionError, s, w))
  ∧ (reachable s w → sync_every s ≠ 0 → learn_every s = 0 →
     ∃ tg,
       learn s w
       = (if decide (curr_step s < burn_in s) then Ok (None, None)
          else Raise ZeroDivisionError,
          set_net (mkShipNet (online (net s)) tg) s, w)
       ∧ (curr_step s `mod` sync_every s ≠ 0 → tg = target (net s))).
Proof.
  split.
  - intros Hsync. rewrite learn_run. unfold py_mod.
    by destruct (decide (sync_every s = 0)).
  - intros Hreach Hsync Hlearn. apply reachable_inv in Hreach as Hinv.
    destruct (learn_synced s w Hinv Hsync) as (tg & -> & _ & Htg).
    exists tg. split; [|done]. unfold learn_after_sync.
    destruct (decide (curr_step s < burn_in s)); [done|].
    rewrite bind_run. unfold lift at 1, py_mod.
    by destruct (decide (learn_every s = 0)).
Qed.

(** X8: at a learning step past burn-in, [learn] raises the [ValueError]
    of [random.sample] when the buffer holds fewer than [batch_size]
    experiences, which is always so for a batch size above the capacity of
    1000: no gradient step is taken, nothing is drawn, and only the
    synchronisation step, which came first, has written. *)
Theorem learn_needs_a_full_batch s w :
  reachable s w →
  sync_every s ≠ 0 →
  burn_in s ≤ curr_step s →
  learn_every s ≠ 0 → curr_step s `mod` learn_every s = 0 →
  Z.of_nat (length (items (memory s))) < batch_size s
  ∨ 1000 < batch_size s →
  ∃ tg,
    learn s w
    = (Raise (ValueError SampleLargerThanPopulation),
       set_net (mkShipNet (online (net s)) tg) s, w)
    ∧ (curr_step s `mod` sync_every s ≠ 0 → tg = target (net s)).
Proof.
  intros Hreach Hsync Hburn Hevery Hstep Hfew.
  apply reachable_inv in Hreach as Hinv.
  destruct (learn_synced s w Hinv Hsync) as (tg & -> & _ & Htg).
  exists tg. split; [|done].
  rewrite learn_after_sync_step; [|done|].
  - rewrite recall_run.
    destruct (random_sample_spec (items (memory s)) (batch_size s)
                (py_random w)) as [Hraise _].
    cbn [memory batch_size set_net]. rewrite Hraise.
    + by destruct w.
    + pose proof (inv_size _ _ Hinv). lia.
  - unfold py_mod. destruct (decide (learn_every s = 0)); [done|].
    by rewrite Hstep.
Qed.

(** X9: at a learning step past burn-in, on a buffer that holds at least
    [batch_size >= 1] experiences, each with an action the online network
    has a value for and a next state on which both networks give as many
    values, at least one, [learn] returns: it samples [batch_size]
    experiences at pairwise different positions of the buffer, and returns
    the mean of the online values of their actions and the loss, the mean
    smooth L1 loss between these values and the TD target that
    [td_target] gives for the sampled rewards, next states and flags on
    the agent as the synchronisation step left it (the online parameters
    the call started with; the target parameters those, or the ones it
    had when the step is no multiple of [sync_every]).  The two numbers
    are stored in [Q] and [loss]; the loss is not negative. *)
Theorem learn_gradient_step s w :
  let Q_online := sequential (state_dict (online (net s))) in
  let Q_target := sequential (state_dict (target (net s))) in
  reachable s w →
  sync_every s ≠ 0 →
  burn_in s ≤ curr_step s →
  learn_every s ≠ 0 → curr_step s `mod` learn_every s = 0 →
  1 ≤ batch_size s ≤ Z.of_nat (length (items (memory s))) →
  (∀ t, t ∈ items (memory s) →
     (- Z.of_nat (length (Q_online (t_state t))) ≤ t_action t
      < Z.of_nat (length (Q_online (t_state t))))
     ∧ Q_online (t_next_state t) ≠ []
     ∧ length (Q_target (t_next_state t))
       = length (Q_online (t_next_state t))) →
  ∃ idxs picked est tg tgt l s' t',
    learn s w = (Ok (Some (mean est), Some l), s', set_py_random t' w)
    ∧ NoDup idxs
    ∧ Forall2 (λ i t, items (memory s) !! i = Some t) idxs picked
    ∧ length picked = Z.to_nat (batch_size s)
    ∧ Forall2 (λ t q, py_index (Q_online (t_state t)) (t_action t) = Ok q)
        picked est
    ∧ state_dict tg
      = (if decide (curr_step s `mod` sync_every s = 0)
         then state_dict (online (net s))
         else state_dict (target (net s)))
    ∧ td_target (set_net (mkShipNet (online (net s)) tg) s)
        (t_reward <$> picked) (t_next_state <$> picked) (t_done <$> picked)
      = Ok tgt
    ∧ length tgt = Z.to_nat (batch_size s)
    ∧ l = mean_value (zip_with smooth_l1_float est tgt)
    ∧ Q s' = Some (mean est)
    ∧ loss s' = l
    ∧ value_nonneg l.
Proof.
  intros Q_online Q_target Hreach Hsync Hburn Hevery Hstep Hbatch Hshape.
  apply reachable_inv in Hreach as Hinv.
  destruct (learn_synced s w Hinv Hsync) as (tg & -> & Hsd & _).
  destruct (learn_after_sync_Ok s
              (set_net (mkShipNet (online (net s)) tg) s) w)
    as (idxs & picked & est & tgt & l & s' & t' & Hrun & Hnodup & Hall & Hlen
        & Hest & Htd & Htgt & Hl & HQ & Hloss & Hpos).
  - done.
  - unfold py_mod. destruct (decide (learn_every s = 0)); [done|].
    by rewrite Hstep.
  - done.
  - cbn [memory net set_net online target]. rewrite Hsd.
    intros t Ht. destruct (Hshape t Ht) as (Ha & Hne & Hl).
    split; [exact Ha|split; [exact Hne|]]. by destruct (decide _).
  - by exists idxs, picked, est, tg, tgt, l, s', t'.
Qed.

(** ** Loading the values a module already has *)

Lemma load_state_dict_id ps sd :
  state_dict ps = sd → load_state_dict ps sd = (Ok (), ps).
Proof.
  intros <-. unfold load_state_dict, state_dict.
  rewrite length_fmap, drop_all, app_nil_r.
  destruct (decide (length ps = length ps)) as [_|]; [|done]. f_equal.
  induction ps as [|p ps IH]; cbn; [done|]. rewrite IH. by destruct p.
Qed.

(** X10: on every reachable state [sync_Q_target] returns, and a second
    synchronisation right after it changes nothing; neither does the first
    when the target values already equal the online ones. *)
Theorem sync_Q_target_idempotent s w :
  reachable s w →
  ∃ s1, sync_Q_target s w = (Ok (), s1, w)
      ∧ sync_Q_target s1 w = (Ok (), s1, w)
      ∧ (state_dict (target (net s)) = state_dict (online (net s)) → s1 = s).
Proof.
  intros Hreach. apply reachable_inv in Hreach as Hinv.
  destruct (sync_Q_target_run s w (inv_keys _ _ Hinv)) as (tg & Hrun & Hsd & _).
  eexists. split_and!; [exact Hrun| |].
  - unfold sync_Q_target. cbn [net set_net online target].
    by rewrite (load_state_dict_id tg).
  - intros Heq. revert Hrun. unfold sync_Q_target.
    rewrite (load_state_dict_id (target (net s))) by done.
    intros [= <-]. by destruct s as [? ? ? ? []].
Qed.

(** ** Checkpoints *)

(** [load], case by case. *)
Lemma load_unfold path s w :
  load path s w
  = match disk w !! path with
    | None => (Raise FileNotFoundError, s, w)
    | Some c =>
        match net_load_state_dict (ck_net c) s w with
        | (Ok _, s1, w1) =>
            match Adam_init (ck_lr c) with
            | Ok opt =>
                (Ok (),
                 mkShip (state_dim s1) (action_dim s1) (save_dir s1) (lr s1)
                   (net s1) (ck_exploration_rate c)
                   (ck_exploration_rate_decay c) (ck_exploration_rate_min c)
                   (ck_curr_step c) (ck_save_every c) (ck_memory c)
                   (ck_batch_size c) (Q s1) (ck_gamma c) (loss s1) opt
                   (ck_burn_in c) (ck_learn_every c) (ck_sync_every c), w1)
            | Raise e =>
                (Raise e,
                 mkShip (state_dim s1) (action_dim s1) (save_dir s1) (lr s1)
                   (net s1) (ck_exploration_rate c)
                   (ck_exploration_rate_decay c) (ck_exploration_rate_min c)
                   (curr_step s1) (ck_save_every c) (memory s1)
                   (ck_batch_size c) (Q s1) (ck_gamma c) (loss s1)
                   (optimizer s1) (burn_in s1) (learn_every s1)
                   (sync_every s1), w1)
            end
        | (Raise e, s1, w1) => (Raise e, s1, w1)
        end
    end.
Proof.
  unfold load. rewrite bind_run. unfold torch_load at 1.
  destruct (disk w !! path) as [c|]; [|done]. cbv beta iota.
  rewrite bind_run.
  destruct (net_load_state_dict (ck_net c) s w) as [[[[]|e] s1] w1];
    [|done].
  cbv beta iota.
  do 6 (rewrite bind_run; unfold modify at 1; cbv beta iota).
  rewrite bind_run. unfold lift at 1.
  destruct (Adam_init (ck_lr c)) as [opt|e]; cbv beta iota.
  - do 5 (rewrite bind_run; unfold modify at 1; cbv beta iota).
    unfold modify. by destruct s1.
  - by destruct s1.
Qed.

Lemma net_load_state_dict_raise sd s w :
  ¬ (length (online (net s)) = length sd.1
     ∧ length (target (net s)) = length sd.2) →
  ∃ net', net_load_state_dict sd s w = (Raise RuntimeError, set_net net' s, w).
Proof.
  intros Hkeys. unfold net_load_state_dict.
  destruct (load_state_dict (online (net s)) sd.1) as [r1 on] eqn:H1.
  destruct (load_state_dict (target (net s)) sd.2) as [r2 tg] eqn:H2.
  exists (mkShipNet on tg). unfold load_state_dict in H1, H2.
  injection H1 as <- _. injection H2 as <- _.
  destruct (decide (length (online (net s)) = length sd.1)); [|done].
  destruct (decide (length (target (net s)) = length sd.2)); [|done].
  by destruct Hkeys.
Qed.


(** X12: an agent that saves itself and loads the file back is as it was,
    except for its optimizer, which is a new one with the learning rate
    [lr] and none of the state Adam had accumulated: a checkpoint does not
    hold the state of the optimizer. *)
Theorem save_then_load_resets_optimizer s w :
  reachable s w →
  load (checkpoint_path s) s (save s w).2
  = (Ok (), set_optimizer (mkAdam (lr s) ∅) s, (save s w).2).
Proof.
  intros Hreach. apply reachable_inv in Hreach as Hinv.
  rewrite save_run, load_unfold. cbn [snd disk set_disk].
  rewrite lookup_insert_eq.
  unfold net_load_state_dict. cbn [ck_net checkpoint_of net_state_dict fst snd].
  rewrite !load_state_dict_id by done. cbn [ck_lr checkpoint_of].
  rewrite (Adam_init_nonneg _ (inv_lr _ _ Hinv)).
  by destruct s as [? ? ? ? []].
Qed.

(** X13: [save] writes one file per step counter.  Two checkpoints of one
    directory taken at different steps are two files, and the second [save]
    leaves the first file as it was written; at the same step the second
    replaces the first.  Every other file of the disk is left alone, and
    [save] changes nothing of the agent. *)
Theorem save_one_file_per_step s1 s2 w :
  save_dir s1 = save_dir s2 →
  let w1 := (save s1 w).2 in
  let w2 := (save s2 w1).2 in
  (save s2 w1).1 = (Ok (checkpoint_path s2), s2)
  ∧ disk w2 !! checkpoint_path s2 = Some (checkpoint_of s2)
  ∧ (checkpoint_path s1 = checkpoint_path s2 ↔ curr_step s1 = curr_step s2)
  ∧ (curr_step s1 ≠ curr_step s2 →
     disk w2 !! checkpoint_path s1 = Some (checkpoint_of s1))
  ∧ (∀ p, p ≠ checkpoint_path s1 → p ≠ checkpoint_path s2 →
       disk w2 !! p = disk w !! p).
Proof.
  intros Hdir w1 w2. subst w1 w2. rewrite !save_run. cbn [fst snd disk set_disk].
  assert (checkpoint_path s1 = checkpoint_path s2 ↔ curr_step s1 = curr_step s2)
    as Hpath.
  { unfold checkpoint_path. rewrite Hdir. split; [|by intros ->].
    intros Heq. apply String.app_inj, String.app_inj in Heq.
    apply string_app_inj_r in Heq. by apply pretty_Z_inj in Heq. }
  split_and!; [done| |done| |].
  - apply lookup_insert_eq.
  - intros Hstep. rewrite lookup_insert_ne by (intros Heq; apply Hstep, Hpath; done).
    apply lookup_insert_eq.
  - intros p Hp1 Hp2. by rewrite !lookup_insert_ne.
Qed.

(** ** Construction *)

(** X14: [Ship.__init__] returns exactly when the frames are 84 by 84,
    the number of channels and [action_dim] are not negative and the
    learning rate is not negative.  After the checks of the height and the
    width, a negative number of channels makes the first layer raise
    [RuntimeError] before any weight is drawn; a negative [action_dim]
    makes the last layer raise [RuntimeError] after the layers before it
    drew theirs; a negative learning rate is rejected by Adam, after the
    network was built.  The new agent is at step 0, with an empty buffer
    of capacity 1000, no [Q], a loss of 0, the arguments it was given, and
    an optimizer of the given learning rate without state.  Its online
    parameters are the fresh weights, torch's generator having advanced by
    one draw; they require a gradient and hold none; the target parameters
    hold the same values and are frozen. *)
Theorem Ship_init_fresh c h wd ad dir er erd erm se bs g l bi le sy w :
  let r := Ship_init (c, h, wd) ad dir er erd erm se bs g l bi le sy w in
  let w1 := set_torch_random (tail (torch_random w)) w in
  (is_Ok r.1 ↔ h = 84 ∧ wd = 84 ∧ 0 ≤ c ∧ 0 ≤ ad ∧ (0 ≤ l)%Qc)
  ∧ (h = 84 → wd = 84 → c < 0 → r = (Raise RuntimeError, w))
  ∧ (h = 84 → wd = 84 → 0 ≤ c → ad < 0 → r = (Raise RuntimeError, w1))
  ∧ (h = 84 → wd = 84 → 0 ≤ c → 0 ≤ ad → (l < 0)%Qc →
     r = (Raise (ValueError (InvalidLearningRate l)), w1))
  ∧ ∀ s, r.1 = Ok s →
      r.2 = w1
      ∧ s = mkShip (c, h, wd) ad dir l (net s) er erd erm 0 se (Deque 1000 [])
              bs None g (Exactly 0) (mkAdam l ∅) bi le sy
      ∧ state_dict (online (net s))
        = fresh_weights c ad (hd 0%N (torch_random w))
      ∧ state_dict (target (net s)) = state_dict (online (net s))
      ∧ Forall (λ p, requires_grad p = true ∧ grad p = None) (online (net s))
      ∧ Forall frozen (target (net s)).
Proof.
  intros r w1. subst r w1. unfold Ship_init, ShipNet_init.
  destruct (decide (h ≠ 84)) as [Hh|Hh].
  { cbn. split_and!; [|done..]. split; [by intros [s Hs]|].
    by intros (? & _). }
  destruct (decide (wd ≠ 84)) as [Hw|Hw].
  { cbn. split_and!; [|done..]. split; [by intros [s Hs]|].
    by intros (_ & ? & _). }
  apply dec_stable in Hh, Hw.
  destruct (decide (c < 0)) as [Hc|Hc].
  { cbn. split_and!; [|by destruct w|intros; lia|intros; lia|done].
    split; [by intros [s Hs]|]. intros (_ & _ & ? & _). lia. }
  cbn [draw].
  destruct (decide (ad < 0)) as [Had|Had].
  { cbn. split_and!; [|intros; lia|done|intros; lia|done].
    split; [by intros [s Hs]|]. intros (_ & _ & _ & ? & _). lia. }
  unfold Adam_init. destruct (decide (l < 0)%Qc) as [Hl|Hl]; cbn.
  - split_and!; [|intros; lia|intros; lia|done|done].
    split; [by intros [s Hs]|].
    intros (_ & _ & _ & _ & Hl'). by apply Qcle_not_lt in Hl'.
  - apply Qcnot_lt_le in Hl. split_and!.
    + split; [intros _; split_and!; [done|done|lia|lia|done]|]. by eexists.
    + intros; lia.
    + intros; lia.
    + intros _ _ _ _ Hc'. by apply Qclt_not_le in Hc'.
    + intros s [= <-]. cbn. split_and!; [done..| | | |].
      * unfold state_dict. rewrite <- list_fmap_compose.
        apply list_fmap_id.
      * unfold state_dict. by rewrite <- !list_fmap_compose.
      * by apply Forall_fmap, Forall_true.
      * by apply Forall_fmap, Forall_fmap, Forall_true.
Qed.

(** ** The step counter and the trainable parameters *)

Lemma inv_train_ext s s' w w' :
  curr_step s' = curr_step s → online (net s') = online (net s) →
  disk w' = disk w → inv_train s w → inv_train s' w'.
Proof.
  intros Hc Hn Hd [? ? ?]. constructor; rewrite ?Hc, ?Hn, ?Hd; done.
Qed.

Lemma preserves_inv_train_modify f :
  (∀ s, curr_step (f s) = curr_step s ∧ online (net (f s)) = online (net s)) →
  preserves inv_train (modify f).
Proof.
  intros Hf. apply preserves_modify. intros s w.
  destruct (Hf s) as [? ?]. by apply inv_train_ext.
Qed.

Lemma load_state_dict_trainable ps sd :
  Forall trainable ps → Forall trainable (load_state_dict ps sd).2.
Proof.
  intros Hps. unfold load_state_dict. cbn. apply Forall_app. split.
  - revert sd. induction Hps as [|p ps Hp _ IH]; intros [|d sd]; cbn;
      constructor; [apply Hp|apply IH].
  - by apply Forall_drop.
Qed.

Lemma adam_step_from_trainable lr i ps st :
  Forall trainable ps → Forall trainable (adam_step_from lr i ps st).1.
Proof.
  intros Hps. revert i st.
  induction Hps as [|p ps Hp _ IH]; intros i st; cbn; [done|].
  destruct (grad p) as [g|].
  - destruct (adam_rule _ _ _ _) as [d m].
    specialize (IH (S i) (<[i:=m]> st)).
    destruct (adam_step_from _ _ _ _). cbn in *. by constructor.
  - specialize (IH (S i) st).
    destruct (adam_step_from _ _ _ _). cbn in *. by constructor.
Qed.

Lemma optimizer_step_trainable opt net :
  Forall trainable (online net) →
  Forall trainable (online (optimizer_step opt net).1).
Proof.
  intros Hon. unfold optimizer_step, parameters.
  rewrite adam_step_from_app.
  pose proof (adam_step_from_length (adam_lr opt) 0 (online net)
                (adam_state opt)) as Hlen.
  pose proof (adam_step_from_trainable (adam_lr opt) 0 (online net)
                (adam_state opt) Hon) as Htr.
  destruct (adam_step_from _ 0 _ _) as [on st1].
  destruct (adam_step_from _ _ (target net) _) as [tg st2].
  cbn in *. by rewrite <- Hlen, take_app_length.
Qed.

Lemma sync_Q_target_inv_train : preserves inv_train sync_Q_target.
Proof.
  intros s w Hinv. unfold sync_Q_target.
  destruct (load_state_dict _ _) as [r tg]. cbn.
  by apply (inv_train_ext s _ w).
Qed.

Lemma update_Q_online_inv_train td_estimate td_target :
  preserves inv_train (update_Q_online td_estimate td_target).
Proof.
  unfold update_Q_online.
  apply preserves_bind; [apply preserves_lift|intros l].
  apply preserves_bind; [|intros _].
  { apply preserves_modify. intros s w [? ? ?].
    constructor; cbn; [done| |done]. by apply Forall_fmap, Forall_impl with trainable. }
  apply preserves_bind; [|intros _].
  { apply preserves_modify. intros s w [? Htr ?].
    constructor; cbn; [done| |done].
    apply Forall_lookup. intros i p Hp.
    rewrite list_lookup_imap in Hp.
    destruct (online (net s) !! i) as [p0|] eqn:Hp0; [|done].
    cbn in Hp. injection Hp as <-.
    pose proof (Forall_lookup_1 _ _ _ _ Htr Hp0) as Hq.
    by destruct (requires_grad p0). }
  apply preserves_bind; [|intros _; apply preserves_ret].
  apply preserves_modify. intros s w [? Htr ?].
  pose proof (optimizer_step_trainable (optimizer s) (net s) Htr) as Hstep.
  destruct (optimizer_step _ _) as [net' opt']. by constructor.
Qed.

Lemma recall_inv_train : preserves inv_train recall.
Proof.
  unfold recall.
  apply preserves_bind; [apply preserves_get|intros self].
  apply preserves_bind; [|intros r].
  { apply preserves_with_py_random. intros s w t. by apply inv_train_ext. }
  apply preserves_bind; [apply preserves_lift|intros picked].
  destruct picked; [apply preserves_lift|apply preserves_ret].
Qed.

Lemma learn_inv_train : preserves inv_train learn.
Proof.
  unfold learn.
  apply preserves_bind; [apply preserves_get|intros self].
  apply preserves_bind; [apply preserves_lift|intros r].
  apply preserves_bind.
  { destruct (decide _); [apply sync_Q_target_inv_train|apply preserves_ret]. }
  intros _. destruct (decide _); [apply preserves_ret|].
  apply preserves_bind; [apply preserves_lift|intros r'].
  destruct (decide _); [apply preserves_ret|].
  apply preserves_bind; [apply recall_inv_train|intros [[[[st nst] a] rw] d]].
  apply preserves_bind; [apply preserves_get|intros self'].
  apply preserves_bind; [apply preserves_lift|intros est].
  apply preserves_bind; [apply preserves_lift|intros tgt].
  apply preserves_bind; [apply update_Q_online_inv_train|intros l].
  apply preserves_bind; [by apply preserves_inv_train_modify|intros _].
  apply preserves_bind; [by apply preserves_inv_train_modify|intros _].
  apply preserves_bind; [apply preserves_get|intros self''].
  apply preserves_ret.
Qed.

Lemma act_inv_train state : preserves inv_train (act state).
Proof.
  intros s w [Hstep ? ?].
  pose proof (act_state state s w) as Hact.
  assert (disk (act state s w).2 = disk w) as Hdisk.
  { unfold act. run. destruct (np_random_rand (np_random w)) as [u t1]. cbn.
    destruct (decide (u < exploration_rate s)%Qc).
    - run. by destruct (np_random_randint _ _) as [[a|e] t2].
    - run. rewrite net_call_online. cbn.
      destruct (mapR argmax _) as [best|]; cbn; [|done].
      by destruct (item best). }
  destruct ((act state s w).1.1); rewrite Hact;
    constructor; rewrite ?Hdisk; cbn; try done. lia.
Qed.

Lemma save_inv_train : preserves inv_train save.
Proof.
  intros s w [? ? Hdisk]. rewrite save_run. constructor; cbn; try done.
  by apply map_Forall_insert_2.
Qed.

Lemma load_inv_train path : preserves inv_train (load path).
Proof.
  intros s w [Hstep Htr Hdisk]. rewrite load_unfold.
  destruct (disk w !! path) as [c|] eqn:Hc; [|by constructor].
  apply Hdisk in Hc. cbn in Hc.
  pose proof (load_state_dict_trainable (online (net s)) (ck_net c).1 Htr)
    as Hon.
  unfold net_load_state_dict.
  destruct (load_state_dict (online (net s)) _) as [r1 on].
  destruct (load_state_dict (target (net s)) _) as [r2 tg]. cbn in Hon.
  destruct r1 as [[]|e1]; [destruct r2 as [[]|e2]|]; cbn;
    [destruct (Adam_init _)|..]; by constructor.
Qed.

Lemma Ship_init_inv_train sd ad dir er erd erm se bs g l bi le sy w s w' :
  map_Forall (λ _ c, 0 ≤ ck_curr_step c) (disk w) →
  Ship_init sd ad dir er erd erm se bs g l bi le sy w = (Ok s, w') →
  inv_train s w'.
Proof.
  intros Hdisk. unfold Ship_init, ShipNet_init. destruct sd as [[c h] wd].
  destruct (decide (h ≠ 84)); [discriminate|].
  destruct (decide (wd ≠ 84)); [discriminate|].
  destruct (decide (c < 0)); [discriminate|]. cbn.
  destruct (decide (ad < 0)); [discriminate|].
  destruct (Adam_init l) as [opt|e]; cbn; [|discriminate].
  intros [= <- <-]. constructor; cbn; [done| |done].
  by apply Forall_fmap, Forall_true.
Qed.

Lemma reachable_inv_train s w : reachable s w → inv_train s w.
Proof.
  induction 1 as [? ? ? ? ? ? ? ? ? ? ? ? ? w s w' Hdisk Hinit
                 |? ? ? ? ? ? ? ? ? ? ? ? ? s0 w s w' _ IH Hinit
                 |state s w _ IH|? ? ? ? ? s w _ IH|s w _ IH|s w _ IH
                 |path s w _ IH|np py th s w _ IH].
  - eapply Ship_init_inv_train; [|done]. rewrite Hdisk. apply map_Forall_empty.
  - eapply Ship_init_inv_train; [|done]. apply IH.
  - by apply act_inv_train.
  - rewrite cache_run. by apply (inv_train_ext s _ w).
  - by apply learn_inv_train.
  - by apply save_inv_train.
  - by apply load_inv_train.
  - by apply (inv_train_ext s s w).
Qed.

(** X15: on every reachable state the step counter is not negative, every
    online parameter requires a gradient and every target parameter is
    frozen and holds none, there are as many target parameters as online
    ones, the buffer has capacity 1000 and holds at most that many
    experiences, and every checkpoint on the disk has a step counter and a
    learning rate that are not negative and a buffer of at most 1000
    experiences. *)
Theorem reachable_invariants s w :
  reachable s w →
  0 ≤ curr_step s
  ∧ Forall trainable (online (net s))
  ∧ Forall frozen (target (net s))
  ∧ length (target (net s)) = length (online (net s))
  ∧ maxlen (memory s) = 1000%nat
  ∧ (length (items (memory s)) ≤ 1000)%nat
  ∧ ∀ path c, disk w !! path = Some c →
      0 ≤ ck_curr_step c ∧ (0 ≤ ck_lr c)%Qc
      ∧ maxlen (ck_memory c) = 1000%nat
      ∧ (length (items (ck_memory c)) ≤ 1000)%nat.
Proof.
  intros Hreach.
  destruct (reachable_inv s w Hreach) as [? ? ? ? ? Hdisk].
  destruct (reachable_inv_train s w Hreach) as [? ? Hdisk'].
  split_and!; [done..|]. intros path c Hc.
  destruct (Hdisk path c Hc) as (? & ? & ?).
  pose proof (Hdisk' path c Hc). by split_and!.
Qed.

(** X16: on every reachable state, when the loss is defined
    [update_Q_online] returns it and takes one Adam step on every online
    parameter.  The gradient of the parameter is the gradient of this loss
    alone, whatever gradient it held before ([zero_grad] comes before
    [backward]); its new value is the one Adam's rule gives from the old
    value, this gradient, the state kept for the parameter, and the
    learning rate of the optimizer, which the step leaves as it was.  When
    the loss raises, nothing is written. *)
Theorem update_Q_online_adam_step est tgt s w :
  reachable s w →
  let s' := (update_Q_online est tgt s w).1.2 in
  (∀ l, loss_fn (values est) tgt = Ok l →
     update_Q_online est tgt s w = (Ok l, s', w)
     ∧ adam_lr (optimizer s') = adam_lr (optimizer s)
     ∧ length (online (net s')) = length (online (net s))
     ∧ ∀ i p, online (net s) !! i = Some p →
         let g := loss_gradient (state_dict (online (net s))) i
                    (graph_state est) (graph_action est) tgt in
         let r := adam_rule (adam_lr (optimizer s))
                    (adam_state (optimizer s) !! i) (data p) g in
         online (net s') !! i = Some (mkParameter r.1 true (Some g))
         ∧ adam_state (optimizer s') !! i = Some r.2)
  ∧ (∀ e, loss_fn (values est) tgt = Raise e →
       update_Q_online est tgt s w = (Raise e, s, w)).
Proof.
  intros Hreach s'. apply reachable_inv_train in Hreach as [_ Htr _]. split.
  - intros l Hl.
    destruct (update_Q_online_step est tgt s w l Hl)
      as (Hrun & Hlr & Hlen & Hstep).
    split_and!; [done..|]. intros i p Hp. apply Hstep; [done|].
    apply (Forall_lookup_1 _ _ _ _ Htr Hp).
  - intros e He. by rewrite update_Q_online_run, He.
Qed.

(** ** Between two synchronisations *)

(** X17: when the target parameters hold the values of the online ones, as
    they do in a new agent and right after a synchronisation, the TD target
    is the one of plain Q-learning: for each transition, the float32
    [reward + (1 - done) * gamma * q_max] with [q_max] the largest online
    value on the next state. *)
Theorem td_target_synced_is_max self reward next_state done :
  let n := Z.to_nat (batch_size self) in
  let Q_online := sequential (state_dict (online (net self))) in
  let wide := stacked_float64 reward in
  let g := f32_of_Qc (gamma self) in
  state_dict (target (net self)) = state_dict (online (net self)) →
  length reward = n → length next_state = n → length done = n →
  (∀ x, x ∈ next_state → Q_online x ≠ []) →
  ∃ tgt, td_target self reward next_state done = Ok tgt
    ∧ length tgt = n
    ∧ ∀ i r x (d : bool),
        reward !! i = Some r → next_state !! i = Some x → done !! i = Some d →
        ∃ q_max,
          q_max ∈ Q_online x
          ∧ (∀ v, v ∈ Q_online x → (v ≤ q_max)%Qc)
          ∧ tgt !! i
            = Some (add_reward wide r
                      (f32_mul (f32_mul (f32_sub f32_one (f32_of_bool d)) g)
                         (f32_of_Qc q_max))).
Proof.
  intros n Q_online wide g Hsync Hreward Hnext Hdone Hshape.
  destruct (td_target_spec self reward next_state done Hreward Hnext Hdone)
    as (tgt & Htgt & Hlen & Hall).
  { intros x Hx. rewrite Hsync. split; [by apply Hshape|done]. }
  exists tgt. split_and!; [done..|].
  intros i r x d Hr Hx Hd.
  destruct (Hall i r x d Hr Hx Hd)
    as (best & q_best & q & _ & Hbest & Hmax & Hq & Hi & _).
  rewrite Hsync in Hq. fold Q_online in Hbest, Hmax, Hq.
  rewrite Hbest in Hq. injection Hq as <-.
  exists q_best. split_and!; [|  |done].
  - apply list_elem_of_lookup. by exists best.
  - intros v Hv. apply list_elem_of_lookup in Hv as [j Hj]. by eapply Hmax.
Qed.

(** X18: a call of [learn] that the burn-in or the cadence gates is
    idempotent: called again at once, it returns [(None, None)] again and
    changes nothing; and the first call changes nothing either when the
    target parameters already hold the online values, as in a new agent. *)
Theorem learn_gated_idempotent s w :
  reachable s w →
  sync_every s ≠ 0 →
  curr_step s < burn_in s
  ∨ learn_every s ≠ 0 ∧ curr_step s `mod` learn_every s ≠ 0 →
  learn (learn s w).1.2 w = (Ok (None, None), (learn s w).1.2, w)
  ∧ (state_dict (target (net s)) = state_dict (online (net s)) →
     learn s w = (Ok (None, None), s, w)).
Proof.
  intros Hreach Hsync Hgate. apply reachable_inv in Hreach as Hinv.
  assert (∀ s0, inv s0 w → sync_every s0 ≠ 0 →
            (curr_step s0 < burn_in s0
             ∨ learn_every s0 ≠ 0 ∧ curr_step s0 `mod` learn_every s0 ≠ 0) →
            state_dict (target (net s0)) = state_dict (online (net s0))
            ∨ curr_step s0 `mod` sync_every s0 ≠ 0 →
            learn s0 w = (Ok (None, None), s0, w)) as Hnoop.
  { intros s0 Hinv0 Hsync0 Hgate0 Hsame. rewrite learn_run. unfold py_mod.
    destruct (decide (sync_every s0 = 0)); [done|].
    destruct (decide (curr_step s0 `mod` sync_every s0 = 0)) as [Hmod|Hmod].
    - destruct Hsame as [Hsame|?]; [|done].
      unfold sync_Q_target. rewrite (load_state_dict_id _ _ Hsame).
      replace (set_net _ s0) with s0 by (by destruct s0 as [? ? ? ? []]).
      by apply learn_after_sync_early.
    - by apply learn_after_sync_early. }
  split; [|intros Hsame; apply Hnoop; auto].
  destruct (learn_synced s w Hinv Hsync) as (tg & Hlearn & Hsd & Htg).
  rewrite Hlearn, (learn_after_sync_early s _ w Hgate). cbn [fst snd].
  apply Hnoop; cbn [sync_every curr_step burn_in learn_every net online
    target set_net]; [|done|done|].
  - pose proof (learn_inv s w Hinv) as Hinv'.
    by rewrite Hlearn, (learn_after_sync_early s _ w Hgate) in Hinv'.
  - destruct (decide (curr_step s `mod` sync_every s = 0)); [by left|by right].
Qed.

(** X19: after a [load] that returned, the checkpoint the agent would
    [save] is the loaded one in every field but the learning rate, which is
    the [lr] the loading agent had, whereas its optimizer runs with the
    learning rate of the checkpoint. *)
Theorem load_then_save_own_lr path c s w :
  reachable s w →
  disk w !! path = Some c →
  (load path s w).1.1 = Ok () →
  let s' := (load path s w).1.2 in
  checkpoint_of s'
  = mkCheckpoint (ck_net c) (ck_exploration_rate c)
      (ck_exploration_rate_decay c) (ck_exploration_rate_min c)
      (ck_save_every c) (ck_batch_size c) (ck_gamma c) (lr s) (ck_burn_in c)
      (ck_learn_every c) (ck_sync_every c) (ck_curr_step c) (ck_memory c)
  ∧ adam_lr (optimizer s') = ck_lr c
  ∧ save_dir s' = save_dir s.
Proof.
  intros Hreach Hdisk Hok s'. subst s'. apply reachable_inv in Hreach as Hinv.
  destruct (inv_disk _ _ Hinv _ _ Hdisk) as (_ & _ & Hlr).
  destruct (decide (length (online (net s)) = length (ck_net c).1
                    ∧ length (target (net s)) = length (ck_net c).2))
    as [[Hon Htg]|Hkeys].
  - destruct (load_run path c s w Hdisk Hon Htg Hlr) as (net' & Hload & Hsd).
    rewrite Hload. cbn. unfold checkpoint_of. cbn. by rewrite Hsd.
  - rewrite load_unfold, Hdisk in Hok.
    destruct (net_load_state_dict_raise (ck_net c) s w Hkeys) as (net' & Hraise).
    by rewrite Hraise in Hok.
Qed.


End Properties.

(** * The agent on concrete inputs *)

Section Concrete.
#[local] Existing Instance toy.

Lemma cache_all_reachable ts s w :
  reachable s w → reachable (cache_all ts s w).1.2 (cache_all ts s w).2.
Proof.
  revert s w. induction ts as [|t ts IH]; intros s w Hreach; [done|].
  cbn [cache_all]. rewrite bind_run, cache_run. apply IH.
  apply (reach_cache (t_state t) (t_next_state t) (t_action t) (t_reward t)
           (t_done t) s w Hreach).
Qed.

Lemma toy_ship_reachable w er bs l bi le sy :
  disk w = ∅ →
  is_Ok (toy_ship w er bs l bi le sy).1 →
  reachable (built (toy_ship w er bs l bi le sy)).1
            (built (toy_ship w er bs l bi le sy)).2.
Proof.
  intros Hdisk [s Hs].
  destruct (toy_ship w er bs l bi le sy) as [r w'] eqn:Hinit.
  cbn in Hs. subst r. cbn. by eapply reach_init.
Qed.

Lemma toy_ship_reachable_again s0 w er bs l bi le sy :
  reachable s0 w →
  is_Ok (toy_ship w er bs l bi le sy).1 →
  reachable (built (toy_ship w er bs l bi le sy)).1
            (built (toy_ship w er bs l bi le sy)).2.
Proof.
  intros Hreach [s Hs].
  destruct (toy_ship w er bs l bi le sy) as [r w'] eqn:Hinit.
  cbn in Hs. subst r. cbn. by eapply reach_again.
Qed.

Lemma toy_default_reachable : reachable toy_default.1 toy_default.2.
Proof.
  apply (toy_ship_reachable toy_world 1%Qc 32 default_lr 10000 3 10000);
    [done|]. by eexists.
Qed.

Lemma toy_low_epsilon_reachable :
  reachable toy_low_epsilon.1 toy_low_epsilon.2.
Proof. apply toy_ship_reachable; [done|]. by eexists. Qed.

Lemma toy_sync_zero_reachable : reachable toy_sync_zero.1 toy_sync_zero.2.
Proof. apply toy_ship_reachable; [done|]. by eexists. Qed.

Lemma toy_learner_cached_reachable :
  reachable toy_learner_cached.1.2 toy_learner_cached.2.
Proof.
  apply (cache_all_reachable toy_experiences).
  apply (toy_ship_reachable toy_world 1%Qc 2 default_lr 0 1 10000);
    [done|by eexists].
Qed.

Lemma toy_learner_acted_reachable :
  reachable toy_learner_acted.1.2 toy_learner_acted.2.
Proof.
  apply (reach_act (H := toy) (Qc_of_Z 4)), toy_learner_cached_reachable.
Qed.

Lemma toy_batch_zero_reachable :
  reachable toy_batch_zero_cached.1.2 toy_batch_zero_cached.2.
Proof.
  apply (cache_all_reachable toy_experiences).
  apply (toy_ship_reachable toy_world 1%Qc 0 default_lr 0 1 10000);
    [done|by eexists].
Qed.

Lemma toy_loader_reachable : reachable toy_loader.1 toy_loader.2.
Proof.
  apply (toy_ship_reachable_again toy_saved.1.2); [|by eexists].
  apply reach_save, toy_ship_reachable; [done|by eexists].
Qed.

(** The constructor rejects frames of height 80. *)
Lemma ShipNet_shape_checked_at_construction_witness :
  80 ≠ 84
  ∧ ShipNet_init (4, 80, 84) 6 [2%N]
    = (Raise (ValueError (ExpectingInputHeight 80)), [2%N]).
Proof.
  assert (80 ≠ 84) as Hh by lia. split; [exact Hh|].
  exact (proj1 (ShipNet_shape_checked_at_construction 4 80 84 6 [2%N]) Hh).
Defined.

(** C4 as stated fails: an agent constructed with an
    exploration rate of 0.05 and the default floor of 0.1 has, after its
    first call of [act], an exploration rate of 0.1: the rate has risen. *)
Lemma act_rate_rises_below_floor :
  let s := toy_low_epsilon.1 in
  let r := act (Qc_of_Z 1) s toy_low_epsilon.2 in
  reachable s toy_low_epsilon.2
  ∧ is_Ok r.1.1
  ∧ (exploration_rate s < exploration_rate r.1.2)%Qc.
Proof.
  split_and!.
  - apply toy_low_epsilon_reachable.
  - eexists. vm_compute. reflexivity.
  - vm_compute. reflexivity.
Qed.

(** The default agent after its first call of [act]. *)
Lemma act_decay_and_step_witness :
  let s := toy_default.1 in
  let r := act (Qc_of_Z 1) s toy_default.2 in
  (exploration_rate_min s ≤ exploration_rate s)%Qc
  ∧ (0 ≤ exploration_rate s)%Qc
  ∧ (exploration_rate_decay s ≤ 1)%Qc
  ∧ (exploration_rate r.1.2 ≤ exploration_rate s)%Qc
  ∧ (exploration_rate_min s ≤ exploration_rate r.1.2)%Qc
  ∧ curr_step r.1.2 = 1.
Proof.
  intros s r.
  assert (exploration_rate_min s ≤ exploration_rate s)%Qc as Hmin
    by (vm_compute; discriminate).
  assert (0 ≤ exploration_rate s)%Qc as He by (vm_compute; discriminate).
  assert (exploration_rate_decay s ≤ 1)%Qc as Hd by (vm_compute; discriminate).
  destruct (act_decay_and_step (H := toy) (Qc_of_Z 1) s toy_default.2)
    as [Hact _].
  fold r in Hact. destruct (r.1.1) as [av|e] eqn:Hr.
  - destruct Hact as (_ & Hfloor & _ & _ & Hrise & Hstep).
    split_and!; [done..|by apply Hrise|done|done].
  - vm_compute in Hr. discriminate Hr.
Defined.

(** The default agent explores at its first call and draws action 4. *)
Lemma act_explore_placeholder_witness :
  let s := toy_default.1 in
  let w := toy_default.2 in
  ((np_random_rand (np_random w)).1 < exploration_rate s)%Qc
  ∧ (act (Qc_of_Z 1) s w).1.1 = Ok (4, [[1; 1; 1; 1; 1; 1]]%Qc).
Proof.
  intros s w.
  assert ((np_random_rand (np_random w)).1 < exploration_rate s)%Qc as Hu
    by (vm_compute; reflexivity).
  split; [exact Hu|].
  destruct (act_explore_placeholder (H := toy) (Qc_of_Z 1) s w Hu) as [Hact _].
  destruct ((act (H := toy) (Qc_of_Z 1) s w).1.1) as [[a vals]|e] eqn:Hr.
  - destruct Hact as (-> & _ & ->). reflexivity.
  - destruct Hact as [Hdim _]. vm_compute in Hdim. by destruct Hdim.
Defined.

(** The buffer of the default agent after three experiences. *)
Lemma memory_fifo_capacity_witness :
  let s := toy_default.1 in
  let w := toy_default.2 in
  reachable s w
  ∧ maxlen (memory s) = 1000%nat
  ∧ items (memory (cache_all toy_experiences s w).1.2) = toy_experiences.
Proof.
  intros s w. pose proof toy_default_reachable as Hreach. fold s w in Hreach.
  destruct (memory_fifo_capacity s w Hreach) as (Hmax & _ & Hpush & _ & _).
  destruct (Hpush toy_experiences w) as (Hitems & _).
  split_and!; [done|done|]. rewrite Hitems. reflexivity.
Defined.

(** The learner samples two of its three experiences. *)
Lemma recall_sample_witness :
  let s := toy_learner_acted.1.2 in
  let w := toy_learner_acted.2 in
  1 ≤ batch_size s ≤ Z.of_nat (length (items (memory s)))
  ∧ ∃ (idxs : list nat) b w', recall s w = (Ok b, s, w')
      ∧ length idxs = 2%nat ∧ NoDup idxs ∧ length b.1.1.1.1 = 2%nat.
Proof.
  intros s w.
  assert (1 ≤ batch_size s ≤ Z.of_nat (length (items (memory s)))) as Hb
    by (vm_compute; split; discriminate).
  split; [exact Hb|].
  destruct (proj2 (recall_sample s w) Hb)
    as (idxs & picked & t' & Hrecall & Hidxs & Hpicked & Hnodup & _).
  exists idxs. eexists. eexists. split; [exact Hrecall|].
  split_and!; [done|done|]. cbn. by rewrite length_fmap.
Defined.

(** C6 as stated fails: the buffer of an agent constructed
    with [batch_size = 0] holds three experiences, at least [batch_size],
    and [recall] raises a [ValueError]: the empty sample has no fields to
    unpack. *)
Lemma recall_empty_batch_raises :
  let s := toy_batch_zero_cached.1.2 in
  let w := toy_batch_zero_cached.2 in
  reachable s w
  ∧ length (items (memory s)) = 3%nat
  ∧ batch_size s = 0
  ∧ (recall s w).1.1 = Raise (ValueError (NotEnoughValuesToUnpack 5 0)).
Proof.
  split_and!.
  - apply toy_batch_zero_reachable.
  - vm_compute. reflexivity.
  - vm_compute. reflexivity.
  - vm_compute. reflexivity.
Qed.

(** The TD target of the learner on the batch it samples: two of its
    three experiences, the second of them terminal with the float32 reward
    5.0.  The discount factor and the output of the target parameters are
    finite in float32. *)
Lemma td_target_double_dqn_witness :
  let self := toy_learner_acted.1.2 in
  let w := toy_learner_acted.2 in
  match (recall self w).1.1 with
  | Ok (state, next_state, action, reward, done) =>
      (∀ x, x ∈ next_state →
         sequential (state_dict (online (net self))) x ≠ []
         ∧ length (sequential (state_dict (target (net self))) x)
           = length (sequential (state_dict (online (net self))) x))
      ∧ done = [false; true]
      ∧ reward !! 1%nat = Some (RFloat32 (f32_of_Z 5))
      ∧ stacked_float64 reward = false
      ∧ is_finite (f32_of_Qc (gamma self)) = true
      ∧ ∃ tgt, td_target self reward next_state done = Ok tgt
          ∧ value_of <$> tgt !! 1%nat = Some (value_of (f32_of_Z 5))
  | Raise _ => False
  end.
Proof.
  intros self w.
  destruct (recall self w)
    as [[[[[[[state next_state] action] reward] done]|e] self'] w'] eqn:Hrecall;
    cbn [fst].
  - assert (∀ x, x ∈ next_state →
         sequential (state_dict (online (net self))) x ≠ []
         ∧ length (sequential (state_dict (target (net self))) x)
           = length (sequential (state_dict (online (net self))) x)) as Hshape.
    { intros x _. split; [by vm_compute|reflexivity]. }
    destruct (td_target_double_dqn self w state next_state action reward done
                self' w' Hrecall Hshape) as (-> & tgt & Htgt & _ & Hall).
    apply (f_equal (λ r, r.1.1)) in Hrecall. vm_compute in Hrecall.
    injection Hrecall as <- <- <- <- <-.
    assert (is_finite (f32_of_Qc (gamma self)) = true) as Hg
      by (vm_compute; reflexivity).
    destruct (Hall 1%nat (RFloat32 (f32_of_Z 5)) (Qc_of_Z 3) true
                eq_refl eq_refl eq_refl)
      as (b & qb & q & Hb & _ & _ & Hq & _ & Hdone).
    vm_compute in Hb. injection Hb as <-.
    vm_compute in Hq. injection Hq as <-.
    destruct (Hdone eq_refl Hg ltac:(vm_compute; reflexivity)) as [_ Hfloat].
    split_and!; [exact Hshape|reflexivity|reflexivity|reflexivity|exact Hg|].
    exists tgt. split; [exact Htgt|].
    exact (Hfloat (f32_of_Z 5) eq_refl eq_refl).
  - apply (f_equal (λ r, r.1.1)) in Hrecall. vm_compute in Hrecall.
    discriminate Hrecall.
Defined.

Lemma toy_big_reward_cached_reachable :
  reachable toy_big_reward_cached.1.2 toy_big_reward_cached.2.
Proof.
  apply (reach_cache (H := toy) (Qc_of_Z 1) (Qc_of_Z 2) 0 (RInt64 16777217)
           true).
  apply (toy_ship_reachable toy_world 1%Qc 1 default_lr 0 1 10000);
    [done|by eexists].
Qed.

Lemma toy_huge_cached_reachable :
  reachable toy_huge_cached.1.2 toy_huge_cached.2.
Proof.
  apply (reach_cache (H := toy) (Qc_of_Z 1) (Qc_of_Z 2) 0
           (RFloat32 (f32_of_Z 1)) true).
  apply (toy_ship_reachable toy_huge_world 1%Qc 1 default_lr 0 1 10000);
    [done|by eexists].
Qed.

(** C1 as stated fails: an agent whose buffer holds one terminal
    experience with the integer reward 16777217 samples it, and its TD
    target is the float32 16777216.0, not the reward: the reward, an int64
    tensor, is rounded to float32 when line 178 adds the float32 bootstrap
    term to it. *)
Lemma td_target_done_is_not_the_reward :
  let s := toy_big_reward_cached.1.2 in
  let w := toy_big_reward_cached.2 in
  reachable s w
  ∧ (recall s w).1.1
    = Ok ([Qc_of_Z 1], [Qc_of_Z 2], [0], [RInt64 16777217], [true])
  ∧ td_target s [RInt64 16777217] [Qc_of_Z 2] [true]
    = Ok [f32_of_Z 16777216]
  ∧ value_of (f32_of_Z 16777216) ≠ Exactly (Qc_of_Z 16777217).
Proof.
  split_and!.
  - apply toy_big_reward_cached_reachable.
  - vm_compute. reflexivity.
  - vm_compute. reflexivity.
  - intros Heq. injection Heq as Heq. vm_compute in Heq. discriminate Heq.
Qed.

(** The finiteness conditions of the terminal case are needed: when the
    value of the target parameters is beyond the range of float32, it is
    infinite as a float32, zero times infinity is NaN, and the TD target
    of a terminal experience with reward 1.0 is NaN. *)
Lemma td_target_done_overflow :
  let s := toy_huge_cached.1.2 in
  let w := toy_huge_cached.2 in
  reachable s w
  ∧ (recall s w).1.1
    = Ok ([Qc_of_Z 1], [Qc_of_Z 2], [0], [RFloat32 (f32_of_Z 1)], [true])
  ∧ td_target s [RFloat32 (f32_of_Z 1)] [Qc_of_Z 2] [true] = Ok [S754_nan]
  ∧ value_of S754_nan ≠ value_of (f32_of_Z 1).
Proof.
  split_and!.
  - apply toy_huge_cached_reachable.
  - vm_compute. reflexivity.
  - vm_compute. reflexivity.
  - vm_compute. discriminate.
Qed.

(** At its first step, still in burn-in, the default agent returns
    [(None, None)] from [learn] after synchronising its target parameters. *)
Lemma learn_gated_witness :
  let s := toy_default.1 in
  let w := toy_default.2 in
  reachable s w
  ∧ sync_every s ≠ 0
  ∧ (curr_step s < burn_in s
     ∨ learn_every s ≠ 0 ∧ curr_step s `mod` learn_every s ≠ 0)
  ∧ ∃ tg,
      learn s w
      = (Ok (None, None), set_net (mkShipNet (online (net s)) tg) s, w)
      ∧ state_dict tg = state_dict (online (net s)).
Proof.
  intros s w. pose proof toy_default_reachable as Hreach. fold s w in Hreach.
  assert (sync_every s ≠ 0) as Hsync by (vm_compute; discriminate).
  assert (curr_step s < burn_in s
          ∨ learn_every s ≠ 0 ∧ curr_step s `mod` learn_every s ≠ 0) as Hgate
    by (left; vm_compute; reflexivity).
  destruct (learn_gated s w Hreach Hsync Hgate) as (tg & Hlearn & Hsd & _).
  split_and!; [done..|]. exists tg. split; [exact Hlearn|exact Hsd].
Defined.

(** C2 as stated fails: an agent constructed with
    [sync_every = 0] is in burn-in at its first step, and [learn] raises
    [ZeroDivisionError] at the synchronisation check instead of returning
    [(None, None)]. *)
Lemma learn_raises_when_sync_every_is_zero :
  let s := toy_sync_zero.1 in
  let w := toy_sync_zero.2 in
  reachable s w
  ∧ curr_step s < burn_in s
  ∧ (learn s w).1.1 = Raise ZeroDivisionError.
Proof.
  split_and!.
  - apply toy_sync_zero_reachable.
  - vm_compute. reflexivity.
  - vm_compute. reflexivity.
Qed.

Lemma toy_syncer_acted_again_reachable :
  reachable toy_syncer_acted_again.1.2 toy_syncer_acted_again.2.
Proof.
  apply (reach_act (H := toy) (Qc_of_Z 5)), (reach_learn (H := toy)).
  apply (reach_act (H := toy) (Qc_of_Z 4)).
  apply (cache_all_reachable toy_experiences).
  apply (toy_ship_reachable toy_world 1%Qc 2 default_lr 0 1 2);
    [done|by eexists].
Qed.

(** An agent that synchronises at every second step took a gradient step
    at step 1, so that at step 2 its target parameters differ from its
    online ones; [learn] at step 2 ends with the target parameters equal to
    the online ones it started with. *)
Lemma sync_copies_online_witness :
  let s := toy_syncer_acted_again.1.2 in
  let w := toy_syncer_acted_again.2 in
  reachable s w
  ∧ length (target (net s)) = length (online (net s))
  ∧ Forall frozen (target (net s))
  ∧ py_mod (curr_step s) (sync_every s) = Ok 0
  ∧ state_dict (target (net s)) ≠ state_dict (online (net s))
  ∧ state_dict (target (net (learn s w).1.2)) = state_dict (online (net s)).
Proof.
  intros s w.
  pose proof toy_syncer_acted_again_reachable as Hreach. fold s w in Hreach.
  pose proof (inv_keys _ _ (reachable_inv s w Hreach)) as Hkeys.
  pose proof (inv_frozen _ _ (reachable_inv s w Hreach)) as Hfrozen.
  assert (py_mod (curr_step s) (sync_every s) = Ok 0) as Hmod
    by (vm_compute; reflexivity).
  destruct (sync_copies_online s w Hkeys Hfrozen Hmod) as (_ & Htarget & _).
  split_and!; [done..| |exact Htarget].
  intros Heq. apply (f_equal (fmap (M := list) this)) in Heq.
  vm_compute in Heq. discriminate Heq.
Defined.

(** At step 1 the learner takes a gradient step: the online parameters
    change and the target parameters do not. *)
Lemma gradient_step_frames_target_witness :
  let s := toy_learner_acted.1.2 in
  let w := toy_learner_acted.2 in
  reachable s w
  ∧ match (learn s w).1.1 with Ok (Some _, Some _) => True | _ => False end
  ∧ state_dict (online (net (learn s w).1.2)) ≠ state_dict (online (net s))
  ∧ state_dict (target (net (learn s w).1.2)) = state_dict (target (net s)).
Proof.
  intros s w.
  pose proof toy_learner_acted_reachable as Hreach. fold s w in Hreach.
  destruct (gradient_step_frames_target s w Hreach) as [_ Htarget].
  assert (py_mod (curr_step s) (sync_every s) = Ok 1) as Hmod by reflexivity.
  rewrite Hmod in Htarget.
  split_and!; [done| | |exact Htarget].
  - vm_compute. exact I.
  - intros Heq. apply (f_equal (fmap (M := list) this)) in Heq.
    vm_compute in Heq. discriminate Heq.
Defined.

(** C7, the code at a failing input: an agent constructed with a learning
    rate of 0.001 saves itself; an agent constructed with the default
    learning rate 0.00025 loads the file.  The load returns, the step
    counter, the buffer and the other hyperparameters are the saved ones
    and the new optimizer has the saved learning rate 0.001, but the
    attribute [lr] of the loading agent is still 0.00025, and that is the
    learning rate its next checkpoint holds. *)
Theorem load_leaves_lr_stale :
  let a := toy_saver.1 in
  let b := toy_loader.1 in
  let b' := toy_loaded.1.2 in
  reachable b toy_loader.2
  ∧ toy_saved.1.1 = Ok (checkpoint_path a)
  ∧ toy_loaded.1.1 = Ok ()
  ∧ curr_step b' = curr_step a
  ∧ batch_size b' = batch_size a
  ∧ memory b' = memory a
  ∧ adam_lr (optimizer b') = lr a
  ∧ lr b' = lr b
  ∧ (lr b' < lr a)%Qc
  ∧ (ck_lr (checkpoint_of b') < lr a)%Qc.
Proof.
  split_and!.
  - apply toy_loader_reachable.
  - reflexivity.
  - vm_compute. reflexivity.
  - vm_compute. reflexivity.
  - vm_compute. reflexivity.
  - vm_compute. reflexivity.
  - vm_compute. reflexivity.
  - vm_compute. reflexivity.
  - vm_compute. reflexivity.
  - vm_compute. reflexivity.
Qed.

(** ** Further properties on concrete inputs *)

Lemma toy_greedy_reachable : reachable toy_greedy.1 toy_greedy.2.
Proof. apply toy_ship_reachable; [done|]. by eexists. Qed.

Lemma toy_learner_empty_reachable :
  reachable toy_learner_empty.1 toy_learner_empty.2.
Proof. apply toy_ship_reachable; [done|]. by eexists. Qed.

(** The estimate of the learner on two of its experiences. *)
Lemma td_estimate_taken_action_witness :
  let self := toy_learner_acted.1.2 in
  let state := [Qc_of_Z 1; Qc_of_Z 2] in
  let action := [0; 1] in
  length state = Z.to_nat (batch_size self)
  ∧ length action = Z.to_nat (batch_size self)
  ∧ ∃ est, td_estimate self state action = Ok est
      ∧ graph_action est = action
      ∧ length (values est) = 2%nat.
Proof.
  intros self state action.
  assert (length state = Z.to_nat (batch_size self)) as Hs by reflexivity.
  assert (length action = Z.to_nat (batch_size self)) as Ha by reflexivity.
  destruct (td_estimate_taken_action (H := toy) self state action Hs Ha)
    as [Hok _].
  destruct Hok as (est & Hest & _ & Hact & Hlen & _).
  - intros i x a Hx Hi.
    assert (length (sequential (state_dict (online (net self))) x) = 6%nat)
      as -> by reflexivity.
    destruct i as [|[|i]]; [| |done].
    + injection Hi as <-. lia.
    + injection Hi as <-. lia.
  - split_and!; [done|done|]. exists est. by split_and!.
Defined.

(** The default agent explores at its first call: two draws of numpy. *)
Lemma act_writes_rate_and_step_only_witness :
  let s := toy_default.1 in
  let w := toy_default.2 in
  ((np_random_rand (np_random w)).1 < exploration_rate s)%Qc
  ∧ 0 < action_dim s
  ∧ (act (Qc_of_Z 1) s w).2 = set_np_random (drop 2 (np_random w)) w.
Proof.
  intros s w.
  assert ((np_random_rand (np_random w)).1 < exploration_rate s)%Qc as Hu
    by (vm_compute; reflexivity).
  assert (0 < action_dim s) as Hdim by (vm_compute; reflexivity).
  destruct (act_writes_rate_and_step_only (H := toy) (Qc_of_Z 1) s w)
    as [_ (k & _ & Hw & _ & Hk)].
  rewrite (Hk Hu Hdim) in Hw. split_and!; [exact Hu|exact Hdim|exact Hw].
Defined.

(** The agent that never explores takes the action of the largest
    weight. *)
Lemma act_exploit_is_greedy_witness :
  let s := toy_greedy.1 in
  let w := toy_greedy.2 in
  let row := sequential (state_dict (online (net s))) (Qc_of_Z 1) in
  ¬ ((np_random_rand (np_random w)).1 < exploration_rate s)%Qc
  ∧ row ≠ []
  ∧ ∃ best q, (act (Qc_of_Z 1) s w).1.1 = Ok (Z.of_nat best, [row])
      ∧ row !! best = Some q
      ∧ ∀ j v, row !! j = Some v → (v ≤ q)%Qc.
Proof.
  intros s w row.
  assert (¬ ((np_random_rand (np_random w)).1 < exploration_rate s)%Qc) as Hu
    by (vm_compute; discriminate).
  assert (row ≠ []) as Hrow by (vm_compute; discriminate).
  destruct (act_exploit_is_greedy (H := toy) (Qc_of_Z 1) s w Hu) as [_ Hok].
  destruct (Hok Hrow) as (best & q & Hact & Hq & Hmax & _).
  split_and!; [exact Hu|exact Hrow|]. exists best, q. by split_and!.
Defined.

(** The default agent after two calls of [act]. *)
Lemma act_all_schedule_witness :
  let s := toy_default.1 in
  let w := toy_default.2 in
  let states := [Qc_of_Z 1; Qc_of_Z 2] in
  (0 ≤ exploration_rate_min s)%Qc
  ∧ (0 ≤ exploration_rate_decay s)%Qc
  ∧ (exploration_rate_decay s ≤ 1)%Qc
  ∧ is_Ok (act_all states s w).1.1
  ∧ curr_step (act_all states s w).1.2 = 2
  ∧ exploration_rate (act_all states s w).1.2
    = py_max (exploration_rate_min s)
        (exploration_rate s * exploration_rate_decay s ^ 2)%Qc.
Proof.
  intros s w states.
  assert (states ≠ []) as Hne by discriminate.
  assert (0 ≤ exploration_rate_min s)%Qc as Hm by (vm_compute; discriminate).
  assert (0 ≤ exploration_rate_decay s)%Qc as Hd0
    by (vm_compute; discriminate).
  assert (exploration_rate_decay s ≤ 1)%Qc as Hd1
    by (vm_compute; discriminate).
  destruct ((act_all (H := toy) states s w).1.1) as [rs|e] eqn:Hrs.
  - destruct (act_all_schedule (H := toy) states s w rs Hne Hm Hd0 Hd1 Hrs)
      as (Hrate & Hstep & _).
    split_and!; [exact Hm|exact Hd0|exact Hd1|by eexists|exact Hstep|
                 exact Hrate].
  - vm_compute in Hrs. discriminate Hrs.
Defined.

(** The default agent, with its exploration rate of 1, explores. *)
Lemma act_rate_extremes_witness :
  let s := toy_default.1 in
  let w := toy_default.2 in
  (1 ≤ exploration_rate s)%Qc
  ∧ (act (Qc_of_Z 1) s w).1.1
    = (a ← (np_random_randint (action_dim s) (tail (np_random w))).1;
       Ok (a, [[1; 1; 1; 1; 1; 1]]%Qc)).
Proof.
  intros s w.
  assert (1 ≤ exploration_rate s)%Qc as He by (vm_compute; discriminate).
  split; [exact He|].
  exact (proj1 (act_rate_extremes (H := toy) (Qc_of_Z 1) s w) He).
Defined.

(** An agent constructed with [sync_every = 0] cannot learn. *)
Lemma learn_zero_cadence_witness :
  let s := toy_sync_zero.1 in
  let w := toy_sync_zero.2 in
  sync_every s = 0 ∧ learn s w = (Raise ZeroDivisionError, s, w).
Proof.
  intros s w. assert (sync_every s = 0) as Hsync by reflexivity.
  split; [exact Hsync|]. exact (proj1 (learn_zero_cadence s w) Hsync).
Defined.

(** The learner with an empty buffer: [learn] raises at step 0. *)
Lemma learn_needs_a_full_batch_witness :
  let s := toy_learner_empty.1 in
  let w := toy_learner_empty.2 in
  reachable s w
  ∧ sync_every s ≠ 0
  ∧ burn_in s ≤ curr_step s
  ∧ learn_every s ≠ 0
  ∧ curr_step s `mod` learn_every s = 0
  ∧ Z.of_nat (length (items (memory s))) < batch_size s
  ∧ (learn s w).1.1 = Raise (ValueError SampleLargerThanPopulation).
Proof.
  intros s w.
  pose proof toy_learner_empty_reachable as Hreach. fold s w in Hreach.
  assert (sync_every s ≠ 0) as Hsync by (vm_compute; discriminate).
  assert (burn_in s ≤ curr_step s) as Hburn by (vm_compute; discriminate).
  assert (learn_every s ≠ 0) as Hevery by (vm_compute; discriminate).
  assert (curr_step s `mod` learn_every s = 0) as Hstep by reflexivity.
  assert (Z.of_nat (length (items (memory s))) < batch_size s) as Hfew
    by (vm_compute; reflexivity).
  destruct (learn_needs_a_full_batch s w Hreach Hsync Hburn Hevery Hstep
              (or_introl Hfew)) as (tg & Hlearn & _).
  split_and!; [done..|]. by rewrite Hlearn.
Defined.

(** The learner at step 1, with three experiences in its buffer, takes a
    gradient step on a batch of two. *)
Lemma learn_gradient_step_witness :
  let s := toy_learner_acted.1.2 in
  let w := toy_learner_acted.2 in
  reachable s w
  ∧ 1 ≤ batch_size s ≤ Z.of_nat (length (items (memory s)))
  ∧ ∃ q l picked tg tgt,
      (learn s w).1.1 = Ok (Some q, Some l)
      ∧ Q (learn s w).1.2 = Some q
      ∧ loss (learn s w).1.2 = l
      ∧ value_nonneg l
      ∧ state_dict tg = state_dict (target (net s))
      ∧ td_target (set_net (mkShipNet (online (net s)) tg) s)
          (t_reward <$> picked) (t_next_state <$> picked)
          (t_done <$> picked)
        = Ok tgt
      ∧ length tgt = 2%nat.
Proof.
  intros s w.
  pose proof toy_learner_acted_reachable as Hreach. fold s w in Hreach.
  assert (sync_every s ≠ 0) as Hsync by (vm_compute; discriminate).
  assert (burn_in s ≤ curr_step s) as Hburn by (vm_compute; discriminate).
  assert (learn_every s ≠ 0) as Hevery by (vm_compute; discriminate).
  assert (curr_step s `mod` learn_every s = 0) as Hstep by reflexivity.
  assert (1 ≤ batch_size s ≤ Z.of_nat (length (items (memory s)))) as Hb
    by (vm_compute; split; discriminate).
  destruct (learn_gradient_step s w Hreach Hsync Hburn Hevery Hstep Hb)
    as (idxs & picked & est & tg & tgt & l & s' & t' & Hlearn & _ & _ & _
        & _ & Htg & Htgt & Hlen & _ & HQ & Hloss & Hpos).
  - intros t Ht.
    assert (∀ x, length (sequential (state_dict (online (net s))) x) = 6%nat)
      as Hon by (intros x; reflexivity).
    assert (∀ x, length (sequential (state_dict (target (net s))) x) = 6%nat)
      as Htg by (intros x; reflexivity).
    rewrite Htg, !Hon. split_and!.
    + change (items (memory s)) with toy_experiences in Ht.
      apply list_elem_of_In in Ht. cbn in Ht.
      destruct Ht as [<-|[<-|[<-|[]]]]; cbn; lia.
    + change (items (memory s)) with toy_experiences in Ht.
      apply list_elem_of_In in Ht. cbn in Ht.
      destruct Ht as [<-|[<-|[<-|[]]]]; cbn; lia.
    + intros Hnil. apply (f_equal length) in Hnil. rewrite Hon in Hnil.
      discriminate Hnil.
    + reflexivity.
  - split; [exact Hreach|split; [exact Hb|]]. rewrite Hlearn. cbn [fst snd].
    exists (mean est), l, picked, tg, tgt.
    destruct (decide (curr_step s `mod` sync_every s = 0)) as [Hz|_];
      [vm_compute in Hz; discriminate Hz|].
    split_and!;
      [reflexivity|exact HQ|exact Hloss|exact Hpos|exact Htg|exact Htgt
      |exact Hlen].
Defined.

(** One gradient step of the learner on an estimate that equals its
    target. *)
Lemma update_Q_online_adam_step_witness :
  let s := toy_learner_acted.1.2 in
  let w := toy_learner_acted.2 in
  let est := Tracked [Qc_of_Z 1] [Qc_of_Z 1] [0] in
  let tgt := [f32_of_Z 1] in
  reachable s w
  ∧ is_Ok (loss_fn (values est) tgt)
  ∧ (update_Q_online est tgt s w).1.1 = loss_fn (values est) tgt
  ∧ adam_lr (optimizer (update_Q_online est tgt s w).1.2)
    = adam_lr (optimizer s).
Proof.
  intros s w est tgt.
  pose proof toy_learner_acted_reachable as Hreach. fold s w in Hreach.
  destruct (update_Q_online_adam_step (H := toy) est tgt s w Hreach)
    as [Hok _].
  destruct (loss_fn (values est) tgt) as [l|e] eqn:Hloss;
    [|vm_compute in Hloss; discriminate Hloss].
  destruct (Hok l eq_refl) as (Hrun & Hlr & _).
  split_and!; [exact Hreach|by exists l| |exact Hlr]. by rewrite Hrun.
Defined.

(** The default agent synchronises its target parameters twice. *)
Lemma sync_Q_target_idempotent_witness :
  let s := toy_default.1 in
  let w := toy_default.2 in
  reachable s w
  ∧ ∃ s1, sync_Q_target s w = (Ok (), s1, w)
      ∧ sync_Q_target s1 w = (Ok (), s1, w).
Proof.
  intros s w. pose proof toy_default_reachable as Hreach. fold s w in Hreach.
  destruct (sync_Q_target_idempotent s w Hreach) as (s1 & Hone & Htwo & _).
  split; [exact Hreach|]. exists s1. by split.
Defined.


(** The default agent saves itself and loads the file back. *)
Lemma save_then_load_resets_optimizer_witness :
  let s := toy_default.1 in
  let w := toy_default.2 in
  reachable s w
  ∧ (load (checkpoint_path s) s (save s w).2).1.2
    = set_optimizer (mkAdam (lr s) ∅) s.
Proof.
  intros s w. pose proof toy_default_reachable as Hreach. fold s w in Hreach.
  split; [exact Hreach|].
  by rewrite (save_then_load_resets_optimizer s w Hreach).
Defined.

(** The learner saves itself at step 0 and at step 1: two files. *)
Lemma save_one_file_per_step_witness :
  let s1 := toy_learner_cached.1.2 in
  let s2 := toy_learner_acted.1.2 in
  let w := toy_learner_acted.2 in
  save_dir s1 = save_dir s2
  ∧ curr_step s1 ≠ curr_step s2
  ∧ checkpoint_path s1 ≠ checkpoint_path s2
  ∧ disk (save s2 (save s1 w).2).2 !! checkpoint_path s1
    = Some (checkpoint_of s1).
Proof.
  intros s1 s2 w.
  assert (save_dir s1 = save_dir s2) as Hdir by reflexivity.
  assert (curr_step s1 ≠ curr_step s2) as Hstep by (vm_compute; discriminate).
  destruct (save_one_file_per_step s1 s2 w Hdir) as (_ & _ & Hpath & Hkept & _).
  split_and!; [exact Hdir|exact Hstep| |exact (Hkept Hstep)].
  intros Heq. by apply Hstep, Hpath.
Defined.

(** The construction of the default agent, and the constructor on -1
    channels and on -1 actions. *)
Lemma Ship_init_fresh_witness :
  let r := Ship_init_default (4, 84, 84) 6 "checkpoints" toy_world in
  (0 ≤ default_lr)%Qc
  ∧ is_Ok r.1
  ∧ r.2 = set_torch_random [] toy_world
  ∧ Ship_init (-1, 84, 84) 6 "checkpoints" 1%Qc
      (Q2Qc (99999975 # 100000000)) (Q2Qc (1 # 10)) 500000 32
      (Q2Qc (9 # 10)) default_lr 10000 3 10000 toy_world
    = (Raise RuntimeError, toy_world)
  ∧ Ship_init (4, 84, 84) (-1) "checkpoints" 1%Qc
      (Q2Qc (99999975 # 100000000)) (Q2Qc (1 # 10)) 500000 32
      (Q2Qc (9 # 10)) default_lr 10000 3 10000 toy_world
    = (Raise RuntimeError, set_torch_random [] toy_world).
Proof.
  intros r.
  assert (0 ≤ default_lr)%Qc as Hlr by (vm_compute; discriminate).
  destruct (Ship_init_fresh (H := toy) 4 84 84 6 "checkpoints" 1%Qc
              (Q2Qc (99999975 # 100000000)) (Q2Qc (1 # 10)) 500000 32
              (Q2Qc (9 # 10)) default_lr 10000 3 10000 toy_world)
    as (Hok & _ & _ & _ & Hfresh).
  assert (is_Ok r.1) as [s Hs] by (apply Hok; split_and!; done).
  destruct (Hfresh s Hs) as (Hw & _).
  destruct (Ship_init_fresh (H := toy) (-1) 84 84 6 "checkpoints" 1%Qc
              (Q2Qc (99999975 # 100000000)) (Q2Qc (1 # 10)) 500000 32
              (Q2Qc (9 # 10)) default_lr 10000 3 10000 toy_world)
    as (_ & Hchannels & _).
  destruct (Ship_init_fresh (H := toy) 4 84 84 (-1) "checkpoints" 1%Qc
              (Q2Qc (99999975 # 100000000)) (Q2Qc (1 # 10)) 500000 32
              (Q2Qc (9 # 10)) default_lr 10000 3 10000 toy_world)
    as (_ & _ & Hactions & _).
  split_and!; [exact Hlr|by exists s|exact Hw| |].
  - apply Hchannels; [reflexivity|reflexivity|lia].
  - apply Hactions; [reflexivity|reflexivity|lia|lia].
Defined.

(** The agent that loaded the checkpoint of the saver. *)
Lemma reachable_invariants_witness :
  let s := toy_loaded.1.2 in
  let w := toy_loaded.2 in
  reachable s w
  ∧ 0 ≤ curr_step s
  ∧ Forall trainable (online (net s))
  ∧ Forall frozen (target (net s)).
Proof.
  intros s w.
  assert (reachable s w) as Hreach
    by apply (reach_load (checkpoint_path toy_saver.1)), toy_loader_reachable.
  destruct (reachable_invariants s w Hreach) as (Hstep & Htr & Hfr & _).
  by split_and!.
Defined.

(** The TD target of the learner before its first gradient step, on two
    of its experiences. *)
Lemma td_target_synced_is_max_witness :
  let self := toy_learner_cached.1.2 in
  let reward := [RFloat32 (f32_of_Z 1); RFloat32 (f32_of_Z 5)] in
  let next_state := [Qc_of_Z 2; Qc_of_Z 3] in
  let done := [false; true] in
  state_dict (target (net self)) = state_dict (online (net self))
  ∧ length reward = Z.to_nat (batch_size self)
  ∧ ∃ tgt, td_target self reward next_state done = Ok tgt
      ∧ length tgt = 2%nat.
Proof.
  intros self reward next_state done.
  assert (state_dict (target (net self)) = state_dict (online (net self)))
    as Hsync by reflexivity.
  assert (length reward = Z.to_nat (batch_size self)) as Hr by reflexivity.
  assert (length next_state = Z.to_nat (batch_size self)) as Hn
    by reflexivity.
  assert (length done = Z.to_nat (batch_size self)) as Hd by reflexivity.
  destruct (td_target_synced_is_max (H := toy) self reward next_state done
              Hsync Hr Hn Hd) as (tgt & Htgt & Hlen & _).
  - intros x _ Hnil. apply (f_equal length) in Hnil. discriminate Hnil.
  - split_and!; [exact Hsync|exact Hr|]. exists tgt. by split.
Defined.

(** The first call of [learn] on the default agent changes nothing. *)
Lemma learn_gated_idempotent_witness :
  let s := toy_default.1 in
  let w := toy_default.2 in
  reachable s w
  ∧ sync_every s ≠ 0
  ∧ curr_step s < burn_in s
  ∧ state_dict (target (net s)) = state_dict (online (net s))
  ∧ learn s w = (Ok (None, None), s, w).
Proof.
  intros s w. pose proof toy_default_reachable as Hreach. fold s w in Hreach.
  assert (sync_every s ≠ 0) as Hsync by (vm_compute; discriminate).
  assert (curr_step s < burn_in s) as Hburn by (vm_compute; reflexivity).
  assert (state_dict (target (net s)) = state_dict (online (net s)))
    as Hsame by reflexivity.
  destruct (learn_gated_idempotent s w Hreach Hsync (or_introl Hburn))
    as [_ Hnoop].
  split_and!; [done..|]. exact (Hnoop Hsame).
Defined.

(** The agent that loaded the checkpoint of the saver would save its own
    learning rate. *)
Lemma load_then_save_own_lr_witness :
  let s := toy_loader.1 in
  let w := toy_loader.2 in
  let path := checkpoint_path toy_saver.1 in
  let c := checkpoint_of toy_saver.1 in
  reachable s w
  ∧ disk w !! path = Some c
  ∧ (load path s w).1.1 = Ok ()
  ∧ ck_lr (checkpoint_of (load path s w).1.2) = lr s
  ∧ adam_lr (optimizer (load path s w).1.2) = ck_lr c.
Proof.
  intros s w path c.
  pose proof toy_loader_reachable as Hreach. fold s w in Hreach.
  assert (disk w !! path = Some c) as Hdisk by apply lookup_insert_eq.
  assert ((load (H := toy) path s w).1.1 = Ok ()) as Hok
    by (vm_compute; reflexivity).
  destruct (load_then_save_own_lr (H := toy) path c s w Hreach Hdisk Hok)
    as (Hck & Hlr & _).
  split_and!; [exact Hreach|exact Hdisk|exact Hok| |exact Hlr].
  by rewrite Hck.
Defined.

End Concrete.
